(** * Replay buffers, noise processes and the TD3 update schedule of ddqnAgent.py

    A shallow embedding of [src/ddqnAgent.py].  Floating-point numbers are
    idealised as real numbers ([R]); a numpy array or torch tensor is the
    list of its entries; Python exceptions are [None] in an [option]
    result; the pseudo-random draws of [random] / [numpy.random] /
    [torch.randn_like] are explicit arguments of the functions that consume
    them.  The neural networks and the Adam optimiser are external
    collaborators and appear as section variables. *)

From Stdlib Require Import Reals Lra Lia ZArith Bool.
From stdpp Require Import base option list.

Open Scope R_scope.

(** ** Transitions and the bounded deque *)

(** [namedtuple("Experience", ["state","action","reward","nextState","done"])] *)
Record Experience : Type := mkExperience {
  state : list R;
  action : list R;
  reward : R;
  nextState : list R;
  done : bool
}.

Module Deque.
Section Deque.
Context {A : Type}.

(** [collections.deque(maxlen = n)]: index 0 is the left (oldest) end.
    [append] adds on the right; a full deque first discards its leftmost
    item.  With [maxlen = 0] nothing is ever stored. *)
Definition append (maxlen : nat) (d : list A) (x : A) : list A :=
  if (length d <? maxlen)%nat then d ++ [x] else drop 1 (d ++ [x]).

Definition extend (maxlen : nat) (d : list A) (xs : list A) : list A :=
  foldl (append maxlen) d xs.

End Deque.
End Deque.

(** ** numpy helpers *)

(** [np.vstack(rows)] on one-dimensional rows: raises [ValueError] on an
    empty sequence and when the rows do not all have the same length;
    otherwise the result has one row per input. *)
Definition same_width (rows : list (list R)) : bool :=
  match rows with
  | [] => true
  | r :: rest => forallb (fun r' => (length r' =? length r)%nat) rest
  end.

Definition vstack (rows : list (list R)) : option (list (list R)) :=
  match rows with
  | [] => None
  | _ => if same_width rows then Some rows else None
  end.

(** A Python scalar stacked by [np.vstack] becomes a row of width one. *)
Definition scalar_row (x : R) : list R := [x].

(** [.astype(np.uint8).float()] of a boolean. *)
Definition bool_to_float (b : bool) : R := if b then 1 else 0.

(** ** random.sample *)

(** [random.sample(population, k)] raises [ValueError] when [k] exceeds the
    population size; otherwise it returns the items found at [k] pairwise
    distinct positions of the population.  The positions it draws are the
    argument [picks]; [sample_ok] is the guarantee the standard library
    gives about them. *)
Definition sample_ok (n k : nat) (picks : list nat) : Prop :=
  length picks = k /\ NoDup picks /\ Forall (fun i => (i < n)%nat) picks.

Definition random_sample {A} (population : list A) (k : nat) (picks : list nat)
  : option (list A) :=
  if (length population <? k)%nat then None
  else mapM (fun i => population !! i) picks.

(** ** ReplayBuffer *)

Module ReplayBuffer.

Record t : Type := mk {
  memBuff : list Experience;   (* deque contents, oldest first *)
  maxlen : nat;                (* the deque's maxlen *)
  batchSize : nat
}.

(** The five stacked arrays returned by [memSample]. *)
Record Batch : Type := mkBatch {
  states : list (list R);
  actions : list (list R);
  rewards : list (list R);
  nextStates : list (list R);
  dones : list (list R)
}.

Section WithConstants.
Variables BUFFER_SIZE BATCH_SIZE : nat.

(** [__init__(seed)] *)
Definition init : t :=
  {| memBuff := []; maxlen := BUFFER_SIZE; batchSize := BATCH_SIZE |}.
End WithConstants.

Definition addMem (b : t) (st ac : list R) (rw : R) (ns : list R) (dn : bool) : t :=
  let e := mkExperience st ac rw ns dn in
  {| memBuff := Deque.append (maxlen b) (memBuff b) e;
     maxlen := maxlen b; batchSize := batchSize b |}.

(** [__len__] *)
Definition len (b : t) : nat := length (memBuff b).

(** [memSample]: the buffer is threaded through to make explicit that the
    call leaves it as it was. *)
Definition memSample (b : t) (picks : list nat) : option (Batch * t) :=
  memorySample ← random_sample (memBuff b) (batchSize b) picks;
  sts ← vstack (map state memorySample);
  acs ← vstack (map action memorySample);
  rws ← vstack (map (fun mem => scalar_row (reward mem)) memorySample);
  nss ← vstack (map nextState memorySample);
  dns ← vstack (map (fun mem => scalar_row (bool_to_float (done mem))) memorySample);
  Some (mkBatch sts acs rws nss dns, b).

(** Adding a recorded transition, and a whole sequence of them. *)
Definition addExp (b : t) (e : Experience) : t :=
  addMem b (state e) (action e) (reward e) (nextState e) (done e).

Definition addAll (b : t) (es : list Experience) : t := foldl addExp b es.

(** Every stored transition has state vectors of width [stateSize] and
    action vectors of width [actionSize] (the data model's
    [float[stateSize]], [float[actionSize]]). *)
Definition well_shaped (stateSize actionSize : nat) (b : t) : Prop :=
  Forall (fun e => length (state e) = stateSize
                   /\ length (action e) = actionSize
                   /\ length (nextState e) = stateSize) (memBuff b).

End ReplayBuffer.

(** ** Segment trees (baselines.common.segment_tree)

    [SumSegmentTree] and [MinSegmentTree] come from the external
    [baselines] package.  A tree of capacity [c] is represented by its [c]
    leaves; the internal nodes cache the reduction of the leaves below
    them, so that [sum()] and [min()] are the reductions of all leaves.
    The neutral element fills the leaves never written: [0.0] for the
    sum tree and [float('inf')] for the min tree. *)

Module SegmentTree.

(** A float that may be [float('inf')]. *)
Inductive xreal : Type :=
| Fin (r : R)
| PosInf.

Definition xmin (a b : xreal) : xreal :=
  match a, b with
  | Fin x, Fin y => Fin (Rmin x y)
  | Fin x, PosInf => Fin x
  | PosInf, _ => b
  end.

Definition SumSegmentTree (capacity : nat) : list R := replicate capacity 0.

Definition MinSegmentTree (capacity : nat) : list xreal := replicate capacity PosInf.

(** [tree[idx] = val]: the write lands in the backing array at
    [idx + capacity] and raises [IndexError] beyond it. *)
Definition setitem {A} (tree : list A) (idx : nat) (val : A) : option (list A) :=
  if (idx <? length tree)%nat then Some (<[idx := val]> tree) else None.

(** [tree[idx]], with its assertion [0 <= idx < capacity]. *)
Definition getitem {A} (tree : list A) (idx : nat) : option A := tree !! idx.

(** [sumTree.sum()] *)
Definition sum (tree : list R) : R := foldr Rplus 0 tree.

(** [minTree.min()] *)
Definition min (tree : list xreal) : xreal := foldr xmin PosInf tree.

End SegmentTree.

(** ** Float power

    [x ** y] on Python floats with a positive base [x] is [exp (y * ln x)].
    Every base raised to a power in this program is positive on the paths
    the theorems below follow: [maxPriority] starts at [1.0] and only
    grows, [updatePriorities] asserts [priority > 0] first, and
    [memSample] raises a probability mass times a buffer length. *)
Definition fpow (x y : R) : R := Rpower x y.

(** ** PrioritizedReplayBuffer *)

Module PrioritizedReplayBuffer.

Import SegmentTree.

Record t : Type := mk {
  base : ReplayBuffer.t;       (* the inherited ReplayBuffer fields *)
  alpha : R;
  sumTree : list R;
  minTree : list xreal;
  maxPriority : R;
  nextIdx : nat
}.

Section WithConstants.
Variables BUFFER_SIZE BATCH_SIZE : nat.

(** [capacity = 1; while capacity < BUFFER_SIZE: capacity *= 2].  The loop
    body at least adds one to [capacity], so [BUFFER_SIZE] rounds of fuel
    are never used up. *)
Fixpoint grow (fuel capacity : nat) : nat :=
  match fuel with
  | O => capacity
  | S fuel' =>
      if (capacity <? BUFFER_SIZE)%nat then grow fuel' (capacity * 2) else capacity
  end.

Definition treeCapacity : nat := grow BUFFER_SIZE 1.

(** [__init__(seed, alpha)] *)
Definition init (alpha0 : R) : t :=
  {| base := ReplayBuffer.init BUFFER_SIZE BATCH_SIZE;
     alpha := alpha0;
     sumTree := SumSegmentTree treeCapacity;
     minTree := MinSegmentTree treeCapacity;
     maxPriority := 1;
     nextIdx := 0 |}.

(** [addMem]: [(self.nextIdx + 1) % BUFFER_SIZE] raises
    [ZeroDivisionError] when [BUFFER_SIZE] is zero. *)
Definition addMem (s : t) (st ac : list R) (rw : R) (ns : list R) (dn : bool)
  : option t :=
  let idx := nextIdx s in
  let base' := ReplayBuffer.addMem (base s) st ac rw ns dn in
  sumTree' ← setitem (sumTree s) idx (fpow (maxPriority s) (alpha s));
  minTree' ← setitem (minTree s) idx (Fin (fpow (maxPriority s) (alpha s)));
  if (BUFFER_SIZE =? 0)%nat then None
  else Some {| base := base'; alpha := alpha s;
               sumTree := sumTree'; minTree := minTree';
               maxPriority := maxPriority s;
               nextIdx := (nextIdx s + 1) mod BUFFER_SIZE |}.

End WithConstants.

(** [np.array(rows)] followed by [torch.from_numpy]: rows of unequal
    length give an object array, which [from_numpy] rejects. *)
Definition np_array (rows : list (list R)) : option (list (list R)) :=
  if same_width rows then Some rows else None.

(** [encodedSample(idxes)]: [self.memBuff[idx]] raises [IndexError] out of
    range; rewards and done flags get their extra dimension from
    [unsqueeze(1)]. *)
Definition encodedSample (s : t) (idxes : list nat) : option ReplayBuffer.Batch :=
  chosen ← mapM (fun idx => ReplayBuffer.memBuff (base s) !! idx) idxes;
  sts ← np_array (map state chosen);
  acs ← np_array (map action chosen);
  nss ← np_array (map nextState chosen);
  Some (ReplayBuffer.mkBatch sts acs
          (map (fun e => scalar_row (reward e)) chosen)
          nss
          (map (fun e => scalar_row (bool_to_float (done e))) chosen)).

(** The importance weight [memSample] computes for one sampled index. *)
Definition weightOf (s : t) (beta maxWeight : R) (idx : nat) : option R :=
  leaf ← getitem (sumTree s) idx;
  let probSample := leaf / sum (sumTree s) in
  let weight := fpow (probSample * INR (ReplayBuffer.len (base s))) (- beta) in
  Some (weight / maxWeight).

(** [memSample(beta)].  [indexes] is what [sampleProportional()] returned
    (its stratified draws come from [random.random()]).  On an empty
    buffer the min tree holds only [inf] and the sum tree only [0.0], and
    [probMin]'s division raises [ZeroDivisionError]. *)
Definition memSample (s : t) (beta : R) (indexes : list nat)
  : option (ReplayBuffer.Batch * list R * list nat) :=
  match min (minTree s) with
  | PosInf => None
  | Fin globalMin =>
      if Req_dec_T (sum (sumTree s)) 0 then None
      else
        let probMin := globalMin / sum (sumTree s) in
        let maxWeight := fpow (probMin * INR (ReplayBuffer.len (base s))) (- beta) in
        weights ← mapM (weightOf s beta maxWeight) indexes;
        encodedSampleReturn ← encodedSample s indexes;
        Some (encodedSampleReturn, weights, indexes)
  end.

(** One round of the loop of [updatePriorities]. *)
Definition updateOne (s : t) (idx : Z) (priority : R) : option t :=
  if Rlt_dec 0 priority then
    if ((0 <=? idx)%Z && (idx <? Z.of_nat (ReplayBuffer.len (base s)))%Z)%bool then
      sumTree' ← setitem (sumTree s) (Z.to_nat idx) (fpow priority (alpha s));
      minTree' ← setitem (minTree s) (Z.to_nat idx) (Fin (fpow priority (alpha s)));
      Some {| base := base s; alpha := alpha s;
              sumTree := sumTree'; minTree := minTree';
              maxPriority := Rmax (maxPriority s) priority;
              nextIdx := nextIdx s |}
    else None
  else None.

Fixpoint updateLoop (s : t) (pairs : list (Z * R)) : option t :=
  match pairs with
  | [] => Some s
  | (idx, priority) :: rest =>
      s' ← updateOne s idx priority;
      updateLoop s' rest
  end.

(** [updatePriorities(indexes, priorities)] *)
Definition updatePriorities (s : t) (indexes : list Z) (priorities : list R)
  : option t :=
  if (length indexes =? length priorities)%nat
  then updateLoop s (zip indexes priorities)
  else None.

End PrioritizedReplayBuffer.

(** ** Specification vocabulary for the prioritized buffer *)

Module PrioritySpec.
Import SegmentTree PrioritizedReplayBuffer.

(** Both trees have a leaf for every occupied position of the buffer. *)
Definition tree_covers (s : t) : Prop :=
  (ReplayBuffer.len (base s) <= length (sumTree s))%nat
  /\ (ReplayBuffer.len (base s) <= length (minTree s))%nat.

(** A pair on which one of the two assertions in the loop of
    [updatePriorities] fails. *)
Definition bad_pair (s : t) (pr : Z * R) : Prop :=
  snd pr <= 0 \/ (fst pr < 0)%Z \/ (Z.of_nat (ReplayBuffer.len (base s)) <= fst pr)%Z.

(** The calls that change a prioritized buffer, and a run of them. *)
Inductive call : Type :=
| AddMem (e : Experience)
| UpdatePriorities (indexes : list Z) (priorities : list R).

Definition run_call (BUFFER_SIZE : nat) (s : t) (c : call) : option t :=
  match c with
  | AddMem e =>
      addMem BUFFER_SIZE s (state e) (action e) (reward e) (nextState e) (done e)
  | UpdatePriorities indexes priorities => updatePriorities s indexes priorities
  end.

Fixpoint run (BUFFER_SIZE : nat) (s : t) (cs : list call) : option t :=
  match cs with
  | [] => Some s
  | c :: rest => s' ← run_call BUFFER_SIZE s c; run BUFFER_SIZE s' rest
  end.

(** The priority each stored transition was last given, listed in the
    order of [memBuff]: a transition enters with the [maxPriority] of the
    moment, leaves with the transition the deque evicts, and
    [updatePriorities] gives a new priority to the transition that
    [memBuff[idx]] is (the one [encodedSample] hands to the learner for
    the sampled index [idx]). *)
Definition assigned_call (s : t) (g : list R) (c : call) : list R :=
  match c with
  | AddMem _ => Deque.append (ReplayBuffer.maxlen (base s)) g (maxPriority s)
  | UpdatePriorities indexes priorities =>
      foldl (fun g' pr => <[Z.to_nat (fst pr) := snd pr]> g') g (zip indexes priorities)
  end.

Fixpoint run_assigned (BUFFER_SIZE : nat) (s : t) (g : list R) (cs : list call)
  : option (t * list R) :=
  match cs with
  | [] => Some (s, g)
  | c :: rest =>
      s' ← run_call BUFFER_SIZE s c;
      run_assigned BUFFER_SIZE s' (assigned_call s g c) rest
  end.

(** The number of [addMem] calls in a run. *)
Fixpoint adds (cs : list call) : nat :=
  match cs with
  | [] => 0
  | AddMem _ :: rest => S (adds rest)
  | UpdatePriorities _ _ :: rest => adds rest
  end.

(** The invariant of the spec: leaf [i] of both trees holds
    [priority_i ** alpha] for the transition stored at position [i]. *)
Definition leaves_match (s : t) (g : list R) : Prop :=
  length g = ReplayBuffer.len (base s)
  /\ forall i p, g !! i = Some p ->
       sumTree s !! i = Some (fpow p (alpha s))
       /\ minTree s !! i = Some (Fin (fpow p (alpha s))).

(** What holds of the two trees in every state the calls can reach: a
    positive value sits in both trees at every occupied position, and the
    neutral elements everywhere else. *)
Definition leaves_ok (s : t) : Prop :=
  (forall i, (i < ReplayBuffer.len (base s))%nat ->
     exists v, 0 < v /\ sumTree s !! i = Some v /\ minTree s !! i = Some (Fin v))
  /\ (forall i, (ReplayBuffer.len (base s) <= i)%nat ->
        (forall v, sumTree s !! i = Some v -> v = 0)
        /\ (forall m, minTree s !! i = Some m -> m = PosInf)).

Definition Inv (BUFFER_SIZE : nat) (s : t) : Prop :=
  ReplayBuffer.maxlen (base s) = BUFFER_SIZE
  /\ (ReplayBuffer.len (base s) <= BUFFER_SIZE)%nat
  /\ length (sumTree s) = treeCapacity BUFFER_SIZE
  /\ length (minTree s) = treeCapacity BUFFER_SIZE
  /\ ((ReplayBuffer.len (base s) < BUFFER_SIZE)%nat ->
      nextIdx s = ReplayBuffer.len (base s))
  /\ (nextIdx s < BUFFER_SIZE)%nat
  /\ 1 <= maxPriority s
  /\ leaves_ok s.

End PrioritySpec.

(** ** Tensor arithmetic

    A two-dimensional tensor is the list of its rows.  The binary
    operations below act entry by entry on operands of one shape, which is
    what the program applies them to (the batch columns all have
    [BATCH_SIZE] rows, action rows all have [actionSize] entries). *)

Abbreviation Tensor := (list (list R)) (only parsing).

Definition t_map (f : R -> R) (a : Tensor) : Tensor := map (map f) a.

Definition t_zip (f : R -> R -> R) (a b : Tensor) : Tensor :=
  zip_with (zip_with f) a b.

(** An operation between every row of [a] and the one-dimensional [v]
    (broadcasting over the batch dimension). *)
Definition t_rows (f : R -> R -> R) (a : Tensor) (v : list R) : Tensor :=
  map (fun row => zip_with f row v) a.

(** [np.clip(x, lo, hi)], which is [minimum(hi, maximum(x, lo))]. *)
Definition np_clip (x lo hi : R) : R := Rmin hi (Rmax x lo).

(** The parameters of a network: one flattened tensor per layer weight or
    bias, in the order of [parameters()]. *)
Abbreviation Params := (list (list R)) (only parsing).

(** [softUpdate(targetModel, localModel)], the same text in [Agent] and in
    [TD3Agent].  [zip] stops at the shorter parameter list, and [copy_]
    writes in place, so target tensors beyond it stay as they are.  The
    pair returned is (target network, local network) after the call. *)
Definition softUpdate (TAU : R) (targetModel localModel : Params) : Params * Params :=
  (zip_with (fun targetParams localParams =>
               zip_with (fun t l => TAU * l + (1 - TAU) * t) targetParams localParams)
            targetModel localModel
   ++ drop (length localModel) targetModel,
   localModel).

(** The two networks have the same architecture: as many parameter
    tensors, of the same sizes. *)
Definition same_shape (targetModel localModel : Params) : Prop :=
  Forall2 (fun t l => length t = length l) targetModel localModel.

(** [a % b] on Python ints: [ZeroDivisionError] for [b = 0]. *)
Definition pymod (a b : nat) : option nat :=
  if (b =? 0)%nat then None else Some (a mod b)%nat.

(** ** TD3Agent (constructed with [usePER = False], the default) *)

Module TD3Agent.

Section WithCollaborators.

(** Module constants. *)
Variables BUFFER_SIZE BATCH_SIZE LEARN_EVERY : nat.
Variables UPDATE_CRITIC_TARGET_STEPS UPDATE_ACTOR_TARGET_STEPS TRAIN_ACTOR_STEPS : nat.
Variables GAMMA TAU : R.

(** External collaborators: the forward passes of the actor and of the twin
    critic on a batch, and one optimiser step (zero_grad, backward, step)
    for each local network.  [Optimizer] is Adam's internal state. *)
Variable Optimizer : Type.
Variable actorForward : Params -> Tensor -> Tensor.
Variable criticForward : Params -> Tensor -> Tensor -> Tensor * Tensor.
Variable criticOptimStep :
  Optimizer -> Params -> ReplayBuffer.Batch -> Tensor -> Optimizer * Params.
Variable actorOptimStep :
  Optimizer -> Params -> Params -> Tensor -> Optimizer * Params.

Record t : Type := mk {
  actionSize : nat;
  actionBounds : R * R;
  noiseRatio : R;
  noiseClipRatio : R;
  stepNum : nat;
  QNet_Actor_Local : Params;
  QNet_Actor_Target : Params;
  QNet_Critic_Local : Params;
  QNet_Critic_Target : Params;
  Optim_Actor : Optimizer;
  Optim_Critic : Optimizer;
  replayMem : ReplayBuffer.t
}.

(** [__init__]: the four networks and two optimisers are built by the
    collaborators and passed in. *)
Definition init (bounds : R * R) (size : nat)
  (actorLocal actorTarget criticLocal criticTarget : Params)
  (optA optC : Optimizer) : t :=
  {| actionSize := size; actionBounds := bounds;
     noiseRatio := 0.1; noiseClipRatio := 0.5; stepNum := 0;
     QNet_Actor_Local := actorLocal; QNet_Actor_Target := actorTarget;
     QNet_Critic_Local := criticLocal; QNet_Critic_Target := criticTarget;
     Optim_Actor := optA; Optim_Critic := optC;
     replayMem := ReplayBuffer.init BUFFER_SIZE BATCH_SIZE |}.

(** [actionNoise(prevActions, nextActions)]; [gauss] is the tensor drawn by
    [torch.randn_like(prevActions)]. *)
Definition actionNoise (a : t) (gauss nextActions : Tensor) : Tensor :=
  let actionMin := fst (actionBounds a) in
  let actionMax := snd (actionBounds a) in
  let actionMinArray := replicate (actionSize a) actionMin in
  let actionMaxArray := replicate (actionSize a) actionMax in
  let actionRange := zip_with Rminus actionMaxArray actionMinArray in
  let actionNoise0 := t_rows Rmult (t_map (fun g => g * noiseRatio a) gauss) actionRange in
  let noiseMin := map (fun x => x * noiseClipRatio a) actionMinArray in
  let noiseMax := map (fun x => x * noiseClipRatio a) actionMaxArray in
  let actionNoise1 := t_rows Rmax (t_rows Rmin actionNoise0 noiseMax) noiseMin in
  let noisyNextActions := t_zip Rplus nextActions actionNoise1 in
  t_rows Rmax (t_rows Rmin noisyNextActions actionMaxArray) actionMinArray.

(** The Bellman targets computed under [torch.no_grad()] in [learn]. *)
Definition bellmanTargets (a : t) (experiences : ReplayBuffer.Batch) (gauss : Tensor)
  : Tensor :=
  let actionsNext := actorForward (QNet_Actor_Target a) (ReplayBuffer.nextStates experiences) in
  let noisyActionsNext := actionNoise a gauss actionsNext in
  let '(Q_Targets_Next_A, Q_Targets_Next_B) :=
    criticForward (QNet_Critic_Target a) (ReplayBuffer.nextStates experiences) noisyActionsNext in
  let Q_Targets_Next := t_zip Rmin Q_Targets_Next_A Q_Targets_Next_B in
  t_zip Rplus (ReplayBuffer.rewards experiences)
    (t_zip Rmult (t_map (fun q => GAMMA * q) Q_Targets_Next)
                 (t_map (fun d => 1 - d) (ReplayBuffer.dones experiences))).

(** [learn(experiences)] *)
Definition learn (a : t) (experiences : ReplayBuffer.Batch) (gauss : Tensor) : option t :=
  let Q_Targets := bellmanTargets a experiences gauss in
  let '(optC, criticLocal) :=
    criticOptimStep (Optim_Critic a) (QNet_Critic_Local a) experiences Q_Targets in
  rA ← pymod (stepNum a) TRAIN_ACTOR_STEPS;
  let '(optA, actorLocal) :=
    if (rA =? 0)%nat
    then actorOptimStep (Optim_Actor a) (QNet_Actor_Local a) criticLocal
           (ReplayBuffer.states experiences)
    else (Optim_Actor a, QNet_Actor_Local a) in
  rC ← pymod (stepNum a) UPDATE_CRITIC_TARGET_STEPS;
  let criticTarget :=
    if (rC =? 0)%nat then fst (softUpdate TAU (QNet_Critic_Target a) criticLocal)
    else QNet_Critic_Target a in
  rT ← pymod (stepNum a) UPDATE_ACTOR_TARGET_STEPS;
  let actorTarget :=
    if (rT =? 0)%nat then fst (softUpdate TAU (QNet_Actor_Target a) actorLocal)
    else QNet_Actor_Target a in
  Some {| actionSize := actionSize a; actionBounds := actionBounds a;
          noiseRatio := noiseRatio a; noiseClipRatio := noiseClipRatio a;
          stepNum := stepNum a;
          QNet_Actor_Local := actorLocal; QNet_Actor_Target := actorTarget;
          QNet_Critic_Local := criticLocal; QNet_Critic_Target := criticTarget;
          Optim_Actor := optA; Optim_Critic := optC;
          replayMem := replayMem a |}.

(** [step(state, action, reward, next_state, done)]; [picks] and [gauss]
    are the random draws of [memSample] and [actionNoise], used only when
    the call reaches them. *)
Definition step (a : t) (st ac : list R) (rw : R) (ns : list R) (dn : bool)
  (picks : list nat) (gauss : Tensor) : option t :=
  let mem := ReplayBuffer.addMem (replayMem a) st ac rw ns dn in
  let a1 := {| actionSize := actionSize a; actionBounds := actionBounds a;
               noiseRatio := noiseRatio a; noiseClipRatio := noiseClipRatio a;
               stepNum := stepNum a + 1;
               QNet_Actor_Local := QNet_Actor_Local a;
               QNet_Actor_Target := QNet_Actor_Target a;
               QNet_Critic_Local := QNet_Critic_Local a;
               QNet_Critic_Target := QNet_Critic_Target a;
               Optim_Actor := Optim_Actor a; Optim_Critic := Optim_Critic a;
               replayMem := mem |} in
  r ← pymod (stepNum a1) LEARN_EVERY;
  if (r =? 0)%nat then
    if (BATCH_SIZE <? ReplayBuffer.len mem)%nat then
      '(experienceSample, _) ← ReplayBuffer.memSample mem picks;
      learn a1 experienceSample gauss
    else Some a1
  else Some a1.

(** One environment transition together with the draws its [step] may use. *)
Record StepInput : Type := mkStepInput {
  in_exp : Experience;
  in_picks : list nat;
  in_gauss : Tensor
}.

Definition stepWith (a : t) (i : StepInput) : option t :=
  step a (state (in_exp i)) (action (in_exp i)) (reward (in_exp i))
       (nextState (in_exp i)) (done (in_exp i)) (in_picks i) (in_gauss i).

Fixpoint steps (a : t) (inputs : list StepInput) : option t :=
  match inputs with
  | [] => Some a
  | i :: rest => a' ← stepWith a i; steps a' rest
  end.

(** The agent after a call of [step] that stores the transition and does
    not reach [learn]. *)
Definition stored (a : t) (e : Experience) : t :=
  {| actionSize := actionSize a; actionBounds := actionBounds a;
     noiseRatio := noiseRatio a; noiseClipRatio := noiseClipRatio a;
     stepNum := stepNum a + 1;
     QNet_Actor_Local := QNet_Actor_Local a;
     QNet_Actor_Target := QNet_Actor_Target a;
     QNet_Critic_Local := QNet_Critic_Local a;
     QNet_Critic_Target := QNet_Critic_Target a;
     Optim_Actor := Optim_Actor a; Optim_Critic := Optim_Critic a;
     replayMem := ReplayBuffer.addExp (replayMem a) e |}.

(** The noise [actionNoise] adds to one entry, for the deviate [g], and
    the noised, clipped entry it returns for the target actor's [x]. *)
Definition noiseOf (a : t) (g : R) : R :=
  Rmax (Rmin (g * noiseRatio a * (snd (actionBounds a) - fst (actionBounds a)))
             (snd (actionBounds a) * noiseClipRatio a))
       (fst (actionBounds a) * noiseClipRatio a).

Definition noisyOf (a : t) (g x : R) : R :=
  Rmax (Rmin (x + noiseOf a g) (snd (actionBounds a))) (fst (actionBounds a)).

End WithCollaborators.

Arguments actionSize {Optimizer} _.
Arguments actionBounds {Optimizer} _.
Arguments noiseRatio {Optimizer} _.
Arguments noiseClipRatio {Optimizer} _.
Arguments stepNum {Optimizer} _.
Arguments QNet_Actor_Local {Optimizer} _.
Arguments QNet_Actor_Target {Optimizer} _.
Arguments QNet_Critic_Local {Optimizer} _.
Arguments QNet_Critic_Target {Optimizer} _.
Arguments Optim_Actor {Optimizer} _.
Arguments Optim_Critic {Optimizer} _.
Arguments replayMem {Optimizer} _.
Arguments actionNoise {Optimizer} _ _ _.
Arguments noiseOf {Optimizer} _ _.
Arguments noisyOf {Optimizer} _ _ _.
Arguments bellmanTargets _ {Optimizer} _ _ _ _ _.
Arguments learn _ _ _ _ _ {Optimizer} _ _ _ _ _ _ _.
Arguments step _ _ _ _ _ _ _ {Optimizer} _ _ _ _ _ _ _ _ _ _ _ _.
Arguments stepWith _ _ _ _ _ _ _ {Optimizer} _ _ _ _ _ _.
Arguments steps _ _ _ _ _ _ _ {Optimizer} _ _ _ _ _ _.
Arguments init _ _ {Optimizer} _ _ _ _ _ _ _ _.
Arguments stored {Optimizer} _ _.

End TD3Agent.

(** ** OUNoise *)

Module OUNoise.

Record t : Type := mk {
  mu : list R;
  theta : R;
  sigma : R;
  state : list R
}.

(** [reset()]: [copy.copy(self.mu)] is a fresh array with the entries of
    [mu]. *)
Definition reset (n : t) : t :=
  {| mu := mu n; theta := theta n; sigma := sigma n; state := mu n |}.

(** [__init__(size, seed, mu, theta, sigma)] *)
Definition init (size : nat) (mu0 theta0 sigma0 : R) : t :=
  reset {| mu := map (fun one => mu0 * one) (replicate size 1);
           theta := theta0; sigma := sigma0; state := [] |}.

(** [sample()]: [draw i] is the value the [i]-th call of [random.random()]
    in the list comprehension returns.  The result is the returned array
    and the process after the call. *)
Definition sample (n : t) (draw : nat -> R) : list R * t :=
  let x := state n in
  let noise := map draw (seq 0 (length x)) in
  let dx := zip_with Rplus
              (map (fun d => theta n * d) (zip_with Rminus (mu n) x))
              (map (fun u => sigma n * u) noise) in
  let state' := zip_with Rplus x dx in
  (state', {| mu := mu n; theta := theta n; sigma := sigma n; state := state' |}).

(** What the standard library promises about [random.random()]: a float
    of the half-open interval [[0.0, 1.0)]. *)
Definition random_random_ok (draw : nat -> R) : Prop :=
  forall i, 0 <= draw i < 1.

End OUNoise.

(** ** NormalNoiseDecayStrategy *)

Module NormalNoiseDecayStrategy.

(** [self.noiseRatio] is not assigned by [__init__]: the attribute exists
    only once [selectAction] has assigned it, hence the [option]. *)
Record t : Type := mk {
  step : nat;
  low : R;
  high : R;
  initNoiseRatio : R;
  minNoiseRatio : R;
  decaySteps : nat;
  ratioNoiseInjected : R;
  noiseRatio : option R
}.

(** [__init__(bounds, initialNoiseRatio, minNoiseRatio, decaySteps)] *)
Definition init (bounds : R * R) (initialNoiseRatio minNoiseRatio0 : R)
  (decaySteps0 : nat) : t :=
  {| step := 0; low := fst bounds; high := snd bounds;
     initNoiseRatio := initialNoiseRatio; minNoiseRatio := minNoiseRatio0;
     decaySteps := decaySteps0; ratioNoiseInjected := 0; noiseRatio := None |}.

(** The constructor's default arguments. *)
Definition init_default (bounds : R * R) : t :=
  init bounds 0.5 0.1 (Z.to_nat 10000).

(** [noiseRatioUpdate()]: [self.step / self.decaySteps] raises
    [ZeroDivisionError] when [decaySteps] is zero. *)
Definition noiseRatioUpdate (s : t) : option (R * t) :=
  if (decaySteps s =? 0)%nat then None
  else
    let noiseRatio0 := 1 - INR (step s) / INR (decaySteps s) in
    let noiseRatio1 :=
      (initNoiseRatio s - minNoiseRatio s) * noiseRatio0 + minNoiseRatio s in
    let noiseRatio2 := np_clip noiseRatio1 (minNoiseRatio s) (initNoiseRatio s) in
    Some (noiseRatio2,
          {| step := step s + 1; low := low s; high := high s;
             initNoiseRatio := initNoiseRatio s; minNoiseRatio := minNoiseRatio s;
             decaySteps := decaySteps s;
             ratioNoiseInjected := ratioNoiseInjected s;
             noiseRatio := noiseRatio s |}).

(** The array [network(state)....numpy().squeeze()]: the network returns one
    row; [squeeze] turns a row of one entry into a zero-dimensional array,
    on which [len] raises [TypeError]. *)
Inductive ndarray : Type :=
| Array0 (x : R)
| Array1 (xs : list R).

Definition squeeze (row : list R) : ndarray :=
  match row with
  | [x] => Array0 x
  | _ => Array1 row
  end.

Definition nd_map (f : R -> R) (a : ndarray) : ndarray :=
  match a with
  | Array0 x => Array0 (f x)
  | Array1 xs => Array1 (map f xs)
  end.

Definition nd_len (a : ndarray) : option nat :=
  match a with
  | Array0 _ => None
  | Array1 xs => Some (length xs)
  end.

(** [np.mean] of a one-dimensional array. *)
Definition np_mean (xs : list R) : R := foldr Rplus 0 xs / INR (length xs).

(** [selectAction(network, state, maxExploration, chooseGreedyAction)].
    [output] is the row [network(state)] evaluates to and [normal i] the
    [i]-th standard normal deviate behind [np.random.normal], which raises
    [ValueError] for a negative [scale]. *)
Definition selectAction (s : t) (output : list R)
  (maxExploration chooseGreedyAction : bool) (normal : nat -> R)
  : option (ndarray * t) :=
  noiseScale ← (if maxExploration then Some (high s)
                else nr ← noiseRatio s; Some (nr * high s));
  let greedyAction := squeeze output in
  if chooseGreedyAction then
    Some (nd_map (fun x => np_clip x (low s) (high s)) greedyAction,
          {| step := step s; low := low s; high := high s;
             initNoiseRatio := initNoiseRatio s; minNoiseRatio := minNoiseRatio s;
             decaySteps := decaySteps s; ratioNoiseInjected := 0;
             noiseRatio := noiseRatio s |})
  else
    size ← nd_len greedyAction;
    if Rlt_dec noiseScale 0 then None
    else
      let noise := map (fun i => noiseScale * normal i) (seq 0 size) in
      let noisyAction := zip_with Rplus output noise in
      let action := map (fun x => np_clip x (low s) (high s)) noisyAction in
      '(nr, s1) ← noiseRatioUpdate s;
      let injected :=
        np_mean (map Rabs (map (fun d => d / (high s - low s))
                               (zip_with Rminus output action))) in
      Some (Array1 action,
            {| step := step s1; low := low s1; high := high s1;
               initNoiseRatio := initNoiseRatio s1;
               minNoiseRatio := minNoiseRatio s1;
               decaySteps := decaySteps s1; ratioNoiseInjected := injected;
               noiseRatio := Some nr |}).

End NormalNoiseDecayStrategy.

(** ** Sample data *)

(** The [k]-th transition of a synthetic episode on a one-dimensional
    state and action space. *)
Definition transition (k : nat) : Experience :=
  mkExperience [INR k] [0] 1 [INR (k + 1)] false.

(** Stand-ins for the collaborators of a [TD3Agent] on that space: an
    actor and a twin critic that echo the states, and optimisers that move
    every parameter by one. *)
Module Toy.
Definition actorForward (_ : Params) (states : Tensor) : Tensor := states.
Definition criticForward (_ : Params) (states _ : Tensor) : Tensor * Tensor :=
  (states, states).
Definition criticOptimStep (o : unit) (p : Params) (_ : ReplayBuffer.Batch)
  (_ : Tensor) : unit * Params := (o, map (map (fun w => w + 1)) p).
Definition actorOptimStep (o : unit) (p _ : Params) (_ : Tensor) : unit * Params :=
  (o, map (map (fun w => w + 1)) p).
Definition input (k : nat) : TD3Agent.StepInput :=
  TD3Agent.mkStepInput (transition k) [0; 1; 2; 3]%nat [[0]; [0]; [0]; [0]].
Definition inputs (n : nat) : list TD3Agent.StepInput := map input (seq 0 n).
End Toy.

(** ** The constants of the module as it ships *)

Module Defaults.
Definition BUFFER_SIZE : nat := Z.to_nat 100000.
Definition BATCH_SIZE : nat := 4.
Definition LEARN_EVERY : nat := 4.
Definition UPDATE_CRITIC_TARGET_STEPS : nat := 5.
Definition UPDATE_ACTOR_TARGET_STEPS : nat := 5.
Definition TRAIN_ACTOR_STEPS : nat := 5.
Definition GAMMA : R := 0.99.
Definition TAU : R := 0.001.
(** [PrioritizedReplayBuffer(random_seed, alpha=0.6)] in [TD3Agent]. *)
Definition ALPHA : R := 0.6.
End Defaults.

(** A [TD3Agent] built with these constants on the toy collaborators, all
    networks starting at zero. *)
Definition toyAgent : TD3Agent.t unit :=
  TD3Agent.init Defaults.BUFFER_SIZE Defaults.BATCH_SIZE (-1, 1) 1
    [[0]] [[0]] [[0]] [[0]] tt tt.

(** ** Sample states *)

Module Samples.

(** A plain buffer holding three transitions, sampled two at a time. *)
Definition buffer : ReplayBuffer.t :=
  {| ReplayBuffer.memBuff := [transition 0; transition 1; transition 2];
     ReplayBuffer.maxlen := 5; ReplayBuffer.batchSize := 2 |}.

(** A prioritized buffer of capacity four holding two transitions, with
    leaves [1.0] and [2.0]. *)
Definition prioritized : PrioritizedReplayBuffer.t :=
  {| PrioritizedReplayBuffer.base :=
       {| ReplayBuffer.memBuff := [transition 0; transition 1];
          ReplayBuffer.maxlen := 4; ReplayBuffer.batchSize := 2 |};
     PrioritizedReplayBuffer.alpha := 0.6;
     PrioritizedReplayBuffer.sumTree := [1; 2; 0; 0];
     PrioritizedReplayBuffer.minTree :=
       [SegmentTree.Fin 1; SegmentTree.Fin 2; SegmentTree.PosInf; SegmentTree.PosInf];
     PrioritizedReplayBuffer.maxPriority := 2;
     PrioritizedReplayBuffer.nextIdx := 2 |}.

(** A batch of two transitions. *)
Definition batch : ReplayBuffer.Batch :=
  ReplayBuffer.mkBatch [[0]; [1]] [[0]; [0]] [[1]; [1]] [[1]; [2]] [[0]; [0]].

(** Two networks of one architecture. *)
Definition targetNet : list (list R) := [[1; 2]; [3]].
Definition localNet : list (list R) := [[5; 6]; [7]].

(** The noise process of the agents: [OUNoise(1, seed)]. *)
Definition noise : OUNoise.t := OUNoise.init 1 0 0.15 0.2.

End Samples.

(** ** PrioritizedReplayBuffer: sampling by priority *)

Module PrioritizedSampling.
Import SegmentTree PrioritizedReplayBuffer.

Section WithTree.
Variable BATCH_SIZE : nat.

(** The two operations of [SumSegmentTree] that [sampleProportional]
    calls, taken as they come from the [baselines] package:
    [sum(start, end)] and [find_prefixsum_idx(prefixsum)], the latter with
    its own assertion on [prefixsum]. *)
Variable rangeSum : list R -> Z -> Z -> R.
Variable find_prefixsum_idx : list R -> R -> option nat.

(** The [mass] of round [i] of the loop, for the slice width
    [everyRangeLen] and the value [u] of [random.random()]. *)
Definition massOf (everyRangeLen u : R) (i : nat) : R :=
  u * everyRangeLen + INR i * everyRangeLen.

(** [sampleProportional()]: [probTotal / BATCH_SIZE] raises
    [ZeroDivisionError] for a batch size of zero; [draw i] is the value of
    [random.random()] in round [i]. *)
Definition sampleProportional (s : t) (draw : nat -> R) : option (list nat) :=
  let probTotal :=
    rangeSum (sumTree s) 0 (Z.of_nat (ReplayBuffer.len (base s)) - 1) in
  if (BATCH_SIZE =? 0)%nat then None
  else
    let everyRangeLen := probTotal / INR BATCH_SIZE in
    mapM (fun i => find_prefixsum_idx (sumTree s) (massOf everyRangeLen (draw i) i))
         (seq 0 BATCH_SIZE).

(** [memSample(beta)] with the draw of its indexes included. *)
Definition memSampleDrawn (s : t) (beta : R) (draw : nat -> R)
  : option (ReplayBuffer.Batch * list R * list nat) :=
  indexes ← sampleProportional s draw;
  memSample s beta indexes.

End WithTree.
End PrioritizedSampling.

(** ** TD3Agent.learn with prioritized replay: the priorities reported *)

Module TD3Prioritized.

Definition PER_EPS : R := 0.000001.

(** [torch.mul] of one row against a one-dimensional tensor, with
    broadcasting of a dimension of size one; other sizes must agree. *)
Definition row_mul (row w : list R) : option (list R) :=
  match row, w with
  | [x], _ => Some (map (fun y => x * y) w)
  | _, [y] => Some (map (fun x => x * y) row)
  | _, _ => if (length row =? length w)%nat then Some (zip_with Rmult row w) else None
  end.

(** [tdError = torch.mul(abs(Q_Targets - Q_Expected_A) + PER_EPS, weights)]
    and then [tdError[0]], which raises [IndexError] on an empty batch. *)
Definition tdErrorRow0 (Q_Targets Q_Expected_A : Tensor) (weights : list R)
  : option (list R) :=
  let magnitude :=
    t_map (fun d => Rabs d + PER_EPS) (t_zip Rminus Q_Targets Q_Expected_A) in
  tdError ← mapM (fun row => row_mul row weights) magnitude;
  tdError !! 0%nat.

(** [self.replayMem.updatePriorities(batchIdx, tdError[0])] *)
Definition reportPriorities (s : PrioritizedReplayBuffer.t)
  (Q_Targets Q_Expected_A : Tensor) (weights : list R) (batchIdx : list nat)
  : option PrioritizedReplayBuffer.t :=
  priorities ← tdErrorRow0 Q_Targets Q_Expected_A weights;
  PrioritizedReplayBuffer.updatePriorities s (map Z.of_nat batchIdx) priorities.

End TD3Prioritized.

(** ** More specification vocabulary for the prioritized buffer *)

Module PrioritySpecMore.
Import PrioritizedReplayBuffer.


End PrioritySpecMore.

(** ** Runs of the noise sources *)

Module NoiseRuns.

(** [sample()] called once per element of [draws], each element giving the
    values of [random.random()] of its call. *)
Fixpoint sampleMany (n : OUNoise.t) (draws : list (nat -> R)) : OUNoise.t :=
  match draws with
  | [] => n
  | draw :: rest => sampleMany (snd (OUNoise.sample n draw)) rest
  end.




(** The value [noiseRatioUpdate] computes when [self.step] is [k]. *)
Definition decayed (s : NormalNoiseDecayStrategy.t) (k : nat) : R :=
  np_clip
    ((NormalNoiseDecayStrategy.initNoiseRatio s - NormalNoiseDecayStrategy.minNoiseRatio s)
       * (1 - INR k / INR (NormalNoiseDecayStrategy.decaySteps s))
     + NormalNoiseDecayStrategy.minNoiseRatio s)
    (NormalNoiseDecayStrategy.minNoiseRatio s)
    (NormalNoiseDecayStrategy.initNoiseRatio s).

(** The entries of a returned array. *)
Definition entries (a : NormalNoiseDecayStrategy.ndarray) : list R :=
  match a with
  | NormalNoiseDecayStrategy.Array0 x => [x]
  | NormalNoiseDecayStrategy.Array1 xs => xs
  end.

(** Every entry of the state of the process lies between its mean and the
    mean plus [sigma / theta]. *)
Definition confined (n : OUNoise.t) : Prop :=
  Forall2 (fun x m => m <= x <= m + OUNoise.sigma n / OUNoise.theta n)
    (OUNoise.state n) (OUNoise.mu n).

End NoiseRuns.

(** ** TD3Agent.act *)

Module TD3Act.
Import NormalNoiseDecayStrategy.

Section WithConstants.
Variable BUFFER_SIZE : nat.

(** [act(state, addNoise)].  [output] is the row
    [self.QNet_Actor_Local(state)] evaluates to.  The method reads the
    length of [self.replayMem] and calls [self.actionStrategy], whose state
    after the call is returned beside the action.  [addNoise] is accepted
    and never looked at. *)
Definition act (replayMem : ReplayBuffer.t) (actionStrategy : t)
  (output : list R) (addNoise : bool) (normal : nat -> R) : option (ndarray * t) :=
  let minSamples := (BUFFER_SIZE * 5)%nat in
  let shouldUseMaxExploration := (ReplayBuffer.len replayMem <? minSamples)%nat in
  '(actionVals, actionStrategy') ←
    selectAction actionStrategy output shouldUseMaxExploration false normal;
  Some (nd_map (fun x => np_clip x (-1) 1) actionVals, actionStrategy').

End WithConstants.
End TD3Act.

(** ** Agent (the DDPG agent) *)

Module Agent.

(** [actionVals += sample] on the array [actionVals] of shape
    [(1, actionSize)], of which [row] is the one row: the in-place addition
    needs the noise to have [actionSize] entries, or one entry, which is
    then added to every action; another size raises [ValueError]. *)
Definition iadd (row sample : list R) : option (list R) :=
  if (length sample =? length row)%nat then Some (zip_with Rplus row sample)
  else match sample with
       | [x] => Some (map (fun v => v + x) row)
       | _ => None
       end.

Section WithCollaborators.

Variables BUFFER_SIZE BATCH_SIZE LEARN_EVERY : nat.
Variables GAMMA TAU : R.

(** External collaborators, as for [TD3Agent]; the critic has one head. *)
Variable Optimizer : Type.
Variable actorForward : Params -> Tensor -> Tensor.
Variable criticForward : Params -> Tensor -> Tensor -> Tensor.
Variable criticOptimStep :
  Optimizer -> Params -> ReplayBuffer.Batch -> Tensor -> Optimizer * Params.
Variable actorOptimStep :
  Optimizer -> Params -> Params -> Tensor -> Optimizer * Params.

Record t : Type := mk {
  actionSize : nat;
  stepNum : nat;
  QNet_Actor_Local : Params;
  QNet_Actor_Target : Params;
  QNet_Critic_Local : Params;
  QNet_Critic_Target : Params;
  Optim_Actor : Optimizer;
  Optim_Critic : Optimizer;
  noise : OUNoise.t;
  replayMem : ReplayBuffer.t
}.

(** [__init__] with [fileName = None]: the four networks and two
    optimisers are built by the collaborators and passed in. *)
Definition init (size : nat)
  (actorLocal actorTarget criticLocal criticTarget : Params)
  (optA optC : Optimizer) : t :=
  {| actionSize := size; stepNum := 0;
     QNet_Actor_Local := actorLocal; QNet_Actor_Target := actorTarget;
     QNet_Critic_Local := criticLocal; QNet_Critic_Target := criticTarget;
     Optim_Actor := optA; Optim_Critic := optC;
     noise := OUNoise.init size 0 0.15 0.2;
     replayMem := ReplayBuffer.init BUFFER_SIZE BATCH_SIZE |}.

(** [Q_Targets] of [learn]. *)
Definition bellmanTargets (a : t) (experiences : ReplayBuffer.Batch) : Tensor :=
  let actionsNext := actorForward (QNet_Actor_Target a) (ReplayBuffer.nextStates experiences) in
  let Q_Targets_Next :=
    criticForward (QNet_Critic_Target a) (ReplayBuffer.nextStates experiences) actionsNext in
  t_zip Rplus (ReplayBuffer.rewards experiences)
    (t_zip Rmult (t_map (fun q => GAMMA * q) Q_Targets_Next)
                 (t_map (fun d => 1 - d) (ReplayBuffer.dones experiences))).

(** [learn(experiences)] *)
Definition learn (a : t) (experiences : ReplayBuffer.Batch) : t :=
  let Q_Targets := bellmanTargets a experiences in
  let '(optC, criticLocal) :=
    criticOptimStep (Optim_Critic a) (QNet_Critic_Local a) experiences Q_Targets in
  let '(optA, actorLocal) :=
    actorOptimStep (Optim_Actor a) (QNet_Actor_Local a) criticLocal
      (ReplayBuffer.states experiences) in
  let criticTarget := fst (softUpdate TAU (QNet_Critic_Target a) criticLocal) in
  let actorTarget := fst (softUpdate TAU (QNet_Actor_Target a) actorLocal) in
  {| actionSize := actionSize a; stepNum := stepNum a;
     QNet_Actor_Local := actorLocal; QNet_Actor_Target := actorTarget;
     QNet_Critic_Local := criticLocal; QNet_Critic_Target := criticTarget;
     Optim_Actor := optA; Optim_Critic := optC;
     noise := noise a; replayMem := replayMem a |}.

(** [step(state, action, reward, next_state, done)]; [picks] are the draws
    of [memSample], used only when the call reaches it. *)
Definition step (a : t) (st ac : list R) (rw : R) (ns : list R) (dn : bool)
  (picks : list nat) : option t :=
  let mem := ReplayBuffer.addMem (replayMem a) st ac rw ns dn in
  stepNum' ← pymod (stepNum a + 1) LEARN_EVERY;
  let a1 := {| actionSize := actionSize a; stepNum := stepNum';
               QNet_Actor_Local := QNet_Actor_Local a;
               QNet_Actor_Target := QNet_Actor_Target a;
               QNet_Critic_Local := QNet_Critic_Local a;
               QNet_Critic_Target := QNet_Critic_Target a;
               Optim_Actor := Optim_Actor a; Optim_Critic := Optim_Critic a;
               noise := noise a; replayMem := mem |} in
  if (stepNum' =? 0)%nat then
    if (BATCH_SIZE <? ReplayBuffer.len mem)%nat then
      '(experienceSample, _) ← ReplayBuffer.memSample mem picks;
      Some (learn a1 experienceSample)
    else Some a1
  else Some a1.

(** [act(state, addNoise)].  [actionVals] is the one row of
    [self.QNet_Actor_Local(state)] and [draw] gives the values of
    [random.random()] inside [self.noise.sample()]; the result is the one
    row of the clipped array and the agent after the call. *)
Definition act (a : t) (actionVals : list R) (addNoise : bool) (draw : nat -> R)
  : option (list R * t) :=
  if addNoise then
    let '(sample, noise') := OUNoise.sample (noise a) draw in
    noisy ← iadd actionVals sample;
    Some (map (fun x => np_clip x (-1) 1) noisy,
          {| actionSize := actionSize a; stepNum := stepNum a;
             QNet_Actor_Local := QNet_Actor_Local a;
             QNet_Actor_Target := QNet_Actor_Target a;
             QNet_Critic_Local := QNet_Critic_Local a;
             QNet_Critic_Target := QNet_Critic_Target a;
             Optim_Actor := Optim_Actor a; Optim_Critic := Optim_Critic a;
             noise := noise'; replayMem := replayMem a |})
  else Some (map (fun x => np_clip x (-1) 1) actionVals, a).

(** One environment transition together with the draws its [step] may use. *)
Record StepInput : Type := mkStepInput {
  in_exp : Experience;
  in_picks : list nat
}.

Definition stepWith (a : t) (i : StepInput) : option t :=
  step a (state (in_exp i)) (action (in_exp i)) (reward (in_exp i))
       (nextState (in_exp i)) (done (in_exp i)) (in_picks i).

Fixpoint steps (a : t) (inputs : list StepInput) : option t :=
  match inputs with
  | [] => Some a
  | i :: rest => a' ← stepWith a i; steps a' rest
  end.

(** A sequence of [act] calls with noise on one agent, each element of
    [calls] giving the network output and the draws of its call. *)
Fixpoint acts (a : t) (calls : list (list R * (nat -> R))) : option t :=
  match calls with
  | [] => Some a
  | c :: rest => r ← act a (fst c) true (snd c); acts (snd r) rest
  end.

End WithCollaborators.

Arguments actionSize {Optimizer} _.
Arguments stepNum {Optimizer} _.
Arguments QNet_Actor_Local {Optimizer} _.
Arguments QNet_Actor_Target {Optimizer} _.
Arguments QNet_Critic_Local {Optimizer} _.
Arguments QNet_Critic_Target {Optimizer} _.
Arguments Optim_Actor {Optimizer} _.
Arguments Optim_Critic {Optimizer} _.
Arguments noise {Optimizer} _.
Arguments replayMem {Optimizer} _.
Arguments act {Optimizer} _ _ _ _.
Arguments acts {Optimizer} _ _.

End Agent.

(** ** Repeated Polyak averaging *)

(** [softUpdate(targetModel, localModel)] called [n] times in a row on the
    same pair of networks. *)
Fixpoint softUpdates (TAU : R) (n : nat) (targetModel localModel : Params) : Params :=
  match n with
  | O => targetModel
  | S n' => softUpdates TAU n' (fst (softUpdate TAU targetModel localModel)) localModel
  end.

(** * The networks of networkModel.py

    A batch is the list of its rows.  The weights and biases of a layer are
    whatever [nn.Linear] and [resetParameters] drew; they stay arbitrary
    here and only the sizes passed to [nn.Linear] are computed. *)

Module Networks.

(** [nn.Linear(in_features, out_features)]: [weight] has [out_features]
    rows of [in_features] entries, [bias] has [out_features] entries. *)
Record Linear : Type := mkLinear {
  in_features : nat;
  out_features : nat;
  weight : list (list R);
  bias : list R
}.

Definition dot (x w : list R) : R := foldr Rplus 0 (zip_with Rmult x w).

(** [layer(x)] on one row, [x @ weight.T + bias]; [RuntimeError] when the
    row does not have [in_features] entries. *)
Definition linear_row (l : Linear) (x : list R) : option (list R) :=
  if (length x =? in_features l)%nat
  then Some (zip_with Rplus (map (dot x) (weight l)) (bias l))
  else None.

Definition linear (l : Linear) (x : Tensor) : option Tensor :=
  mapM (linear_row l) x.

(** [F.relu] *)
Definition relu (x : R) : R := Rmax 0 x.

(** [torch.cat((x, u), dim=1)]: both need the same number of rows. *)
Definition cat1 (x u : Tensor) : option Tensor :=
  if (length x =? length u)%nat then Some (zip_with app x u) else None.

(** [for layer in layers: x = F.relu(layer(x))] *)
Fixpoint relu_layers (layers : list Linear) (x : Tensor) : option Tensor :=
  match layers with
  | [] => Some x
  | l :: rest => y ← linear l x; relu_layers rest (t_map relu y)
  end.

(** [zip(hiddenLayers[:-1], hiddenLayers[1:])] *)
Definition layerSizes (hiddenLayers : list nat) : list (nat * nat) :=
  zip (take (length hiddenLayers - 1) hiddenLayers) (drop 1 hiddenLayers).

(** The layer [l] was made by [nn.Linear(sizes.1, sizes.2)]. *)
Definition made_by (sizes : nat * nat) (l : Linear) : Prop :=
  in_features l = fst sizes /\ out_features l = snd sizes
  /\ length (weight l) = snd sizes
  /\ Forall (fun row => length row = fst sizes) (weight l)
  /\ length (bias l) = snd sizes.

(** Every row of the batch has [w] entries. *)
Definition width (w : nat) (x : Tensor) : Prop := Forall (fun row => length row = w) x.

Module Actor.

Record t : Type := mk {
  stateSize : nat;
  actionSize : nat;
  env_min : R;
  env_max : R;
  nn_min : R;
  nn_max : R;
  hiddenLayers : list nat;
  NeuralNet : list Linear;
  output : Linear
}.

(** [buildNetwork()]: the sizes given to [nn.Linear] for the layers of
    [NeuralNet], in order, and for [output].  [hiddenLayers[0]] and
    [hiddenLayers[-1]] raise [IndexError] on an empty list. *)
Definition buildNetwork (stateSize actionSize : nat) (hiddenLayers : list nat)
  : option (list (nat * nat) * (nat * nat)) :=
  h0 ← hiddenLayers !! 0%nat;
  let NeuralNet := (stateSize, h0) :: layerSizes hiddenLayers in
  hl ← last hiddenLayers;
  Some (NeuralNet, (hl, actionSize)).

(** [__init__(actionLims, state_size, action_size, seed, hiddenArray)],
    given the layers [buildNetwork] and [resetParameters] produce.
    [nn_min] and [nn_max] are [tanh] of minus and plus infinity. *)
Definition init (actionLims : R * R) (state_size action_size : nat)
  (hiddenArray : list nat) (layers : list Linear) (out : Linear) : t :=
  {| stateSize := state_size; actionSize := action_size;
     env_min := fst actionLims; env_max := snd actionLims;
     nn_min := -1; nn_max := 1;
     hiddenLayers := hiddenArray; NeuralNet := layers; output := out |}.

(** [rescaleAction(inputVal)] on one entry (it also prints its input). *)
Definition rescaleAction (a : t) (inputVal : R) : R :=
  (inputVal - nn_min a) * (env_max a - env_min a) / (nn_max a - nn_min a)
  + env_min a.

(** [forward(state)] on a batch tensor, which [_format] returns as it is. *)
Definition forward (a : t) (state : Tensor) : option Tensor :=
  x ← relu_layers (NeuralNet a) state;
  y ← linear (output a) x;
  Some (t_map tanh y).

(** The actor's layers are those its [buildNetwork] makes. *)
Definition built (a : t) : Prop :=
  exists sizes outSizes,
    buildNetwork (stateSize a) (actionSize a) (hiddenLayers a) = Some (sizes, outSizes)
    /\ Forall2 made_by sizes (NeuralNet a)
    /\ made_by outSizes (output a).

End Actor.

Module Critic.

Record t : Type := mk {
  stateSize : nat;
  actionSize : nat;
  hiddenLayers : list nat;
  NeuralNet : list Linear;
  output : Linear
}.

(** [buildNetwork()]: the second layer, when there is one, is widened by
    [actionSize]. *)
Definition buildNetwork (stateSize actionSize : nat) (hiddenLayers : list nat)
  : option (list (nat * nat) * (nat * nat)) :=
  h0 ← hiddenLayers !! 0%nat;
  let sizes := layerSizes hiddenLayers in
  let rest :=
    imap (fun idx sz => if (idx =? 0)%nat then (fst sz + actionSize, snd sz)%nat
                        else sz) sizes in
  hl ← last hiddenLayers;
  Some ((stateSize, h0) :: rest, (hl, 1%nat)).

(** The rounds of the loop of [forward] from [layerIdx >= 1] on. *)
Fixpoint forward_from (layerIdx : nat) (layers : list Linear) (x action : Tensor)
  : option Tensor :=
  match layers with
  | [] => Some x
  | l :: rest =>
      x1 ← (if (layerIdx =? 1)%nat then cat1 x action else Some x);
      y ← linear l x1;
      forward_from (S layerIdx) rest (t_map relu y) action
  end.

(** [forward(state, action)]; with no layer at all [x] would be unbound. *)
Definition forward (c : t) (state action : Tensor) : option Tensor :=
  match NeuralNet c with
  | [] => None
  | l0 :: rest =>
      y ← linear l0 state;
      x ← forward_from 1 rest (t_map relu y) action;
      linear (output c) x
  end.

Definition built (c : t) : Prop :=
  exists sizes outSizes,
    buildNetwork (stateSize c) (actionSize c) (hiddenLayers c) = Some (sizes, outSizes)
    /\ Forall2 made_by sizes (NeuralNet c)
    /\ made_by outSizes (output c).

End Critic.

Module TD3Critic.

Record t : Type := mk {
  stateSize : nat;
  actionSize : nat;
  hiddenLayers : list nat;
  NeuralNetA : list Linear;
  NeuralNetB : list Linear;
  outputA : Linear;
  outputB : Linear
}.

(** [buildNetworks()]: the sizes of one twin; both are built alike. *)
Definition buildNetworks (stateSize actionSize : nat) (hiddenLayers : list nat)
  : option (list (nat * nat) * (nat * nat)) :=
  h0 ← hiddenLayers !! 0%nat;
  let first := ((stateSize + actionSize)%nat, h0) in
  let rest :=
    omap (fun i => h1 ← hiddenLayers !! i; h2 ← hiddenLayers !! (i + 1)%nat;
                   Some (h1, h2))
         (seq 0 (length hiddenLayers - 1)) in
  hl ← last hiddenLayers;
  Some (first :: rest, (hl, 1%nat)).

(** [forward(state, action)] *)
Definition forward (c : t) (state action : Tensor) : option (Tensor * Tensor) :=
  x_a ← cat1 state action;
  x_b ← cat1 state action;
  x_a ← relu_layers (NeuralNetA c) x_a;
  x_b ← relu_layers (NeuralNetB c) x_b;
  x_a ← linear (outputA c) x_a;
  x_b ← linear (outputB c) x_b;
  Some (x_a, x_b).

(** [forwardNetA(state, action)] on tensors, which [_format] returns as
    they are. *)
Definition forwardNetA (c : t) (state action : Tensor) : option Tensor :=
  x_a ← cat1 state action;
  x_a ← relu_layers (NeuralNetA c) x_a;
  linear (outputA c) x_a.

Definition built (c : t) : Prop :=
  exists sizes outSizes,
    buildNetworks (stateSize c) (actionSize c) (hiddenLayers c) = Some (sizes, outSizes)
    /\ Forall2 made_by sizes (NeuralNetA c)
    /\ Forall2 made_by sizes (NeuralNetB c)
    /\ made_by outSizes (outputA c)
    /\ made_by outSizes (outputB c).

End TD3Critic.

(** The sizes [sizes] lead from rows of [w] entries to rows of [w']
    entries: each layer takes what the one before it gives. *)
Fixpoint chained (w : nat) (sizes : list (nat * nat)) (w' : nat) : Prop :=
  match sizes with
  | [] => w = w'
  | sz :: rest => fst sz = w /\ chained (snd sz) rest w'
  end.

End Networks.

(** ** Sample networks: one state entry, one action entry, two hidden units *)

Module NetSamples.
Import Networks.

Definition hidden : Linear := mkLinear 1 2 [[1]; [-1]] [0; 0].
Definition widened : Linear := mkLinear 2 2 [[1; 0]; [0; 1]] [0; 0].
Definition head2 : Linear := mkLinear 2 1 [[1; 1]] [0].

Definition actor : Actor.t := Actor.init (-2, 2) 1 1 [2%nat] [hidden] head2.

Definition critic : Critic.t :=
  {| Critic.stateSize := 1; Critic.actionSize := 1; Critic.hiddenLayers := [2%nat];
     Critic.NeuralNet := [hidden]; Critic.output := head2 |}.

Definition twin : TD3Critic.t :=
  {| TD3Critic.stateSize := 1; TD3Critic.actionSize := 1;
     TD3Critic.hiddenLayers := [2%nat];
     TD3Critic.NeuralNetA := [widened]; TD3Critic.NeuralNetB := [widened];
     TD3Critic.outputA := head2; TD3Critic.outputB := head2 |}.

End NetSamples.

(** ** The importance-sampling schedule of a [TD3Agent] with [usePER = True] *)

Module TD3Schedule.

Definition BETA_INITIAL : R := 0.4.
Definition BETA_FINAL : R := 1.0.

(** [np.linspace(start, stop, num)]: [num] evenly spaced values from
    [start] to [stop], ends included. *)
Definition np_linspace (start stop : R) (num : nat) : list R :=
  map (fun i => start + INR i * ((stop - start) / INR (num - 1))) (seq 0 num).

(** [self.betaSchedule] as [__init__] sets it. *)
Definition betaSchedule (totalTimeSteps : nat) : list R :=
  np_linspace BETA_INITIAL BETA_FINAL (totalTimeSteps + 1).

(** [self.betaSchedule[self.stepNum]] in [step]; [IndexError] beyond the
    end of the schedule. *)
Definition betaAt (totalTimeSteps stepNum : nat) : option R :=
  betaSchedule totalTimeSteps !! stepNum.

End TD3Schedule.

(** * Theorems *)

(** ** The bounded deque keeps a sliding window *)

Module DequeFacts.
Section DequeFacts.
Context {A : Type}.
Implicit Types (d hist xs : list A) (x : A).

Lemma length_append maxlen d x :
  (length d <= maxlen)%nat -> (length (Deque.append maxlen d x) <= maxlen)%nat.
Proof.
  intros Hd. unfold Deque.append.
  destruct (Nat.ltb_spec (length d) maxlen).
  - rewrite length_app. simpl. lia.
  - rewrite length_drop, length_app. simpl. lia.
Qed.

Lemma append_window maxlen hist x :
  Deque.append maxlen (drop (length hist - maxlen) hist) x
  = drop (length (hist ++ [x]) - maxlen) (hist ++ [x]).
Proof.
  unfold Deque.append. rewrite length_drop, length_app. simpl.
  destruct (Nat.ltb_spec (length hist - (length hist - maxlen)) maxlen) as [Hlt|Hge].
  - assert (length hist < maxlen)%nat by lia.
    replace (length hist - maxlen)%nat with 0%nat by lia.
    replace (length hist + 1 - maxlen)%nat with 0%nat by lia.
    reflexivity.
  - assert (maxlen <= length hist)%nat by lia.
    rewrite <- drop_app_le by lia.
    rewrite drop_drop. f_equal. lia.
Qed.

Lemma extend_window maxlen hist xs :
  Deque.extend maxlen (drop (length hist - maxlen) hist) xs
  = drop (length (hist ++ xs) - maxlen) (hist ++ xs).
Proof.
  revert hist. induction xs as [|x xs IH]; intros hist.
  - rewrite app_nil_r. reflexivity.
  - unfold Deque.extend in *. simpl. rewrite append_window, IH.
    rewrite <- app_assoc. reflexivity.
Qed.

Lemma extend_empty maxlen xs :
  Deque.extend maxlen [] xs = drop (length xs - maxlen) xs.
Proof. apply (extend_window maxlen [] xs). Qed.

End DequeFacts.
End DequeFacts.

(** ** ReplayBuffer *)

Module ReplayBufferFacts.
Import ReplayBuffer.

Lemma addExp_eq b e :
  addExp b e = {| memBuff := Deque.append (maxlen b) (memBuff b) e;
                  maxlen := maxlen b; batchSize := batchSize b |}.
Proof. destruct e. reflexivity. Qed.

Lemma addAll_fields b es :
  memBuff (addAll b es) = Deque.extend (maxlen b) (memBuff b) es
  /\ maxlen (addAll b es) = maxlen b
  /\ batchSize (addAll b es) = batchSize b.
Proof.
  revert b. induction es as [|e es IH]; intros b; [done|].
  unfold addAll, Deque.extend in *. simpl.
  destruct (IH (addExp b e)) as (H1 & H2 & H3).
  rewrite H1, H2, H3, addExp_eq. done.
Qed.

Lemma addAll_snoc b es e : addAll b (es ++ [e]) = addExp (addAll b es) e.
Proof. unfold addAll. rewrite foldl_app. reflexivity. Qed.

(** C4.  Starting from a fresh buffer, whatever sequence [es] of
    transitions is added with [addMem]: the length never exceeds
    [BUFFER_SIZE]; the buffer holds the last [BUFFER_SIZE] transitions of
    [es] in insertion order (all of [es] while it is shorter), so after
    more than [BUFFER_SIZE] insertions it holds exactly the [BUFFER_SIZE]
    most recent ones; and an insertion into a full buffer drops the oldest
    entry and appends the new one. *)
Theorem C4_ring_eviction (BUFFER_SIZE BATCH_SIZE : nat) (es : list Experience) :
  let b := addAll (init BUFFER_SIZE BATCH_SIZE) es in
  (len b <= BUFFER_SIZE)%nat
  /\ memBuff b = drop (length es - BUFFER_SIZE) es
  /\ ((BUFFER_SIZE < length es)%nat ->
      len b = BUFFER_SIZE /\ es = take (length es - BUFFER_SIZE) es ++ memBuff b)
  /\ (forall e, len b = BUFFER_SIZE ->
        memBuff (addExp b e) = drop 1 (memBuff b ++ [e])).
Proof.
  intros b.
  destruct (addAll_fields (init BUFFER_SIZE BATCH_SIZE) es) as (Hm & Hl & _).
  fold b in Hm, Hl. simpl in Hm, Hl.
  rewrite DequeFacts.extend_empty in Hm.
  assert (Hlen : len b = Nat.min (length es) BUFFER_SIZE).
  { unfold len. rewrite Hm, length_drop. lia. }
  repeat split.
  - lia.
  - exact Hm.
  - lia.
  - rewrite Hm. symmetry. apply take_drop.
  - intros e Hfull. rewrite addExp_eq. simpl. unfold Deque.append.
    rewrite Hl. unfold len in Hfull. rewrite Hfull, Nat.ltb_irrefl. reflexivity.
Qed.


(** *** Sampling *)

Lemma mapM_lookup_total {A} (l : list A) (picks : list nat) :
  Forall (fun i => (i < length l)%nat) picks ->
  exists chosen,
    mapM (fun i => l !! i) picks = Some chosen
    /\ length chosen = length picks
    /\ forall r i, picks !! r = Some i ->
         exists e, l !! i = Some e /\ chosen !! r = Some e.
Proof.
  induction 1 as [|i picks Hi _ IH].
  - exists []. split; [done|]. split; [done|]. intros r i Hr. done.
  - destruct IH as (chosen & Hm & Hlen & Hrows).
    destruct (lookup_lt_is_Some_2 l i Hi) as [e He].
    exists (e :: chosen). split; [|split].
    + cbn. rewrite He. cbn. rewrite Hm. reflexivity.
    + simpl. lia.
    + intros [|r] j Hr; simpl in Hr.
      * inversion Hr; subst. exists e. done.
      * apply Hrows. exact Hr.
Qed.

Lemma same_width_const (rows : list (list R)) (w : nat) :
  Forall (fun r => length r = w) rows -> same_width rows = true.
Proof.
  destruct 1 as [|r rows Hr Hrows]; [done|].
  simpl. apply forallb_forall. intros r' Hin.
  rewrite Forall_forall in Hrows.
  apply Nat.eqb_eq. rewrite Hr. apply Hrows. apply list_elem_of_In. exact Hin.
Qed.

Lemma vstack_const (rows : list (list R)) (w : nat) :
  rows <> [] -> Forall (fun r => length r = w) rows -> vstack rows = Some rows.
Proof.
  intros Hne Hw. unfold vstack. rewrite (same_width_const rows w Hw).
  destruct rows; done.
Qed.

(** C5.  On a buffer whose transitions have the shapes of the data model
    and whose [batchSize] is positive, [memSample] raises exactly when the
    buffer holds fewer than [batchSize] transitions.  Otherwise, for the
    [batchSize] pairwise distinct positions [random.sample] draws, it
    returns five arrays of [batchSize] rows each, row [r] of every array
    being the corresponding field of the one stored transition at the
    [r]-th drawn position, and the buffer is returned as it was.  (That the
    draw is uniform is a property of [random.sample], not stated here.) *)
Theorem C5_memSample (stateSize actionSize : nat) (b : t) (picks : list nat) :
  well_shaped stateSize actionSize b ->
  (0 < batchSize b)%nat ->
  ((batchSize b <= len b)%nat -> sample_ok (len b) (batchSize b) picks) ->
  (memSample b picks = None <-> (len b < batchSize b)%nat)
  /\ ((batchSize b <= len b)%nat ->
      exists batch,
        memSample b picks = Some (batch, b)
        /\ length (states batch) = batchSize b
        /\ length (actions batch) = batchSize b
        /\ length (rewards batch) = batchSize b
        /\ length (nextStates batch) = batchSize b
        /\ length (dones batch) = batchSize b
        /\ (forall r, (r < batchSize b)%nat ->
              exists i e,
                picks !! r = Some i /\ memBuff b !! i = Some e
                /\ states batch !! r = Some (state e)
                /\ actions batch !! r = Some (action e)
                /\ rewards batch !! r = Some [reward e]
                /\ nextStates batch !! r = Some (nextState e)
                /\ dones batch !! r = Some [bool_to_float (done e)])
        /\ (forall r1 r2 i,
              picks !! r1 = Some i -> picks !! r2 = Some i -> r1 = r2)).
Proof.
  intros Hshape Hk Hpicks.
  assert (Hfail : (len b < batchSize b)%nat -> memSample b picks = None).
  { intros Hlt. unfold memSample, random_sample. fold (len b).
    apply Nat.ltb_lt in Hlt. rewrite Hlt. reflexivity. }
  assert (Hsucc : (batchSize b <= len b)%nat ->
      exists batch,
        memSample b picks = Some (batch, b)
        /\ length (states batch) = batchSize b
        /\ length (actions batch) = batchSize b
        /\ length (rewards batch) = batchSize b
        /\ length (nextStates batch) = batchSize b
        /\ length (dones batch) = batchSize b
        /\ (forall r, (r < batchSize b)%nat ->
              exists i e,
                picks !! r = Some i /\ memBuff b !! i = Some e
                /\ states batch !! r = Some (state e)
                /\ actions batch !! r = Some (action e)
                /\ rewards batch !! r = Some [reward e]
                /\ nextStates batch !! r = Some (nextState e)
                /\ dones batch !! r = Some [bool_to_float (done e)])
        /\ (forall r1 r2 i,
              picks !! r1 = Some i -> picks !! r2 = Some i -> r1 = r2)).
  { intros Hge. destruct (Hpicks Hge) as (Hlen & Hnd & Hrange).
    destruct (mapM_lookup_total (memBuff b) picks Hrange)
      as (chosen & Hm & Hclen & Hrows).
    assert (Hstored : Forall (fun e => e ∈ memBuff b) chosen).
    { apply Forall_lookup_2. intros r e Hr.
      destruct (lookup_lt_is_Some_2 picks r) as [i Hi].
      { rewrite <- Hclen. eapply lookup_lt_Some; eauto. }
      destruct (Hrows r i Hi) as (e' & He' & Hr').
      rewrite Hr in Hr'. inversion Hr'; subst.
      eapply list_elem_of_lookup_2; eauto. }
    assert (Hcs : Forall (fun e => length (state e) = stateSize
                     /\ length (action e) = actionSize
                     /\ length (nextState e) = stateSize) chosen).
    { unfold well_shaped in Hshape. rewrite Forall_forall in Hshape.
      eapply Forall_impl; [exact Hstored|]. intros e He. apply Hshape, He. }
    assert (Hne : chosen <> []).
    { intros ->. simpl in Hclen. lia. }
    assert (Hmapne : forall {B} (f : Experience -> B), map f chosen <> []).
    { intros B f Hnil. apply Hne. destruct chosen; [done|discriminate]. }
    exists (mkBatch (map state chosen) (map action chosen)
              (map (fun mem => scalar_row (reward mem)) chosen)
              (map nextState chosen)
              (map (fun mem => scalar_row (bool_to_float (done mem))) chosen)).
    split.
    { unfold memSample, random_sample. fold (len b).
      assert (Hnlt : (len b <? batchSize b)%nat = false) by (apply Nat.ltb_ge; lia).
      rewrite Hnlt, Hm. cbn.
      rewrite (vstack_const (map state chosen) stateSize); [|apply Hmapne|].
      2:{ apply Forall_map. eapply Forall_impl; [exact Hcs|]. cbn. tauto. }
      cbn.
      rewrite (vstack_const (map action chosen) actionSize); [|apply Hmapne|].
      2:{ apply Forall_map. eapply Forall_impl; [exact Hcs|]. cbn. tauto. }
      cbn.
      rewrite (vstack_const (map _ chosen) 1); [|apply Hmapne|].
      2:{ apply Forall_map. apply Forall_true. done. }
      cbn.
      rewrite (vstack_const (map nextState chosen) stateSize); [|apply Hmapne|].
      2:{ apply Forall_map. eapply Forall_impl; [exact Hcs|]. cbn. tauto. }
      cbn.
      rewrite (vstack_const (map _ chosen) 1); [|apply Hmapne|].
      2:{ apply Forall_map. apply Forall_true. done. }
      reflexivity. }
    cbn. rewrite !length_map.
    repeat (split; [lia|]).
    split.
    - intros r Hr.
      destruct (lookup_lt_is_Some_2 picks r) as [i Hi]; [lia|].
      destruct (Hrows r i Hi) as (e & He & Hre).
      exists i, e. rewrite !list_lookup_fmap, Hre. done.
    - intros r1 r2 i H1 H2. eapply NoDup_lookup; eauto. }
  split; [split|exact Hsucc].
  - intros Hnone. destruct (Nat.lt_ge_cases (len b) (batchSize b)) as [|Hge]; [done|].
    destruct (Hsucc Hge) as (batch & Hsome & _). congruence.
  - exact Hfail.
Qed.

End ReplayBufferFacts.

(** ** PrioritizedReplayBuffer: priority updates *)

Module PriorityFacts.
Import SegmentTree PrioritizedReplayBuffer PrioritySpec.

Lemma setitem_Some {A} (tree : list A) idx val :
  (idx < length tree)%nat -> setitem tree idx val = Some (<[idx := val]> tree).
Proof.
  intros H. unfold setitem. apply Nat.ltb_lt in H. rewrite H. reflexivity.
Qed.

Lemma updateOne_spec s idx p :
  tree_covers s ->
  match updateOne s idx p with
  | Some s' =>
      0 < p /\ (0 <= idx < Z.of_nat (ReplayBuffer.len (base s)))%Z
      /\ s' = {| base := base s; alpha := alpha s;
                 sumTree := <[Z.to_nat idx := fpow p (alpha s)]> (sumTree s);
                 minTree := <[Z.to_nat idx := Fin (fpow p (alpha s))]> (minTree s);
                 maxPriority := Rmax (maxPriority s) p;
                 nextIdx := nextIdx s |}
  | None => bad_pair s (idx, p)
  end.
Proof.
  intros [Hs Hm]. unfold updateOne, bad_pair. simpl.
  destruct (Rlt_dec 0 p) as [Hp|Hp]; [|left; lra].
  destruct (Z.leb_spec 0 idx) as [H0|H0]; simpl; [|right; left; lia].
  destruct (Z.ltb_spec idx (Z.of_nat (ReplayBuffer.len (base s)))) as [H1|H1];
    [|right; right; lia].
  rewrite !setitem_Some by lia. cbn. repeat split; auto.
Qed.

Lemma updateOne_covers s idx p s' :
  tree_covers s -> updateOne s idx p = Some s' -> tree_covers s'.
Proof.
  intros Hc H. pose proof (updateOne_spec s idx p Hc) as Hs. rewrite H in Hs.
  destruct Hs as (_ & _ & ->). destruct Hc. split; simpl; rewrite length_insert; done.
Qed.

Lemma updateLoop_None s l :
  tree_covers s -> (updateLoop s l = None <-> Exists (bad_pair s) l).
Proof.
  revert s. induction l as [|[idx p] l IH]; intros s Hc; simpl.
  - split; [discriminate|]. intros H. inversion H.
  - pose proof (updateOne_spec s idx p Hc) as Hs.
    destruct (updateOne s idx p) as [s1|] eqn:E; cbn.
    + destruct Hs as (Hp & Hi & Hs1).
      assert (Hc1 : tree_covers s1) by (eapply updateOne_covers; eauto).
      assert (Hb : forall pr, bad_pair s1 pr <-> bad_pair s pr).
      { intros pr. unfold bad_pair. rewrite Hs1. simpl. tauto. }
      rewrite (IH s1 Hc1). rewrite Exists_cons. split.
      * intros H. right. eapply Exists_impl; [exact H|]. intros pr. apply Hb.
      * intros [H|H].
        -- unfold bad_pair in H. simpl in H. destruct H as [H|[H|H]]; [lra|lia|lia].
        -- eapply Exists_impl; [exact H|]. intros pr. apply Hb.
    + split; [|done]. intros _. apply Exists_cons_hd. exact Hs.
Qed.

Lemma updateLoop_frame s l s' :
  tree_covers s -> updateLoop s l = Some s' ->
  base s' = base s /\ alpha s' = alpha s /\ nextIdx s' = nextIdx s
  /\ maxPriority s' = foldl Rmax (maxPriority s) (map snd l)
  /\ length (sumTree s') = length (sumTree s)
  /\ length (minTree s') = length (minTree s)
  /\ tree_covers s'.
Proof.
  revert s. induction l as [|[idx p] l IH]; intros s Hc H; simpl in H.
  - inversion H; subst. split_and!; done.
  - pose proof (updateOne_spec s idx p Hc) as Hs.
    destruct (updateOne s idx p) as [s1|] eqn:E; [|discriminate]. cbn in H.
    destruct Hs as (Hp & Hi & Hs1).
    assert (Hc1 : tree_covers s1) by (eapply updateOne_covers; eauto).
    destruct (IH s1 Hc1 H) as (Hb & Ha & Hn & Hmx & Hl1 & Hl2 & Hc').
    rewrite Hb, Ha, Hn, Hmx, Hl1, Hl2, Hs1. simpl.
    rewrite !length_insert. split_and!; done.
Qed.

Lemma updateLoop_untouched s l s' i :
  tree_covers s -> updateLoop s l = Some s' ->
  (forall k idx p, l !! k = Some (idx, p) -> Z.to_nat idx <> i) ->
  sumTree s' !! i = sumTree s !! i /\ minTree s' !! i = minTree s !! i.
Proof.
  revert s. induction l as [|[idx p] l IH]; intros s Hc H Hno; simpl in H.
  - inversion H; subst. done.
  - pose proof (updateOne_spec s idx p Hc) as Hs.
    destruct (updateOne s idx p) as [s1|] eqn:E; [|discriminate]. cbn in H.
    destruct Hs as (Hp & Hi & Hs1).
    assert (Hc1 : tree_covers s1) by (eapply updateOne_covers; eauto).
    destruct (IH s1 Hc1 H) as [H1 H2].
    { intros k idx' p' Hk. apply (Hno (S k) idx' p'). exact Hk. }
    rewrite H1, H2, Hs1. simpl.
    assert (Z.to_nat idx <> i) by (apply (Hno 0%nat idx p); reflexivity).
    rewrite !list_lookup_insert_ne by done. done.
Qed.

Lemma updateLoop_last_write s l s' k idx p :
  tree_covers s -> updateLoop s l = Some s' ->
  l !! k = Some (idx, p) ->
  (forall k' idx' p', (k < k')%nat -> l !! k' = Some (idx', p') -> idx' <> idx) ->
  sumTree s' !! Z.to_nat idx = Some (fpow p (alpha s))
  /\ minTree s' !! Z.to_nat idx = Some (Fin (fpow p (alpha s))).
Proof.
  revert s k. induction l as [|[idx0 p0] l IH]; intros s k Hc H Hk Hlast;
    [done|]. simpl in H.
  pose proof (updateOne_spec s idx0 p0 Hc) as Hs.
  destruct (updateOne s idx0 p0) as [s1|] eqn:E; [|discriminate]. cbn in H.
  destruct Hs as (Hp & Hi & Hs1).
  assert (Hc1 : tree_covers s1) by (eapply updateOne_covers; eauto).
  destruct k as [|k]; simpl in Hk.
  - inversion Hk; subst idx0 p0.
    assert (Hnone : updateLoop s1 l = None -> False) by congruence.
    destruct (updateLoop_untouched s1 l s' (Z.to_nat idx) Hc1 H) as [H1 H2].
    { intros k' idx' p' Hk' Heq.
      assert (Hne : idx' <> idx).
      { apply (Hlast (S k') idx' p'); [lia|exact Hk']. }
      assert (Hbad : ~ bad_pair s1 (idx', p')).
      { intros Hbad. apply Hnone. apply (updateLoop_None s1 l Hc1).
        apply Exists_exists. exists (idx', p'). split; [|exact Hbad].
        eapply list_elem_of_lookup_2; eauto. }
      unfold bad_pair in Hbad. simpl in Hbad. lia. }
    rewrite H1, H2, Hs1. simpl. destruct Hc as [Hcs Hcm].
    rewrite !list_lookup_insert_eq by lia. done.
  - assert (Ha : alpha s1 = alpha s) by (rewrite Hs1; reflexivity).
    rewrite <- Ha. apply (IH s1 k Hc1 H Hk).
    intros k' idx' p' Hlt Hk'. apply (Hlast (S k') idx' p'); [lia|exact Hk'].
Qed.

Lemma updateLoop_app s l1 l2 :
  updateLoop s (l1 ++ l2) = s1 ← updateLoop s l1; updateLoop s1 l2.
Proof.
  revert s. induction l1 as [|[idx p] l1 IH]; intros s; simpl; [done|].
  destruct (updateOne s idx p) as [s1|]; cbn; [apply IH|done].
Qed.

Lemma foldl_Rmax_ge (m : R) (ps : list R) : m <= foldl Rmax m ps.
Proof.
  revert m. induction ps as [|p ps IH]; intros m; simpl; [lra|].
  pose proof (IH (Rmax m p)). pose proof (Rmax_l m p). lra.
Qed.

Lemma foldl_Rmax_upper (m : R) (ps : list R) p :
  p ∈ ps -> p <= foldl Rmax m ps.
Proof.
  revert m. induction ps as [|q ps IH]; intros m Hin; [inversion Hin|].
  simpl. apply elem_of_cons in Hin as [->|Hin].
  - pose proof (foldl_Rmax_ge (Rmax m q) ps). pose proof (Rmax_r m q). lra.
  - apply IH, Hin.
Qed.

Lemma foldl_Rmax_attained (m : R) (ps : list R) :
  foldl Rmax m ps = m \/ foldl Rmax m ps ∈ ps.
Proof.
  revert m. induction ps as [|q ps IH]; intros m; simpl; [by left|].
  destruct (IH (Rmax m q)) as [H|H].
  - rewrite H. unfold Rmax. destruct (Rle_dec m q); [right; left|by left].
  - right. right. exact H.
Qed.

(** C3.  In a state whose trees have a leaf for every occupied position,
    [updatePriorities(indexes, priorities)] raises exactly when the two
    lists differ in length, or some priority is [<= 0], or some index lies
    outside [0 <= idx < len(memBuff)].  When it returns: every pair
    [(idx, p)] is written, that is, right after the loop round of that pair
    both leaves [idx] hold [p ** alpha], and they still do at the end
    unless a later pair names the same index; [maxPriority] ends as the
    maximum of its old value and all given priorities; leaves named by no
    pair, the buffer, [alpha] and the write slot are as before. *)
Theorem C3_updatePriorities (s : t) (indexes : list Z) (priorities : list R) :
  tree_covers s ->
  (updatePriorities s indexes priorities = None <->
     length indexes <> length priorities
     \/ exists k idx p,
          indexes !! k = Some idx /\ priorities !! k = Some p
          /\ (p <= 0 \/ (idx < 0)%Z
              \/ (Z.of_nat (ReplayBuffer.len (base s)) <= idx)%Z))
  /\ forall s', updatePriorities s indexes priorities = Some s' ->
       (forall k idx p,
          indexes !! k = Some idx -> priorities !! k = Some p ->
          (exists sk,
             updatePriorities s (take (S k) indexes) (take (S k) priorities) = Some sk
             /\ sumTree sk !! Z.to_nat idx = Some (fpow p (alpha s))
             /\ minTree sk !! Z.to_nat idx = Some (Fin (fpow p (alpha s))))
          /\ ((forall k', (k < k')%nat -> indexes !! k' <> Some idx) ->
              sumTree s' !! Z.to_nat idx = Some (fpow p (alpha s))
              /\ minTree s' !! Z.to_nat idx = Some (Fin (fpow p (alpha s)))))
       /\ (forall i, (forall k, indexes !! k <> Some (Z.of_nat i)) ->
             sumTree s' !! i = sumTree s !! i /\ minTree s' !! i = minTree s !! i)
       /\ maxPriority s' = foldl Rmax (maxPriority s) priorities
       /\ maxPriority s <= maxPriority s'
       /\ (forall p, p ∈ priorities -> p <= maxPriority s')
       /\ (maxPriority s' = maxPriority s \/ maxPriority s' ∈ priorities)
       /\ base s' = base s /\ alpha s' = alpha s /\ nextIdx s' = nextIdx s.
Proof.
  intros Hc. unfold updatePriorities.
  destruct (Nat.eqb_spec (length indexes) (length priorities)) as [Hlen|Hlen].
  2:{ split; [|discriminate]. split; [by left|done]. }
  assert (Hzip : forall k idx p,
            zip indexes priorities !! k = Some (idx, p)
            <-> indexes !! k = Some idx /\ priorities !! k = Some p).
  { intros k idx p. rewrite lookup_zip_with.
    destruct (indexes !! k), (priorities !! k); cbn; intuition congruence. }
  split.
  - rewrite (updateLoop_None s _ Hc), Exists_exists. split.
    + intros ([idx p] & Hin & Hbad). right.
      apply list_elem_of_lookup in Hin as [k Hk]. apply Hzip in Hk as [Hi Hp].
      exists k, idx, p. done.
    + intros [H|(k & idx & p & Hi & Hp & Hbad)]; [done|].
      exists (idx, p). split; [|exact Hbad].
      apply (list_elem_of_lookup_2 _ k). apply Hzip. done.
  - intros s' Hrun.
    destruct (updateLoop_frame s _ s' Hc Hrun) as (Hb & Ha & Hn & Hmx & _ & _ & _).
    rewrite snd_zip in Hmx by lia.
    assert (Hnobad : forall k idx p,
              zip indexes priorities !! k = Some (idx, p) -> (0 <= idx)%Z).
    { intros k idx p Hk.
      destruct (Z.le_gt_cases 0 idx) as [|Hneg]; [done|exfalso].
      assert (Hnone : updateLoop s (zip indexes priorities) = None); [|congruence].
      apply (updateLoop_None s _ Hc), Exists_exists. exists (idx, p).
      split; [eapply list_elem_of_lookup_2; eauto|].
      right; left. simpl. lia. }
    split_and!; try done.
    + intros k idx p Hi Hp. split.
      * assert (Hk : zip indexes priorities !! k = Some (idx, p)) by (apply Hzip; done).
        rewrite !length_take, Hlen, Nat.eqb_refl.
        rewrite <- zip_with_take.
        rewrite <- (take_drop (S k) (zip indexes priorities)) in Hrun.
        rewrite updateLoop_app in Hrun.
        destruct (updateLoop s (take (S k) (zip indexes priorities))) as [sk|] eqn:E;
          [|discriminate].
        exists sk. split; [done|].
        apply (updateLoop_last_write s _ sk k idx p Hc E).
        -- rewrite lookup_take_lt by lia. exact Hk.
        -- intros k' idx' p' Hlt Hk'. apply lookup_take_Some in Hk'. lia.
      * intros Hlast.
        apply (updateLoop_last_write s _ s' k idx p Hc Hrun); [apply Hzip; done|].
        intros k' idx' p' Hlt Hk' ->. apply Hzip in Hk' as [Hi' _].
        exact (Hlast k' Hlt Hi').
    + intros i Hno. apply (updateLoop_untouched s _ s' i Hc Hrun).
      intros k idx p Hk Heq. pose proof (Hnobad k idx p Hk).
      apply Hzip in Hk as [Hi _]. apply (Hno k). rewrite Hi. f_equal. lia.
    + rewrite Hmx. apply foldl_Rmax_ge.
    + intros p Hp. rewrite Hmx. apply foldl_Rmax_upper, Hp.
    + rewrite Hmx. apply foldl_Rmax_attained.
Qed.

End PriorityFacts.

(** ** PrioritizedReplayBuffer: what every reachable state satisfies *)

Module ReachFacts.
Import SegmentTree PrioritizedReplayBuffer PrioritySpec PriorityFacts.

Lemma grow_ge B fuel capacity :
  (1 <= capacity)%nat -> (B <= fuel + capacity)%nat -> (B <= grow B fuel capacity)%nat.
Proof.
  revert capacity. induction fuel as [|fuel IH]; intros capacity H1 H2; simpl.
  - lia.
  - destruct (Nat.ltb_spec capacity B); [|lia]. apply IH; lia.
Qed.

Lemma treeCapacity_ge B : (B <= treeCapacity B)%nat.
Proof. unfold treeCapacity. apply grow_ge; lia. Qed.

Lemma fpow_pos x y : 0 < fpow x y.
Proof. unfold fpow, Rpower. apply exp_pos. Qed.

Lemma len_addMem b st ac rw ns dn :
  ReplayBuffer.len (ReplayBuffer.addMem b st ac rw ns dn)
  = if (ReplayBuffer.len b <? ReplayBuffer.maxlen b)%nat
    then S (ReplayBuffer.len b) else (ReplayBuffer.len b - 0)%nat.
Proof.
  unfold ReplayBuffer.len, ReplayBuffer.addMem, Deque.append. simpl.
  destruct (Nat.ltb_spec (length (ReplayBuffer.memBuff b)) (ReplayBuffer.maxlen b)).
  - rewrite length_app. simpl. lia.
  - rewrite length_drop, length_app. simpl. lia.
Qed.

Lemma Inv_init B BS a : (0 < B)%nat -> Inv B (init B BS a).
Proof.
  intros HB. unfold Inv, init, leaves_ok, ReplayBuffer.len. simpl.
  unfold SumSegmentTree, MinSegmentTree. rewrite !length_replicate.
  split_and!; try done; try lia; try lra.
  intros i _. split.
  - intros v Hv. apply lookup_replicate in Hv. tauto.
  - intros m Hm. apply lookup_replicate in Hm. tauto.
Qed.

(** [addMem] in a reachable state: it does not raise, writes
    [maxPriority ** alpha] into both trees at the write slot and moves the
    write slot on by one, modulo [BUFFER_SIZE]. *)
Lemma addMem_spec B s st ac rw ns dn :
  Inv B s ->
  addMem B s st ac rw ns dn
  = Some {| base := ReplayBuffer.addMem (base s) st ac rw ns dn;
            alpha := alpha s;
            sumTree := <[nextIdx s := fpow (maxPriority s) (alpha s)]> (sumTree s);
            minTree := <[nextIdx s := Fin (fpow (maxPriority s) (alpha s))]> (minTree s);
            maxPriority := maxPriority s;
            nextIdx := (nextIdx s + 1) mod B |}.
Proof.
  intros (Hml & Hlen & Hls & Hlm & Hnext & Hlt & Hmax & Hok).
  pose proof (treeCapacity_ge B) as Hcap.
  unfold addMem. rewrite !setitem_Some by lia. cbn.
  destruct (Nat.eqb_spec B 0); [lia|]. reflexivity.
Qed.

Lemma Inv_addMem B s st ac rw ns dn s' :
  Inv B s -> addMem B s st ac rw ns dn = Some s' -> Inv B s'.
Proof.
  intros HI Hadd. rewrite (addMem_spec B s st ac rw ns dn HI) in Hadd.
  inversion Hadd as [Hs']; clear Hadd; subst s'.
  destruct HI as (Hml & Hlen & Hls & Hlm & Hnext & Hlt & Hmax & Hok1 & Hok2).
  pose proof (treeCapacity_ge B) as Hcap.
  pose proof (len_addMem (base s) st ac rw ns dn) as Hl. rewrite Hml in Hl.
  unfold Inv, leaves_ok. simpl. rewrite !length_insert.
  assert (HB : (0 < B)%nat) by lia.
  pose proof (Nat.mod_upper_bound (nextIdx s + 1) B ltac:(lia)) as Hmod.
  destruct (Nat.ltb_spec (ReplayBuffer.len (base s)) B) as [Hnf|Hfull].
  - specialize (Hnext Hnf). rewrite Hl.
    split_and!; try done; try lia.
    + intros Hlt'. rewrite Hnext, Nat.mod_small by lia. lia.
    + intros i Hi. destruct (decide (i = nextIdx s)) as [->|Hne].
      * exists (fpow (maxPriority s) (alpha s)). split; [apply fpow_pos|].
        rewrite !list_lookup_insert_eq by lia. done.
      * rewrite !list_lookup_insert_ne by done. apply Hok1. lia.
    + intros i Hi. rewrite !list_lookup_insert_ne by lia. apply Hok2. lia.
  - rewrite Hl.
    split_and!; try done; try lia.
    + intros i Hi. destruct (decide (i = nextIdx s)) as [->|Hne].
      * exists (fpow (maxPriority s) (alpha s)). split; [apply fpow_pos|].
        rewrite !list_lookup_insert_eq by lia. done.
      * rewrite !list_lookup_insert_ne by done. apply Hok1. lia.
    + intros i Hi. rewrite !list_lookup_insert_ne by lia. apply Hok2. lia.
Qed.

Lemma Inv_covers B s : Inv B s -> tree_covers s.
Proof.
  intros (Hml & Hlen & Hls & Hlm & _). pose proof (treeCapacity_ge B).
  unfold tree_covers. lia.
Qed.

Lemma Inv_updateOne B s idx p s' :
  Inv B s -> updateOne s idx p = Some s' -> Inv B s'.
Proof.
  intros HI Hupd. pose proof (updateOne_spec s idx p (Inv_covers B s HI)) as Hs.
  rewrite Hupd in Hs. destruct Hs as (Hp & Hi & ->).
  destruct HI as (Hml & Hlen & Hls & Hlm & Hnext & Hlt & Hmax & Hok1 & Hok2).
  pose proof (treeCapacity_ge B) as Hcap.
  unfold Inv, leaves_ok. simpl. rewrite !length_insert.
  split_and!; try done.
  - pose proof (Rmax_l (maxPriority s) p). lra.
  - intros i Hlti. destruct (decide (i = Z.to_nat idx)) as [->|Hne].
    + exists (fpow p (alpha s)). split; [apply fpow_pos|].
      rewrite !list_lookup_insert_eq by lia. done.
    + rewrite !list_lookup_insert_ne by done. apply Hok1. lia.
  - intros i Hi'. rewrite !list_lookup_insert_ne by lia. apply Hok2. lia.
Qed.

Lemma Inv_updateLoop B s l s' :
  Inv B s -> updateLoop s l = Some s' -> Inv B s'.
Proof.
  revert s. induction l as [|[idx p] l IH]; intros s HI H; simpl in H.
  - inversion H; subst. exact HI.
  - destruct (updateOne s idx p) as [s1|] eqn:E; [|discriminate]. cbn in H.
    apply (IH s1); [eapply Inv_updateOne; eauto|exact H].
Qed.

Lemma Inv_run_call B s c s' :
  Inv B s -> run_call B s c = Some s' -> Inv B s'.
Proof.
  intros HI H. destruct c as [e|indexes priorities]; simpl in H.
  - eapply Inv_addMem; eauto.
  - unfold updatePriorities in H.
    destruct (length indexes =? length priorities)%nat; [|discriminate].
    eapply Inv_updateLoop; eauto.
Qed.

Lemma Inv_run B s cs s' :
  Inv B s -> run B s cs = Some s' -> Inv B s'.
Proof.
  revert s. induction cs as [|c cs IH]; intros s HI H; simpl in H.
  - inversion H; subst. exact HI.
  - destruct (run_call B s c) as [s1|] eqn:E; [|discriminate]. cbn in H.
    apply (IH s1); [eapply Inv_run_call; eauto|exact H].
Qed.

(** Every state reached from a fresh buffer satisfies the invariant. *)
Lemma Inv_reachable B BS a cs s :
  (0 < B)%nat -> run B (init B BS a) cs = Some s -> Inv B s.
Proof. intros HB. apply Inv_run, Inv_init, HB. Qed.

End ReachFacts.

(** ** PrioritizedReplayBuffer: importance weights *)

Module WeightFacts.
Import SegmentTree PrioritizedReplayBuffer PrioritySpec PriorityFacts ReachFacts.

Lemma mapM_total {A B} (f : A -> option B) (l : list A) :
  Forall (fun x => is_Some (f x)) l ->
  exists k,
    mapM f l = Some k
    /\ length k = length l
    /\ forall r x, l !! r = Some x -> exists y, f x = Some y /\ k !! r = Some y.
Proof.
  induction 1 as [|x l [y Hy] _ IH].
  - exists []. split_and!; [done..|]. intros r x Hr. done.
  - destruct IH as (k & Hm & Hlen & Hrows).
    exists (y :: k). split_and!.
    + cbn. rewrite Hy. cbn. rewrite Hm. reflexivity.
    + simpl. lia.
    + intros [|r] x' Hr; simpl in Hr.
      * inversion Hr; subst. exists y. done.
      * apply Hrows. exact Hr.
Qed.

(** [min()] returns the least written leaf, and [inf] only when no leaf
    was written. *)
Lemma min_spec (tree : list xreal) :
  match min tree with
  | Fin m =>
      (exists i, tree !! i = Some (Fin m))
      /\ (forall i v, tree !! i = Some (Fin v) -> m <= v)
  | PosInf => forall i x, tree !! i = Some x -> x = PosInf
  end.
Proof.
  induction tree as [|x tree IH]; simpl.
  - intros i x Hx. done.
  - fold (min tree). destruct x as [a|], (min tree) as [m|]; simpl.
    + destruct IH as [[i Hi] Hle]. split.
      * unfold Rmin. destruct (Rle_dec a m).
        -- exists 0%nat. done.
        -- exists (S i). done.
      * intros [|j] v Hv; simpl in Hv.
        -- inversion Hv; subst. apply Rmin_l.
        -- pose proof (Hle j v Hv). pose proof (Rmin_r a m). lra.
    + split.
      * exists 0%nat. done.
      * intros [|j] v Hv; simpl in Hv.
        -- inversion Hv; subst. lra.
        -- specialize (IH j _ Hv). discriminate.
    + destruct IH as [[i Hi] Hle]. split.
      * exists (S i). done.
      * intros [|j] v Hv; simpl in Hv; [discriminate|]. apply (Hle j v Hv).
    + intros [|j] x Hx; simpl in Hx.
      * inversion Hx. done.
      * apply (IH j x Hx).
Qed.

Lemma sum_nonneg (tree : list R) : Forall (fun v => 0 <= v) tree -> 0 <= sum tree.
Proof.
  induction 1 as [|v tree Hv _ IH]; simpl; [lra|]. fold (sum tree). lra.
Qed.

Lemma sum_pos (tree : list R) i v :
  Forall (fun v => 0 <= v) tree -> tree !! i = Some v -> 0 < v -> 0 < sum tree.
Proof.
  intros Hall. revert i. induction Hall as [|w tree Hw Hall IH]; intros i Hi Hv.
  - done.
  - simpl. fold (sum tree). destruct i as [|i]; simpl in Hi.
    + inversion Hi; subst. pose proof (sum_nonneg tree Hall). lra.
    + pose proof (IH i Hi Hv). lra.
Qed.

Lemma leaves_ok_nonneg s : leaves_ok s -> Forall (fun v => 0 <= v) (sumTree s).
Proof.
  intros [Hocc Hfree]. apply Forall_lookup_2. intros i v Hv.
  destruct (Nat.lt_ge_cases i (ReplayBuffer.len (base s))) as [Hlt|Hge].
  - destruct (Hocc i Hlt) as (v' & Hpos & Hs & _). rewrite Hv in Hs.
    inversion Hs; subst. lra.
  - destruct (Hfree i Hge) as [Hz _]. rewrite (Hz v Hv). lra.
Qed.

(** A negative power reverses the order of positive bases. *)
Lemma fpow_antitone a b beta :
  0 < a -> a <= b -> 0 <= beta -> fpow b (- beta) <= fpow a (- beta).
Proof.
  intros Ha Hab Hbeta. unfold fpow, Rpower.
  assert (Hln : ln a <= ln b).
  { destruct Hab as [Hlt| ->]; [left; apply ln_increasing; lra|lra]. }
  assert (Hexp : - beta * ln b <= - beta * ln a) by nra.
  destruct Hexp as [Hlt|Heq]; [left; apply exp_increasing, Hlt|rewrite Heq; lra].
Qed.

(** C2.  In a state where both trees hold one positive value at every
    occupied position and the neutral elements elsewhere (every reachable
    state is such), on a non-empty buffer of well-shaped transitions, for
    [beta >= 0] and sampled indexes within the occupied range:
    [memSample(beta)] returns, and the weight returned for each sampled
    index [i] is [(P(i) * N) ** (-beta) / (P(min) * N) ** (-beta)] with
    [P(p) = p / sumTree.sum()], [N = len(memBuff)] and [min] the least
    stored leaf; the denominator is the largest value of
    [(P(j) * N) ** (-beta)] over all occupied positions [j]; so every
    weight is at most [1], and an index holding the least leaf gets
    weight [1]. *)
Theorem C2_importance_weights (stateSize actionSize : nat) (s : t) (beta : R)
  (indexes : list nat) :
  leaves_ok s ->
  ReplayBuffer.well_shaped stateSize actionSize (base s) ->
  (0 < ReplayBuffer.len (base s))%nat ->
  0 <= beta ->
  Forall (fun idx => (idx < ReplayBuffer.len (base s))%nat) indexes ->
  exists batch weights pmin,
    memSample s beta indexes = Some (batch, weights, indexes)
    /\ min (minTree s) = Fin pmin
    /\ 0 < pmin /\ 0 < sum (sumTree s)
    /\ (exists j, (j < ReplayBuffer.len (base s))%nat /\ sumTree s !! j = Some pmin)
    /\ (forall j p, (j < ReplayBuffer.len (base s))%nat -> sumTree s !! j = Some p ->
          pmin <= p
          /\ fpow (p / sum (sumTree s) * INR (ReplayBuffer.len (base s))) (- beta)
             <= fpow (pmin / sum (sumTree s) * INR (ReplayBuffer.len (base s))) (- beta))
    /\ length weights = length indexes
    /\ (forall r idx, indexes !! r = Some idx ->
          exists p w,
            sumTree s !! idx = Some p /\ weights !! r = Some w
            /\ w = fpow (p / sum (sumTree s) * INR (ReplayBuffer.len (base s))) (- beta)
                   / fpow (pmin / sum (sumTree s) * INR (ReplayBuffer.len (base s))) (- beta)
            /\ w <= 1
            /\ (p = pmin -> w = 1)).
Proof.
  intros Hok Hshape Hlen Hbeta Hidx.
  pose proof (leaves_ok_nonneg s Hok) as Hnn.
  destruct Hok as [Hocc Hfree].
  set (N := INR (ReplayBuffer.len (base s))).
  set (total := sum (sumTree s)).
  assert (HN : 0 < N) by (apply lt_0_INR; lia).
  assert (Htotal : 0 < total).
  { destruct (Hocc 0%nat Hlen) as (v & Hv & Hs & _). eapply sum_pos; eauto. }
  (* the global minimum *)
  pose proof (min_spec (minTree s)) as Hmin.
  destruct (min (minTree s)) as [pmin|] eqn:Emin.
  2:{ destruct (Hocc 0%nat Hlen) as (v & _ & _ & Hm). specialize (Hmin _ _ Hm). discriminate. }
  destruct Hmin as [[jmin Hjmin] Hleast].
  assert (Hjlt : (jmin < ReplayBuffer.len (base s))%nat).
  { destruct (Nat.lt_ge_cases jmin (ReplayBuffer.len (base s))) as [|Hge]; [done|].
    destruct (Hfree jmin Hge) as [_ Hinf]. specialize (Hinf _ Hjmin). discriminate. }
  destruct (Hocc jmin Hjlt) as (vmin & Hvpos & Hsmin & Hmmin).
  rewrite Hjmin in Hmmin. inversion Hmmin; subst vmin. clear Hmmin.
  assert (Hglobal : forall j p, (j < ReplayBuffer.len (base s))%nat ->
            sumTree s !! j = Some p -> 0 < p /\ pmin <= p).
  { intros j p Hj Hp. destruct (Hocc j Hj) as (v & Hv & Hs & Hm).
    rewrite Hp in Hs. inversion Hs; subst v. split; [done|]. apply (Hleast j p Hm). }
  assert (Hmass : forall p, pmin <= p -> 0 < pmin / total * N <= p / total * N).
  { intros p Hp. unfold Rdiv.
    assert (Hinv : 0 < / total) by (apply Rinv_0_lt_compat; lra).
    assert (Ha : 0 < pmin * / total) by (apply Rmult_lt_0_compat; lra).
    assert (Hb : pmin * / total <= p * / total).
    { apply Rmult_le_compat_r; lra. }
    split; [apply Rmult_lt_0_compat; lra|apply Rmult_le_compat_r; lra]. }
  set (maxWeight := fpow (pmin / total * N) (- beta)).
  assert (Hmw : 0 < maxWeight) by apply fpow_pos.
  (* the weights *)
  destruct (mapM_total (weightOf s beta maxWeight) indexes) as (weights & Hw & Hwlen & Hwrows).
  { eapply Forall_impl; [exact Hidx|]. intros idx Hi. cbn in Hi.
    destruct (Hocc idx Hi) as (v & _ & Hs & _).
    unfold weightOf, getitem. rewrite Hs. cbn. eauto. }
  (* the encoded sample *)
  destruct (ReplayBufferFacts.mapM_lookup_total (ReplayBuffer.memBuff (base s)) indexes Hidx)
    as (chosen & Hch & Hchlen & Hchrows).
  assert (Hcs : Forall (fun e => length (state e) = stateSize
                     /\ length (action e) = actionSize
                     /\ length (nextState e) = stateSize) chosen).
  { apply Forall_lookup_2. intros r e Hr.
    destruct (lookup_lt_is_Some_2 indexes r) as [i Hi].
    { rewrite <- Hchlen. eapply lookup_lt_Some; eauto. }
    destruct (Hchrows r i Hi) as (e' & He' & Hr').
    rewrite Hr in Hr'. inversion Hr'; subst e'.
    unfold ReplayBuffer.well_shaped in Hshape. rewrite Forall_forall in Hshape.
    apply Hshape. eapply list_elem_of_lookup_2; eauto. }
  eexists _, weights, pmin. split_and!.
  - unfold memSample. rewrite Emin.
    destruct (Req_dec_T (sum (sumTree s)) 0) as [Hz|_]; [exfalso; unfold total in Htotal; lra|].
    fold total N maxWeight. rewrite Hw. cbn.
    unfold encodedSample. rewrite Hch. cbn. unfold np_array.
    rewrite (ReplayBufferFacts.same_width_const (map state chosen) stateSize).
    2:{ apply Forall_map. eapply Forall_impl; [exact Hcs|]. cbn. tauto. }
    cbn.
    rewrite (ReplayBufferFacts.same_width_const (map action chosen) actionSize).
    2:{ apply Forall_map. eapply Forall_impl; [exact Hcs|]. cbn. tauto. }
    cbn.
    rewrite (ReplayBufferFacts.same_width_const (map nextState chosen) stateSize).
    2:{ apply Forall_map. eapply Forall_impl; [exact Hcs|]. cbn. tauto. }
    cbn. reflexivity.
  - reflexivity.
  - exact Hvpos.
  - exact Htotal.
  - exists jmin. done.
  - intros j p Hj Hp. destruct (Hglobal j p Hj Hp) as [Hpos Hle].
    split; [exact Hle|]. destruct (Hmass p Hle) as [Hm1 Hm2]. apply fpow_antitone; assumption.
  - exact Hwlen.
  - intros r idx Hr.
    assert (Hilt : (idx < ReplayBuffer.len (base s))%nat).
    { rewrite Forall_forall in Hidx. apply Hidx. eapply list_elem_of_lookup_2; eauto. }
    destruct (Hocc idx Hilt) as (p & Hp & Hs & _).
    destruct (Hwrows r idx Hr) as (w & Hwo & Hwr).
    unfold weightOf, getitem in Hwo. rewrite Hs in Hwo. cbn in Hwo.
    inversion Hwo as [Hweq]. fold total N in Hweq. clear Hwo. subst w.
    destruct (Hglobal idx p Hilt Hs) as [_ Hle].
    eexists p, _. split_and!; [exact Hs|exact Hwr|reflexivity|..].
    + assert (Hnum : fpow (p / total * N) (- beta) <= maxWeight).
      { destruct (Hmass p Hle) as [Hm1 Hm2]. apply fpow_antitone; assumption. }
      unfold Rdiv. replace 1 with (maxWeight * / maxWeight) by (field; lra).
      apply Rmult_le_compat_r; [left; apply Rinv_0_lt_compat; lra|exact Hnum].
    + intros ->. fold maxWeight. field. lra.
Qed.

End WeightFacts.

(** ** PrioritizedReplayBuffer: do the leaves follow the transitions? *)

Module AlignmentFacts.
Import SegmentTree PrioritizedReplayBuffer PrioritySpec PriorityFacts ReachFacts.

Lemma match_updateOne s g idx p s' :
  tree_covers s -> leaves_match s g -> updateOne s idx p = Some s' ->
  leaves_match s' (<[Z.to_nat idx := p]> g).
Proof.
  intros Hc [Hlen Hm] Hupd. pose proof (updateOne_spec s idx p Hc) as Hs.
  rewrite Hupd in Hs. destruct Hs as (Hp & Hi & ->). destruct Hc as [Hcs Hcm].
  unfold leaves_match. simpl. rewrite length_insert. split; [exact Hlen|].
  intros i q Hq. destruct (decide (i = Z.to_nat idx)) as [->|Hne].
  - rewrite list_lookup_insert_eq in Hq by lia. inversion Hq; subst q.
    rewrite !list_lookup_insert_eq by lia. done.
  - rewrite list_lookup_insert_ne in Hq by done.
    rewrite !list_lookup_insert_ne by done. apply Hm, Hq.
Qed.

Lemma match_updateLoop s g l s' :
  tree_covers s -> leaves_match s g -> updateLoop s l = Some s' ->
  leaves_match s' (foldl (fun g' pr => <[Z.to_nat (fst pr) := snd pr]> g') g l).
Proof.
  revert s g. induction l as [|[idx p] l IH]; intros s g Hc Hm H; simpl in H.
  - inversion H; subst. exact Hm.
  - destruct (updateOne s idx p) as [s1|] eqn:E; [|discriminate]. cbn in H.
    simpl. apply (IH s1); [eapply updateOne_covers; eauto| |exact H].
    eapply match_updateOne; eauto.
Qed.

(** While the buffer is not full, the transition added lands at the write
    slot, and so does its priority. *)
Lemma match_addMem B s g st ac rw ns dn s' :
  Inv B s -> (ReplayBuffer.len (base s) < B)%nat -> leaves_match s g ->
  addMem B s st ac rw ns dn = Some s' ->
  leaves_match s' (Deque.append (ReplayBuffer.maxlen (base s)) g (maxPriority s)).
Proof.
  intros HI Hnf [Hlen Hm] Hadd. rewrite (addMem_spec B s st ac rw ns dn HI) in Hadd.
  inversion Hadd as [Hs']; clear Hadd; subst s'.
  destruct HI as (Hml & Hle & Hls & Hlm & Hnext & Hlt & Hmax & Hok).
  pose proof (treeCapacity_ge B) as Hcap. specialize (Hnext Hnf).
  pose proof (len_addMem (base s) st ac rw ns dn) as Hl. rewrite Hml in Hl.
  apply Nat.ltb_lt in Hnf as Hnfb. rewrite Hnfb in Hl.
  unfold leaves_match, Deque.append. simpl. rewrite Hml, Hlen, Hnfb, Hl.
  split; [rewrite length_app; simpl; lia|].
  intros i q Hq. apply lookup_app_Some in Hq as [Hq|[Hge Hq]].
  - assert (i < length g)%nat by (eapply lookup_lt_Some; eauto).
    rewrite !list_lookup_insert_ne by lia. apply Hm, Hq.
  - apply list_lookup_singleton_Some in Hq as [Hi ->].
    assert (i = nextIdx s) as -> by lia.
    rewrite !list_lookup_insert_eq by lia. done.
Qed.

(** Until the buffer has been filled, the invariant of the spec holds:
    every occupied leaf is the priority of the transition stored there. *)
Lemma match_before_wrap B s g cs s' g' :
  Inv B s -> leaves_match s g ->
  (ReplayBuffer.len (base s) + adds cs <= B)%nat ->
  run_assigned B s g cs = Some (s', g') ->
  leaves_match s' g'.
Proof.
  revert s g. induction cs as [|c cs IH]; intros s g HI Hm Hroom H; simpl in H.
  - inversion H; subst. exact Hm.
  - destruct (run_call B s c) as [s1|] eqn:E; [|discriminate]. cbn in H.
    assert (HI1 : Inv B s1) by (eapply Inv_run_call; eauto).
    destruct c as [e|indexes priorities]; simpl in E, Hroom.
    + eapply IH; [exact HI1| | |exact H].
      * simpl. eapply match_addMem; eauto. lia.
      * pose proof (len_addMem (base s) (state e) (action e) (reward e)
                      (nextState e) (done e)) as Hl.
        rewrite (addMem_spec B s _ _ _ _ _ HI) in E. inversion E; subst s1. simpl.
        destruct HI as (Hml & _). rewrite Hml in Hl.
        destruct (ReplayBuffer.len (base s) <? B)%nat; lia.
    + eapply IH; [exact HI1| | |exact H].
      * simpl. unfold updatePriorities in E.
        destruct (length indexes =? length priorities)%nat; [|discriminate].
        eapply match_updateLoop; eauto. eapply Inv_covers; eauto.
      * unfold updatePriorities in E.
        destruct (length indexes =? length priorities)%nat; [|discriminate].
        destruct (updateLoop_frame s _ s1 (Inv_covers B s HI) E) as (Hb & _).
        rewrite Hb. lia.
Qed.

Lemma run_assigned_app B s g cs1 cs2 :
  run_assigned B s g (cs1 ++ cs2)
  = r ← run_assigned B s g cs1; run_assigned B r.1 r.2 cs2.
Proof.
  revert s g. induction cs1 as [|c cs1 IH]; intros s g; simpl; [done|].
  destruct (run_call B s c) as [s1|]; cbn; [apply IH|done].
Qed.

(** A run of [addMem] calls alone. *)
Lemma run_adds B s g es :
  Inv B s ->
  exists s',
    run_assigned B s g (map AddMem es)
    = Some (s', Deque.extend B g (replicate (length es) (maxPriority s)))
    /\ base s' = ReplayBuffer.addAll (base s) es
    /\ maxPriority s' = maxPriority s
    /\ alpha s' = alpha s
    /\ nextIdx s' = ((nextIdx s + length es) mod B)%nat
    /\ Inv B s'.
Proof.
  revert s g. induction es as [|e es IH]; intros s g HI.
  - exists s. simpl. split_and!; try done.
    destruct HI as (_ & _ & _ & _ & _ & Hlt & _).
    rewrite Nat.add_0_r, Nat.mod_small by lia. done.
  - simpl. pose proof (addMem_spec B s (state e) (action e) (reward e)
                         (nextState e) (done e) HI) as Hadd.
    rewrite Hadd. cbn.
    match type of Hadd with _ = Some ?x => set (s1 := x) in * end.
    assert (HI1 : Inv B s1) by (eapply Inv_addMem; eauto).
    destruct (IH s1 (Deque.append (ReplayBuffer.maxlen (base s)) g (maxPriority s)) HI1)
      as (s' & Hrun & Hb & Hmx & Ha & Hn & HI').
    exists s'. destruct HI as (Hml & _). rewrite Hml in *.
    split_and!; try done.
    rewrite Hn. simpl. rewrite Nat.Div0.add_mod_idemp_l. f_equal. lia.
Qed.

Lemma fpow_one a : fpow 1 a = 1.
Proof. unfold fpow, Rpower. rewrite ln_1, Rmult_0_r. apply exp_0. Qed.

Lemma fpow_two_gt a : 0 < a -> 1 < fpow 2 a.
Proof.
  intros Ha. unfold fpow, Rpower. rewrite <- exp_0. apply exp_increasing.
  assert (0 < ln 2) by (rewrite <- ln_1; apply ln_increasing; lra).
  nra.
Qed.

(** Filling the buffer, raising one priority and adding one more
    transition: the deque has moved every transition one place to the
    left, the leaves have not moved, and the leaf at position 1 is the
    priority given to the transition that now sits at position 0. *)
Lemma misaligned_after_wrap B BS a (es : list Experience) (e : Experience) :
  (3 <= B)%nat -> 0 < a -> length es = B ->
  exists s g,
    run_assigned B (init B BS a) []
      (map AddMem es ++ [UpdatePriorities [1%Z] [2]; AddMem e]) = Some (s, g)
    /\ ReplayBuffer.memBuff (base s) !! 1%nat = es !! 2%nat
    /\ ReplayBuffer.memBuff (base s) !! (B - 1)%nat = Some e
    /\ nextIdx s = 1%nat
    /\ g !! 1%nat = Some 1
    /\ sumTree s !! 1%nat = Some (fpow 2 a)
    /\ minTree s !! 1%nat = Some (Fin (fpow 2 a))
    /\ fpow 2 a <> fpow 1 a
    /\ ~ leaves_match s g.
Proof.
  intros HB Ha Hes.
  assert (HI0 : Inv B (init B BS a)) by (apply Inv_init; lia).
  destruct (run_adds B (init B BS a) [] es HI0) as (s1 & Hrun1 & Hb1 & Hmx1 & Ha1 & Hn1 & HI1).
  simpl in Hmx1, Ha1, Hn1, Hb1.
  rewrite DequeFacts.extend_empty, length_replicate, Hes, Nat.sub_diag, drop_0 in Hrun1.
  rewrite Hes, Nat.Div0.mod_same in Hn1.
  destruct (ReplayBufferFacts.addAll_fields (ReplayBuffer.init B BS) es) as (Hmem1 & Hml1 & _).
  rewrite <- Hb1 in Hmem1, Hml1. simpl in Hmem1, Hml1.
  rewrite DequeFacts.extend_empty, Hes, Nat.sub_diag, drop_0 in Hmem1.
  assert (Hlen1 : ReplayBuffer.len (base s1) = B).
  { unfold ReplayBuffer.len. rewrite Hmem1. exact Hes. }
  assert (Hm1 : leaves_match s1 (replicate B 1)).
  { eapply (match_before_wrap B (init B BS a) [] (map AddMem es)); eauto.
    - split; [done|]. intros i p Hp. done.
    - simpl. clear -Hes. rewrite <- Hes. clear Hes.
      induction es as [|x es IH]; simpl; lia. }
  (* the priority update *)
  pose proof (updateOne_spec s1 1%Z 2 (Inv_covers B s1 HI1)) as Hu.
  destruct (updateOne s1 1%Z 2) as [s2|] eqn:E2.
  2:{ unfold bad_pair in Hu. simpl in Hu. exfalso. destruct Hu as [?|[?|?]]; [lra|lia|lia]. }
  destruct Hu as (_ & _ & Hs2).
  assert (HI2 : Inv B s2) by (eapply Inv_updateOne; eauto).
  (* the insertion that wraps *)
  pose proof (addMem_spec B s2 (state e) (action e) (reward e) (nextState e) (done e) HI2)
    as Hadd3.
  match type of Hadd3 with _ = Some ?x => set (s3 := x) in * end.
  set (g3 := Deque.append (ReplayBuffer.maxlen (base s2))
               (<[1%nat := 2]> (replicate B 1)) (maxPriority s2)).
  destruct HI1 as (_ & _ & Hls1 & Hlm1 & _).
  pose proof (treeCapacity_ge B) as Hcap.
  assert (Hg3 : g3 !! 1%nat = Some 1).
  { unfold g3, Deque.append. rewrite Hs2. simpl.
    rewrite Hml1, length_insert, length_replicate, Nat.ltb_irrefl.
    rewrite lookup_drop. simpl. rewrite lookup_app_l
      by (rewrite length_insert, length_replicate; lia).
    rewrite list_lookup_insert_ne by lia. apply lookup_replicate. split; [done|lia]. }
  assert (Hs3 : sumTree s3 !! 1%nat = Some (fpow 2 a)
                /\ minTree s3 !! 1%nat = Some (Fin (fpow 2 a))).
  { unfold s3. rewrite Hs2. simpl. rewrite Hn1, Ha1.
    change (Z.to_nat 1) with 1%nat.
    split; (rewrite list_lookup_insert_ne by lia);
      (rewrite list_lookup_insert_eq by lia); done. }
  assert (Hne : fpow 2 a <> fpow 1 a).
  { rewrite fpow_one. pose proof (fpow_two_gt a Ha). lra. }
  exists s3, g3. split_and!.
  - rewrite run_assigned_app, Hrun1. cbn.
    unfold updatePriorities. simpl. rewrite E2. cbn.
    rewrite Hadd3. cbn. reflexivity.
  - unfold s3. rewrite Hs2. simpl. unfold Deque.append. rewrite Hml1, Hmem1.
    rewrite Hes, Nat.ltb_irrefl, lookup_drop. simpl.
    apply lookup_app_l. lia.
  - unfold s3. rewrite Hs2. simpl. unfold Deque.append. rewrite Hml1, Hmem1.
    rewrite Hes, Nat.ltb_irrefl, lookup_drop.
    rewrite lookup_app_r by lia. replace (1 + (B - 1) - length es)%nat with 0%nat by lia.
    destruct e; reflexivity.
  - unfold s3. rewrite Hs2. simpl. rewrite Hn1. apply Nat.mod_small. lia.
  - exact Hg3.
  - apply Hs3.
  - apply Hs3.
  - exact Hne.
  - intros [_ Hm]. destruct (Hm 1%nat 1 Hg3) as [Hbad _].
    destruct Hs3 as [Hgood _]. rewrite Hgood in Hbad.
    inversion Hbad as [Heq]. unfold s3 in Heq. rewrite Hs2 in Heq. simpl in Heq.
    rewrite Ha1 in Heq. done.
Qed.

(** C1.  With the constants of the module ([BUFFER_SIZE = 100000], the
    agent's [alpha = 0.6]): after [BUFFER_SIZE] calls of [addMem], one
    [updatePriorities([1], [2.0])] and one more [addMem], the write slot
    has advanced to 1 as the spec says, the newest transition is at
    position [BUFFER_SIZE - 1] of [memBuff], position 1 holds the
    transition inserted third, whose priority is still the [1.0] it
    entered with, yet leaf 1 of both trees holds [2.0 ** alpha]: the
    leaves no longer hold the priorities of the transitions stored at
    their positions. *)
Theorem C1_leaf_of_another_transition_after_wrap :
  let B := Defaults.BUFFER_SIZE in
  let es := map transition (seq 0 B) in
  exists s g,
    run_assigned B (init B Defaults.BATCH_SIZE Defaults.ALPHA) []
      (map AddMem es ++ [UpdatePriorities [1%Z] [2]; AddMem (transition B)])
    = Some (s, g)
    /\ ReplayBuffer.memBuff (base s) !! 1%nat = Some (transition 2)
    /\ ReplayBuffer.memBuff (base s) !! (B - 1)%nat = Some (transition B)
    /\ nextIdx s = 1%nat
    /\ g !! 1%nat = Some 1
    /\ sumTree s !! 1%nat = Some (fpow 2 Defaults.ALPHA)
    /\ minTree s !! 1%nat = Some (Fin (fpow 2 Defaults.ALPHA))
    /\ fpow 2 Defaults.ALPHA <> fpow 1 Defaults.ALPHA
    /\ ~ leaves_match s g.
Proof.
  intros B es.
  assert (HB : (3 <= B)%nat) by (unfold B, Defaults.BUFFER_SIZE; lia).
  assert (Hes : length es = B) by (unfold es; rewrite length_map, length_seq; done).
  assert (Ha : 0 < Defaults.ALPHA) by (unfold Defaults.ALPHA; lra).
  destruct (misaligned_after_wrap B Defaults.BATCH_SIZE Defaults.ALPHA es
              (transition B) HB Ha Hes)
    as (s & g & Hrun & H1 & H2 & H3 & H4 & H5 & H6 & H7 & H8).
  exists s, g. split_and!; try done.
Qed.

End AlignmentFacts.

(** ** Polyak averaging *)

Module SoftUpdateFacts.

Lemma blend_lookup TAU (t l : list R) j x y :
  t !! j = Some x -> l !! j = Some y ->
  zip_with (fun t l => TAU * l + (1 - TAU) * t) t l !! j
  = Some (TAU * y + (1 - TAU) * x).
Proof. intros Hx Hy. rewrite lookup_zip_with, Hx, Hy. reflexivity. Qed.

Lemma blend_zero (t l : list R) :
  length t = length l ->
  zip_with (fun t l => 0 * l + (1 - 0) * t) t l = t.
Proof.
  revert l. induction t as [|x t IH]; intros [|y l] Hlen; simpl in *; try done.
  f_equal; [lra|]. apply IH. lia.
Qed.

Lemma blend_one (t l : list R) :
  length t = length l ->
  zip_with (fun t l => 1 * l + (1 - 1) * t) t l = l.
Proof.
  revert l. induction t as [|x t IH]; intros [|y l] Hlen; simpl in *; try done.
  f_equal; [lra|]. apply IH. lia.
Qed.

Lemma softUpdate_same_shape TAU targetModel localModel :
  same_shape targetModel localModel ->
  fst (softUpdate TAU targetModel localModel)
  = zip_with (fun targetParams localParams =>
                zip_with (fun t l => TAU * l + (1 - TAU) * t) targetParams localParams)
             targetModel localModel.
Proof.
  intros Hs. unfold softUpdate. simpl.
  rewrite drop_ge; [apply app_nil_r|].
  apply Forall2_length in Hs. lia.
Qed.

(** C8.  For two networks of one architecture, [softUpdate] leaves the
    local network as it was and replaces every entry of every target
    tensor by [TAU * local + (1 - TAU) * target_old] (the target keeps its
    shape); with [TAU = 0] the target parameters are unchanged, and with
    [TAU = 1] they become the local parameters. *)
Theorem C8_softUpdate (TAU : R) (targetModel localModel : Params) :
  same_shape targetModel localModel ->
  let targetNew := fst (softUpdate TAU targetModel localModel) in
  snd (softUpdate TAU targetModel localModel) = localModel
  /\ same_shape targetNew targetModel
  /\ (forall i j targetParams localParams t l,
        targetModel !! i = Some targetParams -> localModel !! i = Some localParams ->
        targetParams !! j = Some t -> localParams !! j = Some l ->
        exists newParams,
          targetNew !! i = Some newParams
          /\ newParams !! j = Some (TAU * l + (1 - TAU) * t))
  /\ (TAU = 0 -> targetNew = targetModel)
  /\ (TAU = 1 -> targetNew = localModel).
Proof.
  intros Hs targetNew. unfold targetNew. rewrite (softUpdate_same_shape _ _ _ Hs).
  split_and!.
  - reflexivity.
  - unfold same_shape in *. induction Hs as [|t l ts ls Htl Hs IH]; simpl.
    + constructor.
    + constructor; [|exact IH]. rewrite length_zip_with. lia.
  - intros i j tp lp t l Hi Hli Hj Hlj.
    eexists. rewrite lookup_zip_with, Hi, Hli. cbn. split; [reflexivity|].
    apply blend_lookup; assumption.
  - intros ->. induction Hs as [|t l ts ls Htl Hs IH]; simpl; [done|].
    f_equal; [apply blend_zero, Htl|exact IH].
  - intros ->. induction Hs as [|t l ts ls Htl Hs IH]; simpl; [done|].
    f_equal; [apply blend_one, Htl|exact IH].
Qed.

End SoftUpdateFacts.

(** ** TD3Agent *)

Module TD3Facts.
Import TD3Agent.

Section WithCollaborators.
Variables BUFFER_SIZE BATCH_SIZE LEARN_EVERY : nat.
Variables UPDATE_CRITIC_TARGET_STEPS UPDATE_ACTOR_TARGET_STEPS TRAIN_ACTOR_STEPS : nat.
Variables GAMMA TAU : R.
Variable Optimizer : Type.
Variable actorForward : Params -> Tensor -> Tensor.
Variable criticForward : Params -> Tensor -> Tensor -> Tensor * Tensor.
Variable criticOptimStep :
  Optimizer -> Params -> ReplayBuffer.Batch -> Tensor -> Optimizer * Params.
Variable actorOptimStep :
  Optimizer -> Params -> Params -> Tensor -> Optimizer * Params.

Local Abbreviation agent := (TD3Agent.t Optimizer).
Local Abbreviation bellmanTargets := (TD3Agent.bellmanTargets GAMMA actorForward criticForward).
Local Abbreviation learn :=
  (TD3Agent.learn UPDATE_CRITIC_TARGET_STEPS UPDATE_ACTOR_TARGET_STEPS TRAIN_ACTOR_STEPS
     GAMMA TAU actorForward criticForward criticOptimStep actorOptimStep).
Local Abbreviation stepWith :=
  (TD3Agent.stepWith BATCH_SIZE LEARN_EVERY
     UPDATE_CRITIC_TARGET_STEPS UPDATE_ACTOR_TARGET_STEPS TRAIN_ACTOR_STEPS
     GAMMA TAU actorForward criticForward criticOptimStep actorOptimStep).
Local Abbreviation steps :=
  (TD3Agent.steps BATCH_SIZE LEARN_EVERY
     UPDATE_CRITIC_TARGET_STEPS UPDATE_ACTOR_TARGET_STEPS TRAIN_ACTOR_STEPS
     GAMMA TAU actorForward criticForward criticOptimStep actorOptimStep).

Lemma actionNoise_entry (a : agent) (gauss nextActions : Tensor) r k grow nrow g x :
  gauss !! r = Some grow -> grow !! k = Some g ->
  nextActions !! r = Some nrow -> nrow !! k = Some x ->
  (k < actionSize a)%nat ->
  exists row,
    actionNoise a gauss nextActions !! r = Some row
    /\ row !! k = Some (noisyOf a g x).
Proof.
  intros Hgr Hg Hnr Hx Hk. unfold actionNoise, t_rows, t_zip, t_map.
  eexists. split.
  - rewrite list_lookup_fmap, list_lookup_fmap, lookup_zip_with, Hnr. cbn.
    rewrite list_lookup_fmap, list_lookup_fmap, list_lookup_fmap, list_lookup_fmap, Hgr.
    cbn. reflexivity.
  - assert (Hrange : zip_with Rminus (replicate (actionSize a) (snd (actionBounds a)))
                       (replicate (actionSize a) (fst (actionBounds a))) !! k
                     = Some (snd (actionBounds a) - fst (actionBounds a))).
    { rewrite lookup_zip_with, !lookup_replicate_2 by done. reflexivity. }
    repeat first
      [ rewrite Hrange | rewrite Hg | rewrite Hx
      | rewrite lookup_replicate_2 by done
      | rewrite lookup_zip_with | rewrite list_lookup_fmap | progress cbn ].
    reflexivity.
Qed.

Lemma bellman_entry (a : agent) (experiences : ReplayBuffer.Batch) (gauss : Tensor)
  r rw qa qb d :
  let noisy :=
    actionNoise a gauss
      (actorForward (QNet_Actor_Target a) (ReplayBuffer.nextStates experiences)) in
  let Q := criticForward (QNet_Critic_Target a)
             (ReplayBuffer.nextStates experiences) noisy in
  ReplayBuffer.rewards experiences !! r = Some [rw] ->
  fst Q !! r = Some [qa] -> snd Q !! r = Some [qb] ->
  ReplayBuffer.dones experiences !! r = Some [d] ->
  bellmanTargets a experiences gauss !! r
  = Some [rw + GAMMA * Rmin qa qb * (1 - d)].
Proof.
  intros noisy Q Hrw Hqa Hqb Hd. unfold TD3Agent.bellmanTargets.
  fold noisy. fold Q. destruct Q as [QA QB]. simpl in Hqa, Hqb.
  unfold t_zip, t_map.
  rewrite lookup_zip_with, Hrw. cbn.
  rewrite lookup_zip_with, !list_lookup_fmap, lookup_zip_with, Hqa, Hqb, Hd. cbn.
  reflexivity.
Qed.

(** C6.  In [learn], row [r] of the Bellman targets is
    [reward + GAMMA * min(Q_A, Q_B) * (1 - done)], where [Q_A], [Q_B] are
    what the target critic returns for the next states and the noised
    next actions.  Each noised action entry is the target actor's entry
    [x] plus the noise [g * noiseRatio * (max - min)], the noise first
    clipped to [[min * noiseClipRatio, max * noiseClipRatio]] and the sum
    then to [[min, max]].  Where [Q_A > Q_B] the target is the one derived
    from [Q_B]. *)
Theorem C6_bellman_target (a : agent) (experiences : ReplayBuffer.Batch)
  (gauss : Tensor) :
  let actionsNext :=
    actorForward (QNet_Actor_Target a) (ReplayBuffer.nextStates experiences) in
  let noisy := actionNoise a gauss actionsNext in
  let Q := criticForward (QNet_Critic_Target a)
             (ReplayBuffer.nextStates experiences) noisy in
  fst (actionBounds a) <= snd (actionBounds a) ->
  0 <= noiseClipRatio a ->
  (forall r rw qa qb d,
     ReplayBuffer.rewards experiences !! r = Some [rw] ->
     fst Q !! r = Some [qa] -> snd Q !! r = Some [qb] ->
     ReplayBuffer.dones experiences !! r = Some [d] ->
     bellmanTargets a experiences gauss !! r
     = Some [rw + GAMMA * Rmin qa qb * (1 - d)]
     /\ (qa > qb ->
         bellmanTargets a experiences gauss !! r = Some [rw + GAMMA * qb * (1 - d)]))
  /\ (forall r k grow nrow g x,
        gauss !! r = Some grow -> grow !! k = Some g ->
        actionsNext !! r = Some nrow -> nrow !! k = Some x ->
        (k < actionSize a)%nat ->
        exists row,
          noisy !! r = Some row
          /\ row !! k = Some (noisyOf a g x)
          /\ fst (actionBounds a) * noiseClipRatio a <= noiseOf a g
             <= snd (actionBounds a) * noiseClipRatio a
          /\ fst (actionBounds a) <= noisyOf a g x <= snd (actionBounds a)).
Proof.
  intros actionsNext noisy Q Hbounds Hclip. split.
  - intros r rw qa qb d Hrw Hqa Hqb Hd.
    pose proof (bellman_entry a experiences gauss r rw qa qb d Hrw Hqa Hqb Hd) as Ht.
    split; [exact Ht|]. intros Hgt. rewrite Ht. rewrite Rmin_right by lra. reflexivity.
  - intros r k grow nrow g x Hgr Hg Hnr Hx Hk.
    destruct (actionNoise_entry a gauss actionsNext r k grow nrow g x Hgr Hg Hnr Hx Hk)
      as (row & Hrow & Hentry).
    exists row. split_and!; try done.
    + unfold noiseOf. apply Rmax_r.
    + unfold noiseOf. apply Rmax_lub; [apply Rmin_r|].
      apply Rmult_le_compat_r; assumption.
    + unfold noisyOf. apply Rmax_r.
    + unfold noisyOf. apply Rmax_lub; [apply Rmin_r|assumption].
Qed.

(** *** The update schedule *)

Lemma pymod_Some a b r : pymod a b = Some r -> b <> 0%nat /\ r = (a mod b)%nat.
Proof.
  unfold pymod. destruct (Nat.eqb_spec b 0); [discriminate|].
  intros [= <-]. done.
Qed.

(** [learn] touches each network only under its own test on [stepNum]. *)
Lemma learn_spec (a a' : agent) experiences gauss :
  learn a experiences gauss = Some a' ->
  stepNum a' = stepNum a
  /\ replayMem a' = replayMem a
  /\ QNet_Critic_Local a'
     = snd (criticOptimStep (Optim_Critic a) (QNet_Critic_Local a) experiences
              (bellmanTargets a experiences gauss))
  /\ QNet_Actor_Local a'
     = (if (stepNum a mod TRAIN_ACTOR_STEPS =? 0)%nat
        then snd (actorOptimStep (Optim_Actor a) (QNet_Actor_Local a)
                    (QNet_Critic_Local a') (ReplayBuffer.states experiences))
        else QNet_Actor_Local a)
  /\ QNet_Critic_Target a'
     = (if (stepNum a mod UPDATE_CRITIC_TARGET_STEPS =? 0)%nat
        then fst (softUpdate TAU (QNet_Critic_Target a) (QNet_Critic_Local a'))
        else QNet_Critic_Target a)
  /\ QNet_Actor_Target a'
     = (if (stepNum a mod UPDATE_ACTOR_TARGET_STEPS =? 0)%nat
        then fst (softUpdate TAU (QNet_Actor_Target a) (QNet_Actor_Local a'))
        else QNet_Actor_Target a).
Proof.
  unfold TD3Agent.learn.
  destruct (criticOptimStep _ _ _ _) as [optC criticLocal] eqn:EC.
  destruct (pymod (stepNum a) TRAIN_ACTOR_STEPS) as [rA|] eqn:EA; [|discriminate].
  cbn. apply pymod_Some in EA as [_ ->].
  destruct (if (stepNum a mod TRAIN_ACTOR_STEPS =? 0)%nat then _ else _)
    as [optA actorLocal] eqn:EAL.
  destruct (pymod (stepNum a) UPDATE_CRITIC_TARGET_STEPS) as [rC|] eqn:ECT; [|discriminate].
  cbn. apply pymod_Some in ECT as [_ ->].
  destruct (pymod (stepNum a) UPDATE_ACTOR_TARGET_STEPS) as [rT|] eqn:EAT; [|discriminate].
  cbn. apply pymod_Some in EAT as [_ ->].
  intros [= <-]. simpl. split_and!; try done.
  destruct (stepNum a mod TRAIN_ACTOR_STEPS =? 0)%nat.
  - rewrite EAL. reflexivity.
  - inversion EAL. reflexivity.
Qed.

(** One call of [step]: the counter goes up by one, and the networks are
    as before unless [learn] ran, which needs the new count to be a
    multiple of [LEARN_EVERY] and more than [BATCH_SIZE] stored
    transitions. *)
Lemma step_spec (a a' : agent) (i : StepInput) :
  stepWith a i = Some a' ->
  let n := (stepNum a + 1)%nat in
  let learns :=
    ((n mod LEARN_EVERY =? 0)%nat
     && (BATCH_SIZE <? ReplayBuffer.len (replayMem a'))%nat)%bool in
  stepNum a' = n
  /\ replayMem a' = ReplayBuffer.addExp (replayMem a) (in_exp i)
  /\ QNet_Actor_Local a'
     = (if (learns && (n mod TRAIN_ACTOR_STEPS =? 0)%nat)%bool
        then QNet_Actor_Local a' else QNet_Actor_Local a)
  /\ QNet_Critic_Target a'
     = (if (learns && (n mod UPDATE_CRITIC_TARGET_STEPS =? 0)%nat)%bool
        then fst (softUpdate TAU (QNet_Critic_Target a) (QNet_Critic_Local a'))
        else QNet_Critic_Target a)
  /\ QNet_Actor_Target a'
     = (if (learns && (n mod UPDATE_ACTOR_TARGET_STEPS =? 0)%nat)%bool
        then fst (softUpdate TAU (QNet_Actor_Target a) (QNet_Actor_Local a'))
        else QNet_Actor_Target a)
  /\ (learns = false -> QNet_Critic_Local a' = QNet_Critic_Local a).
Proof.
  intros Hstep n learns. subst n learns.
  unfold TD3Agent.stepWith, TD3Agent.step in Hstep.
  fold (ReplayBuffer.addExp (replayMem a) (in_exp i)) in Hstep.
  set (mem := ReplayBuffer.addExp (replayMem a) (in_exp i)) in *.
  cbn [stepNum] in Hstep.
  destruct (pymod (stepNum a + 1) LEARN_EVERY) as [r|] eqn:ER; [|discriminate].
  cbn [mbind option_bind] in Hstep. apply pymod_Some in ER as [_ ->].
  destruct ((stepNum a + 1) mod LEARN_EVERY =? 0)%nat eqn:H0.
  2:{ injection Hstep as <-. cbn [stepNum replayMem QNet_Actor_Local
        QNet_Actor_Target QNet_Critic_Local QNet_Critic_Target andb].
      split_and!; done. }
  destruct (BATCH_SIZE <? ReplayBuffer.len mem)%nat eqn:Hb.
  2:{ injection Hstep as <-. cbn [stepNum replayMem QNet_Actor_Local
        QNet_Actor_Target QNet_Critic_Local QNet_Critic_Target andb].
      rewrite Hb. cbn [andb]. split_and!; done. }
  destruct (ReplayBuffer.memSample mem (in_picks i)) as [[experienceSample mem']|];
    [|discriminate].
  cbn [mbind option_bind] in Hstep. apply learn_spec in Hstep.
  cbn [stepNum replayMem QNet_Actor_Local QNet_Actor_Target QNet_Critic_Local
       QNet_Critic_Target Optim_Actor Optim_Critic] in Hstep.
  destruct Hstep as (Hn & Hm & Hcl & Hal & Hct & Hat).
  rewrite Hm, Hb. cbn [andb].
  split_and!; try done.
  revert Hal. destruct ((stepNum a + 1) mod TRAIN_ACTOR_STEPS =? 0)%nat; intros Hal;
    [reflexivity|exact Hal].
Qed.

Lemma step_without_learn (a : agent) (i : StepInput) :
  LEARN_EVERY <> 0%nat ->
  ((stepNum a + 1) mod LEARN_EVERY <> 0
   \/ ReplayBuffer.len (ReplayBuffer.addExp (replayMem a) (in_exp i)) <= BATCH_SIZE)%nat ->
  stepWith a i = Some (stored a (in_exp i)).
Proof.
  intros HLE Hno. unfold TD3Agent.stepWith, TD3Agent.step, stored.
  fold (ReplayBuffer.addExp (replayMem a) (in_exp i)).
  cbn [stepNum]. unfold pymod.
  destruct (Nat.eqb_spec LEARN_EVERY 0); [done|]. cbn [mbind option_bind].
  destruct (Nat.eqb_spec ((stepNum a + 1) mod LEARN_EVERY) 0) as [H0|H0]; [|done].
  destruct (Nat.ltb_spec BATCH_SIZE
              (ReplayBuffer.len (ReplayBuffer.addExp (replayMem a) (in_exp i))));
    [lia|done].
Qed.

Lemma step_keeps_critic_target (b b' : agent) j :
  stepWith b j = Some b' ->
  ((stepNum b + 1) mod LEARN_EVERY <> 0
   \/ (stepNum b + 1) mod UPDATE_CRITIC_TARGET_STEPS <> 0)%nat ->
  QNet_Critic_Target b' = QNet_Critic_Target b.
Proof.
  intros Hj Hoff. pose proof (step_spec b b' j Hj) as (_ & _ & _ & -> & _).
  destruct Hoff as [Hoff|Hoff]; apply Nat.eqb_neq in Hoff; rewrite Hoff;
    [reflexivity|rewrite andb_false_r; reflexivity].
Qed.

Lemma step_keeps_actor_target (b b' : agent) j :
  stepWith b j = Some b' ->
  ((stepNum b + 1) mod LEARN_EVERY <> 0
   \/ (stepNum b + 1) mod UPDATE_ACTOR_TARGET_STEPS <> 0)%nat ->
  QNet_Actor_Target b' = QNet_Actor_Target b.
Proof.
  intros Hj Hoff. pose proof (step_spec b b' j Hj) as (_ & _ & _ & _ & -> & _).
  destruct Hoff as [Hoff|Hoff]; apply Nat.eqb_neq in Hoff; rewrite Hoff;
    [reflexivity|rewrite andb_false_r; reflexivity].
Qed.

Lemma step_keeps_actor_local (b b' : agent) j :
  stepWith b j = Some b' ->
  ((stepNum b + 1) mod LEARN_EVERY <> 0
   \/ (stepNum b + 1) mod TRAIN_ACTOR_STEPS <> 0)%nat ->
  QNet_Actor_Local b' = QNet_Actor_Local b.
Proof.
  intros Hj Hoff. pose proof (step_spec b b' j Hj) as (_ & _ & Hal & _).
  rewrite Hal.
  destruct Hoff as [Hoff|Hoff]; apply Nat.eqb_neq in Hoff; rewrite Hoff;
    [reflexivity|rewrite andb_false_r; reflexivity].
Qed.

(** Over a run of [step] calls the networks keep their parameters as long
    as no step count on the way is a multiple of both [LEARN_EVERY] and
    the interval of the network. *)
Lemma steps_spec (a a' : agent) (inputs : list StepInput) :
  steps a inputs = Some a' ->
  stepNum a' = (stepNum a + length inputs)%nat
  /\ (forall every get,
        (forall b b' j, stepWith b j = Some b' ->
           ((stepNum b + 1) mod LEARN_EVERY <> 0
            \/ (stepNum b + 1) mod every <> 0)%nat -> get b' = get b :> Params) ->
        (forall k, (stepNum a < k <= stepNum a + length inputs)%nat ->
           (k mod LEARN_EVERY <> 0 \/ k mod every <> 0)%nat) ->
        get a' = get a).
Proof.
  revert a. induction inputs as [|i inputs IH]; intros a H; simpl in H.
  - injection H as <-. split; [simpl; lia|]. intros. reflexivity.
  - destruct (stepWith a i) as [a1|] eqn:E; [|discriminate]. cbn in H.
    pose proof (step_spec a a1 i E) as (Hn1 & _).
    destruct (IH a1 H) as [Hn Hkeep]. split; [simpl; lia|].
    intros every get Hget Hk.
    rewrite (Hkeep every get Hget).
    + apply (Hget a a1 i E). apply Hk. simpl. lia.
    + intros k Hrange. apply Hk. simpl. lia.
Qed.

Lemma bool_cases (b c : bool) : (b && c)%bool = true -> b = true /\ c = true.
Proof. destruct b, c; simpl; auto. Qed.

(** C7 (amended).  After any run of [step] calls that returns, the step
    counter has advanced by the number of calls, and the target critic,
    the target actor and the local actor each have the parameters they
    started with unless some step count reached on the way is a multiple
    both of [LEARN_EVERY] and of the network's own interval
    ([UPDATE_CRITIC_TARGET_STEPS], [UPDATE_ACTOR_TARGET_STEPS],
    [TRAIN_ACTOR_STEPS]).  On a single call the targets, when they change,
    become the Polyak blend with the local network, which also needs more
    than [BATCH_SIZE] stored transitions. *)
Theorem C7_update_cadence (a a' : agent) (inputs : list StepInput) :
  steps a inputs = Some a' ->
  let reached k := (stepNum a < k <= stepNum a + length inputs)%nat in
  let off every := forall k, reached k ->
                     (k mod LEARN_EVERY <> 0 \/ k mod every <> 0)%nat in
  stepNum a' = (stepNum a + length inputs)%nat
  /\ (off UPDATE_CRITIC_TARGET_STEPS -> QNet_Critic_Target a' = QNet_Critic_Target a)
  /\ (off UPDATE_ACTOR_TARGET_STEPS -> QNet_Actor_Target a' = QNet_Actor_Target a)
  /\ (off TRAIN_ACTOR_STEPS -> QNet_Actor_Local a' = QNet_Actor_Local a)
  /\ (length inputs = 1%nat ->
      (QNet_Critic_Target a' = QNet_Critic_Target a
       \/ ((stepNum a' mod LEARN_EVERY = 0 /\ stepNum a' mod UPDATE_CRITIC_TARGET_STEPS = 0
            /\ BATCH_SIZE < ReplayBuffer.len (replayMem a'))%nat
           /\ QNet_Critic_Target a'
              = fst (softUpdate TAU (QNet_Critic_Target a) (QNet_Critic_Local a'))))
      /\ (QNet_Actor_Target a' = QNet_Actor_Target a
          \/ ((stepNum a' mod LEARN_EVERY = 0 /\ stepNum a' mod UPDATE_ACTOR_TARGET_STEPS = 0
               /\ BATCH_SIZE < ReplayBuffer.len (replayMem a'))%nat
              /\ QNet_Actor_Target a'
                 = fst (softUpdate TAU (QNet_Actor_Target a) (QNet_Actor_Local a'))))).
Proof.
  intros Hrun reached off. destruct (steps_spec a a' inputs Hrun) as [Hn Hkeep].
  split_and!.
  - exact Hn.
  - apply (Hkeep UPDATE_CRITIC_TARGET_STEPS QNet_Critic_Target).
    intros b b' j Hj Hno. eapply step_keeps_critic_target; eauto.
  - apply (Hkeep UPDATE_ACTOR_TARGET_STEPS QNet_Actor_Target).
    intros b b' j Hj Hno. eapply step_keeps_actor_target; eauto.
  - apply (Hkeep TRAIN_ACTOR_STEPS QNet_Actor_Local).
    intros b b' j Hj Hno. eapply step_keeps_actor_local; eauto.
  - intros Hlen. destruct inputs as [|i [|? ?]]; try discriminate. simpl in Hrun.
    destruct (stepWith a i) as [a1|] eqn:E; [|discriminate]. cbn in Hrun.
    injection Hrun as ->.
    pose proof (step_spec a a' i E) as (Hn1 & _ & _ & Hct & Hat & _).
    rewrite <- Hn1 in Hct, Hat.
    split.
    + destruct (_ && _ && (_ mod UPDATE_CRITIC_TARGET_STEPS =? 0)%nat)%bool eqn:Ec
        in Hct; [|by left].
      right. apply bool_cases in Ec as [Ec Ec3]. apply bool_cases in Ec as [Ec1 Ec2].
      apply Nat.eqb_eq in Ec1, Ec3. apply Nat.ltb_lt in Ec2. done.
    + destruct (_ && _ && (_ mod UPDATE_ACTOR_TARGET_STEPS =? 0)%nat)%bool eqn:Ec
        in Hat; [|by left].
      right. apply bool_cases in Ec as [Ec Ec3]. apply bool_cases in Ec as [Ec1 Ec2].
      apply Nat.eqb_eq in Ec1, Ec3. apply Nat.ltb_lt in Ec2. done.
Qed.

End WithCollaborators.

(** *** With the constants of the module *)

Section Defaults.
Variable Optimizer : Type.
Variable actorForward : Params -> Tensor -> Tensor.
Variable criticForward : Params -> Tensor -> Tensor -> Tensor * Tensor.
Variable criticOptimStep :
  Optimizer -> Params -> ReplayBuffer.Batch -> Tensor -> Optimizer * Params.
Variable actorOptimStep :
  Optimizer -> Params -> Params -> Tensor -> Optimizer * Params.

Local Abbreviation steps :=
  (TD3Agent.steps Defaults.BATCH_SIZE Defaults.LEARN_EVERY
     Defaults.UPDATE_CRITIC_TARGET_STEPS Defaults.UPDATE_ACTOR_TARGET_STEPS
     Defaults.TRAIN_ACTOR_STEPS Defaults.GAMMA Defaults.TAU
     actorForward criticForward criticOptimStep actorOptimStep).

(** [LEARN_EVERY = 4] and the three intervals of [5]: the first step on
    which a target network or the local actor can change is step 20. *)
Lemma nothing_moves_before_step_20 (a a' : TD3Agent.t Optimizer) inputs :
  stepNum a = 0%nat -> (length inputs < 20)%nat ->
  steps a inputs = Some a' ->
  QNet_Critic_Target a' = QNet_Critic_Target a
  /\ QNet_Actor_Target a' = QNet_Actor_Target a
  /\ QNet_Actor_Local a' = QNet_Actor_Local a.
Proof.
  intros H0 Hlen Hrun.
  destruct (steps_spec _ _ _ _ _ _ _ _ _ _ _ _ a a' inputs Hrun) as [_ Hkeep].
  assert (Hoff : forall k, (stepNum a < k <= stepNum a + length inputs)%nat ->
            (k mod Defaults.LEARN_EVERY <> 0 \/ k mod 5 <> 0)%nat).
  { intros k Hk. unfold Defaults.LEARN_EVERY. rewrite H0 in Hk.
    destruct (Nat.eq_dec (k mod 4)%nat 0%nat) as [H4|H4]; [|by left]. right.
    intros H5. apply Nat.Div0.mod_divides in H4 as [q4 ->].
    apply Nat.Div0.mod_divides in H5 as [q5 H5]. lia. }
  split_and!.
  - apply (Hkeep Defaults.UPDATE_CRITIC_TARGET_STEPS QNet_Critic_Target); [|exact Hoff].
    intros b b' j Hj Hno. eapply step_keeps_critic_target; eauto.
  - apply (Hkeep Defaults.UPDATE_ACTOR_TARGET_STEPS QNet_Actor_Target); [|exact Hoff].
    intros b b' j Hj Hno. eapply step_keeps_actor_target; eauto.
  - apply (Hkeep Defaults.TRAIN_ACTOR_STEPS QNet_Actor_Local); [|exact Hoff].
    intros b b' j Hj Hno. eapply step_keeps_actor_local; eauto.
Qed.

End Defaults.

Lemma len_addExp_le b e :
  (ReplayBuffer.len (ReplayBuffer.addExp b e) <= S (ReplayBuffer.len b))%nat.
Proof.
  unfold ReplayBuffer.addExp. rewrite ReachFacts.len_addMem.
  destruct (_ <? _)%nat; lia.
Qed.

Local Abbreviation toySteps :=
  (TD3Agent.steps Defaults.BATCH_SIZE Defaults.LEARN_EVERY
     Defaults.UPDATE_CRITIC_TARGET_STEPS Defaults.UPDATE_ACTOR_TARGET_STEPS
     Defaults.TRAIN_ACTOR_STEPS Defaults.GAMMA Defaults.TAU
     Toy.actorForward Toy.criticForward Toy.criticOptimStep Toy.actorOptimStep).

(** C7, as stated, fails: with [UPDATE_CRITIC_TARGET_STEPS = 5] (and
    [LEARN_EVERY = 4], [BATCH_SIZE = 4]) the fifth call of [step] returns
    with the target critic exactly as it was after the fourth. *)
Lemma C7_target_critic_same_on_step_5 :
  exists a4 a5,
    toySteps toyAgent (Toy.inputs 4) = Some a4
    /\ toySteps toyAgent (Toy.inputs 5) = Some a5
    /\ stepNum a4 = 4%nat /\ stepNum a5 = 5%nat
    /\ QNet_Critic_Target a5 = QNet_Critic_Target a4.
Proof.
  set (a1 := stored toyAgent (transition 0)).
  set (a2 := stored a1 (transition 1)).
  set (a3 := stored a2 (transition 2)).
  set (a4 := stored a3 (transition 3)).
  set (a5 := stored a4 (transition 4)).
  assert (HLE : Defaults.LEARN_EVERY <> 0%nat) by (unfold Defaults.LEARN_EVERY; lia).
  assert (Hl0 : ReplayBuffer.len (replayMem toyAgent) = 0%nat) by reflexivity.
  pose proof (len_addExp_le (replayMem toyAgent) (transition 0)) as Hl1.
  pose proof (len_addExp_le (replayMem a1) (transition 1)) as Hl2.
  pose proof (len_addExp_le (replayMem a2) (transition 2)) as Hl3.
  pose proof (len_addExp_le (replayMem a3) (transition 3)) as Hl4.
  change (ReplayBuffer.addExp (replayMem toyAgent) (transition 0)) with (replayMem a1) in *.
  change (ReplayBuffer.addExp (replayMem a1) (transition 1)) with (replayMem a2) in *.
  change (ReplayBuffer.addExp (replayMem a2) (transition 2)) with (replayMem a3) in *.
  change (ReplayBuffer.addExp (replayMem a3) (transition 3)) with (replayMem a4) in *.
  assert (H1 : TD3Agent.stepWith Defaults.BATCH_SIZE Defaults.LEARN_EVERY
                 Defaults.UPDATE_CRITIC_TARGET_STEPS Defaults.UPDATE_ACTOR_TARGET_STEPS
                 Defaults.TRAIN_ACTOR_STEPS Defaults.GAMMA Defaults.TAU
                 Toy.actorForward Toy.criticForward Toy.criticOptimStep
                 Toy.actorOptimStep toyAgent (Toy.input 0) = Some a1).
  { apply step_without_learn; [exact HLE|]. left. vm_compute. lia. }
  assert (H2 : TD3Agent.stepWith Defaults.BATCH_SIZE Defaults.LEARN_EVERY
                 Defaults.UPDATE_CRITIC_TARGET_STEPS Defaults.UPDATE_ACTOR_TARGET_STEPS
                 Defaults.TRAIN_ACTOR_STEPS Defaults.GAMMA Defaults.TAU
                 Toy.actorForward Toy.criticForward Toy.criticOptimStep
                 Toy.actorOptimStep a1 (Toy.input 1) = Some a2).
  { apply step_without_learn; [exact HLE|]. left. vm_compute. lia. }
  assert (H3 : TD3Agent.stepWith Defaults.BATCH_SIZE Defaults.LEARN_EVERY
                 Defaults.UPDATE_CRITIC_TARGET_STEPS Defaults.UPDATE_ACTOR_TARGET_STEPS
                 Defaults.TRAIN_ACTOR_STEPS Defaults.GAMMA Defaults.TAU
                 Toy.actorForward Toy.criticForward Toy.criticOptimStep
                 Toy.actorOptimStep a2 (Toy.input 2) = Some a3).
  { apply step_without_learn; [exact HLE|]. left. vm_compute. lia. }
  assert (H4 : TD3Agent.stepWith Defaults.BATCH_SIZE Defaults.LEARN_EVERY
                 Defaults.UPDATE_CRITIC_TARGET_STEPS Defaults.UPDATE_ACTOR_TARGET_STEPS
                 Defaults.TRAIN_ACTOR_STEPS Defaults.GAMMA Defaults.TAU
                 Toy.actorForward Toy.criticForward Toy.criticOptimStep
                 Toy.actorOptimStep a3 (Toy.input 3) = Some a4).
  { apply step_without_learn; [exact HLE|]. right.
    change (in_exp (Toy.input 3)) with (transition 3).
    change (ReplayBuffer.addExp (replayMem a3) (transition 3)) with (replayMem a4).
    unfold Defaults.BATCH_SIZE. lia. }
  assert (H5 : TD3Agent.stepWith Defaults.BATCH_SIZE Defaults.LEARN_EVERY
                 Defaults.UPDATE_CRITIC_TARGET_STEPS Defaults.UPDATE_ACTOR_TARGET_STEPS
                 Defaults.TRAIN_ACTOR_STEPS Defaults.GAMMA Defaults.TAU
                 Toy.actorForward Toy.criticForward Toy.criticOptimStep
                 Toy.actorOptimStep a4 (Toy.input 4) = Some a5).
  { apply step_without_learn; [exact HLE|]. left. vm_compute. lia. }
  exists a4, a5. split_and!.
  - change (Toy.inputs 4) with [Toy.input 0; Toy.input 1; Toy.input 2; Toy.input 3].
    cbn [TD3Agent.steps]. rewrite H1. cbn [mbind option_bind].
    rewrite H2. cbn [mbind option_bind]. rewrite H3. cbn [mbind option_bind].
    rewrite H4. reflexivity.
  - change (Toy.inputs 5)
      with [Toy.input 0; Toy.input 1; Toy.input 2; Toy.input 3; Toy.input 4].
    cbn [TD3Agent.steps]. rewrite H1. cbn [mbind option_bind].
    rewrite H2. cbn [mbind option_bind]. rewrite H3. cbn [mbind option_bind].
    rewrite H4. cbn [mbind option_bind]. rewrite H5. reflexivity.
  - reflexivity.
  - reflexivity.
  - reflexivity.
Qed.

End TD3Facts.

(** ** OUNoise *)

Module OUNoiseFacts.
Import OUNoise.

Lemma reset_state n : state (reset n) = mu n /\ mu (reset n) = mu n.
Proof. done. Qed.

Lemma init_state size mu0 theta0 sigma0 :
  state (init size mu0 theta0 sigma0) = mu (init size mu0 theta0 sigma0).
Proof. reflexivity. Qed.

Lemma sample_entry n draw i x m :
  state n !! i = Some x -> mu n !! i = Some m ->
  fst (sample n draw) !! i
  = Some (x + (theta n * (m - x) + sigma n * draw i)).
Proof.
  intros Hx Hm. unfold sample. simpl.
  assert (Hi : (i < length (state n))%nat) by (eapply lookup_lt_Some; eauto).
  repeat first
    [ rewrite Hx | rewrite Hm | rewrite lookup_seq_lt by done
    | rewrite lookup_zip_with | rewrite list_lookup_fmap | progress cbn ].
  reflexivity.
Qed.

(** C9.  [reset()] sets the state to [mu], and [sample()] returns the new
    state, each entry advanced by [theta * (mu - x) + sigma * u].  But [u]
    is a value of [random.random()], a float of [[0, 1)], not a zero-mean
    Gaussian deviate: for [sigma >= 0] the noise term is never negative,
    so no entry can fall below [x + theta * (mu - x)], and it stays below
    that plus [sigma]. *)
Theorem C9_sample_noise_is_one_sided (n : t) (draw : nat -> R) :
  random_random_ok draw ->
  0 <= sigma n ->
  state (reset n) = mu n
  /\ snd (sample n draw) = {| mu := mu n; theta := theta n; sigma := sigma n;
                              state := fst (sample n draw) |}
  /\ forall i x m,
       state n !! i = Some x -> mu n !! i = Some m ->
       exists y,
         fst (sample n draw) !! i = Some y
         /\ y = x + (theta n * (m - x) + sigma n * draw i)
         /\ x + theta n * (m - x) <= y
         /\ y <= x + theta n * (m - x) + sigma n.
Proof.
  intros Hdraw Hsigma. split_and!; [reflexivity..|].
  intros i x m Hx Hm. eexists. split; [apply sample_entry; eassumption|].
  destruct (Hdraw i) as [H0 H1]. split_and!; [reflexivity|nra|nra].
Qed.

End OUNoiseFacts.

(** ** NormalNoiseDecayStrategy *)

Module StrategyFacts.
Import NormalNoiseDecayStrategy.

(** A call with [maxExploration = True] and [chooseGreedyAction = True]
    reads neither [noiseRatio] nor the random source and returns. *)
Lemma greedy_max_succeeds s output normal :
  exists act s',
    selectAction s output true true normal = Some (act, s')
    /\ noiseRatio s' = noiseRatio s.
Proof. unfold selectAction. cbn. eauto. Qed.

(** With [maxExploration = False] the first statement reads
    [self.noiseRatio], whatever [chooseGreedyAction] is. *)
Lemma no_noiseRatio_fails s output greedy normal :
  noiseRatio s = None -> selectAction s output false greedy normal = None.
Proof. intros H. unfold selectAction. rewrite H. reflexivity. Qed.

Lemma init_has_no_noiseRatio bounds i m d : noiseRatio (init bounds i m d) = None.
Proof. reflexivity. Qed.

(** A call that adds noise and returns has assigned [noiseRatio]. *)
Lemma noisy_call_sets_noiseRatio s output maxExploration normal act s' :
  selectAction s output maxExploration false normal = Some (act, s') ->
  is_Some (noiseRatio s').
Proof.
  unfold selectAction.
  destruct (if maxExploration then _ else _) as [noiseScale|]; [|discriminate]. cbn.
  destruct (nd_len (squeeze output)) as [size|]; [|discriminate]. cbn.
  destruct (Rlt_dec noiseScale 0); [discriminate|].
  destruct (noiseRatioUpdate s) as [[nr s1]|]; [|discriminate]. cbn.
  intros [= <- <-]. simpl. eauto.
Qed.

(** Once [noiseRatio] exists a greedy call returns. *)
Lemma greedy_succeeds_with_noiseRatio s output maxExploration normal nr :
  noiseRatio s = Some nr ->
  exists act s', selectAction s output maxExploration true normal = Some (act, s').
Proof.
  intros H. unfold selectAction. rewrite H. destruct maxExploration; cbn; eauto.
Qed.

(** A noisy call with [maxExploration = True] returns exactly when the
    network output is not a single entry (else [len] is taken of a
    zero-dimensional array), the scale [high] is not negative and
    [decaySteps] is not zero. *)
Lemma noisy_max_succeeds_iff s output normal :
  is_Some (selectAction s output true false normal)
  <-> (length output <> 1%nat /\ 0 <= high s /\ decaySteps s <> 0%nat).
Proof.
  unfold selectAction. cbn.
  assert (Hsq : (exists size, nd_len (squeeze output) = Some size)
                <-> length output <> 1%nat).
  { destruct output as [|x [|y rest]]; simpl; split; try done; eauto.
    intros [size Hs]. discriminate. }
  destruct (nd_len (squeeze output)) as [size|] eqn:E; cbn.
  - destruct (Rlt_dec (high s) 0) as [Hneg|Hnn].
    + split; [intros [? ?]; discriminate|]. intros (_ & H & _). lra.
    + unfold noiseRatioUpdate. destruct (Nat.eqb_spec (decaySteps s) 0) as [Hz|Hz]; cbn.
      * split; [intros [? ?]; discriminate|]. intros (_ & _ & H). done.
      * split; [|eauto]. intros _. split_and!; [|lra|done]. apply Hsq. eauto.
  - split; [intros [? ?]; discriminate|]. intros (H & _). apply Hsq in H as [? ?].
    discriminate.
Qed.

(** C10.  On a freshly constructed strategy, [selectAction] with
    [maxExploration = False] raises for want of [noiseRatio] both with
    [chooseGreedyAction = False], as the spec says, and with
    [chooseGreedyAction = True], which the spec says always succeeds:
    the attribute is read before the greedy flag is looked at. *)
Theorem C10_greedy_call_reads_noiseRatio (bounds : R * R) (output : list R)
  (normal : nat -> R) :
  selectAction (init_default bounds) output false false normal = None
  /\ selectAction (init_default bounds) output false true normal = None
  /\ is_Some (selectAction (init_default bounds) output true true normal).
Proof.
  split_and!.
  - apply no_noiseRatio_fails. reflexivity.
  - apply no_noiseRatio_fails. reflexivity.
  - destruct (greedy_max_succeeds (init_default bounds) output normal)
      as (act & s' & H & _).
    rewrite H. eauto.
Qed.

End StrategyFacts.

(** * The theorems at sample inputs *)

Module Witnesses.

Lemma C5_memSample_witness :
  (ReplayBuffer.memSample Samples.buffer [2; 0]%nat = None
   <-> (ReplayBuffer.len Samples.buffer < ReplayBuffer.batchSize Samples.buffer)%nat).
Proof.
  apply (ReplayBufferFacts.C5_memSample 1 1 Samples.buffer [2; 0]%nat).
  - unfold ReplayBuffer.well_shaped. simpl. repeat constructor.
  - simpl. lia.
  - intros _. unfold sample_ok. simpl. split; [reflexivity|]. split.
    + apply NoDup_cons. split; [|apply NoDup_singleton].
      intros Hin. apply list_elem_of_singleton in Hin. lia.
    + repeat constructor.
Defined.

Lemma C3_updatePriorities_witness :
  (PrioritizedReplayBuffer.updatePriorities Samples.prioritized [0%Z] [3] = None
   <-> (1 <> 1)%nat
       \/ exists k idx p,
            [0%Z] !! k = Some idx /\ [3] !! k = Some p
            /\ (p <= 0 \/ (idx < 0)%Z \/ (2 <= idx)%Z)).
Proof.
  apply (PriorityFacts.C3_updatePriorities Samples.prioritized [0%Z] [3]).
  unfold PrioritySpec.tree_covers, ReplayBuffer.len. simpl. lia.
Defined.

Lemma samples_prioritized_leaves_ok : PrioritySpec.leaves_ok Samples.prioritized.
Proof.
  split.
  - intros i Hi. simpl in Hi. destruct i as [|[|i]]; simpl.
    + exists 1. split; [lra|done].
    + exists 2. split; [lra|done].
    + unfold ReplayBuffer.len in Hi. simpl in Hi. lia.
  - intros i Hi. unfold ReplayBuffer.len in Hi. simpl in Hi.
    destruct i as [|[|[|[|i]]]]; simpl; try lia; split; intros ? [= <-] || done;
      reflexivity.
Defined.

Lemma C2_importance_weights_witness :
  exists batch weights pmin,
    PrioritizedReplayBuffer.memSample Samples.prioritized 0.5 [0; 1]%nat
    = Some (batch, weights, [0; 1]%nat)
    /\ SegmentTree.min (PrioritizedReplayBuffer.minTree Samples.prioritized)
       = SegmentTree.Fin pmin
    /\ forall r idx, [0; 1]%nat !! r = Some idx ->
         exists w, weights !! r = Some w /\ w <= 1.
Proof.
  destruct (WeightFacts.C2_importance_weights 1 1 Samples.prioritized 0.5 [0; 1]%nat)
    as (batch & weights & pmin & Hrun & Hmin & _ & _ & _ & _ & _ & Hw).
  - exact samples_prioritized_leaves_ok.
  - unfold ReplayBuffer.well_shaped. simpl. repeat constructor.
  - unfold ReplayBuffer.len. simpl. lia.
  - lra.
  - unfold ReplayBuffer.len. simpl. repeat constructor.
  - exists batch, weights, pmin. split; [exact Hrun|]. split; [exact Hmin|].
    intros r idx Hr. destruct (Hw r idx Hr) as (p & w & _ & Hwr & _ & Hle & _).
    exists w. split; assumption.
Defined.

Lemma C8_softUpdate_witness :
  snd (softUpdate 0.001 Samples.targetNet Samples.localNet) = Samples.localNet
  /\ same_shape (fst (softUpdate 0.001 Samples.targetNet Samples.localNet))
       Samples.targetNet.
Proof.
  destruct (SoftUpdateFacts.C8_softUpdate 0.001 Samples.targetNet Samples.localNet)
    as (H1 & H2 & _).
  - unfold same_shape, Samples.targetNet, Samples.localNet. repeat constructor.
  - split; assumption.
Defined.

Lemma C9_sample_witness :
  snd (OUNoise.sample Samples.noise (fun _ => 0.5))
  = {| OUNoise.mu := OUNoise.mu Samples.noise;
       OUNoise.theta := OUNoise.theta Samples.noise;
       OUNoise.sigma := OUNoise.sigma Samples.noise;
       OUNoise.state := fst (OUNoise.sample Samples.noise (fun _ => 0.5)) |}.
Proof.
  apply (OUNoiseFacts.C9_sample_noise_is_one_sided Samples.noise (fun _ => 0.5)).
  - intros i. lra.
  - simpl. lra.
Defined.

Lemma C6_bellman_target_witness :
  TD3Agent.bellmanTargets Defaults.GAMMA Toy.actorForward Toy.criticForward
    toyAgent Samples.batch [[0]; [0]] !! 0%nat
  = Some [1 + Defaults.GAMMA * Rmin 1 1 * (1 - 0)].
Proof.
  apply (TD3Facts.C6_bellman_target Defaults.GAMMA unit Toy.actorForward
           Toy.criticForward toyAgent Samples.batch [[0]; [0]]).
  - simpl. lra.
  - simpl. lra.
  - reflexivity.
  - reflexivity.
  - reflexivity.
  - reflexivity.
Defined.

Lemma C7_update_cadence_witness :
  TD3Agent.stepNum (TD3Agent.stored toyAgent (transition 0))
  = (TD3Agent.stepNum toyAgent + length (Toy.inputs 1))%nat.
Proof.
  apply (TD3Facts.C7_update_cadence Defaults.BATCH_SIZE Defaults.LEARN_EVERY
           Defaults.UPDATE_CRITIC_TARGET_STEPS Defaults.UPDATE_ACTOR_TARGET_STEPS
           Defaults.TRAIN_ACTOR_STEPS Defaults.GAMMA Defaults.TAU unit
           Toy.actorForward Toy.criticForward Toy.criticOptimStep Toy.actorOptimStep
           toyAgent (TD3Agent.stored toyAgent (transition 0)) (Toy.inputs 1)).
  reflexivity.
Defined.

End Witnesses.

(** * Further properties *)

(** ** PrioritizedReplayBuffer: reachable states *)

Module PrioritizedMore.
Import SegmentTree PrioritizedReplayBuffer PrioritySpec PriorityFacts ReachFacts.
Import PrioritySpecMore.



(** X2.  In every reachable state [addMem] returns: both trees get
    [maxPriority ** alpha] at the write slot and nothing else changes in
    them, the write slot moves on by one modulo [BUFFER_SIZE],
    [maxPriority] and [alpha] stay, and the buffer grows by one unless it
    is full. *)
Theorem X2_addMem_in_a_reachable_state (B BS : nat) (a : R) (cs : list call)
  (s : t) (e : Experience) :
  (0 < B)%nat -> run B (init B BS a) cs = Some s ->
  exists s',
    run_call B s (AddMem e) = Some s'
    /\ sumTree s' = <[nextIdx s := fpow (maxPriority s) (alpha s)]> (sumTree s)
    /\ minTree s' = <[nextIdx s := Fin (fpow (maxPriority s) (alpha s))]> (minTree s)
    /\ sumTree s' !! nextIdx s = Some (fpow (maxPriority s) (alpha s))
    /\ nextIdx s' = ((nextIdx s + 1) mod B)%nat
    /\ maxPriority s' = maxPriority s /\ alpha s' = alpha s
    /\ ReplayBuffer.len (base s')
       = Nat.min (S (ReplayBuffer.len (base s))) B.
Proof.
  intros HB Hrun. pose proof (Inv_reachable B BS a cs s HB Hrun) as HI.
  eexists. split; [apply (addMem_spec B s _ _ _ _ _ HI)|].
  cbn [base sumTree minTree nextIdx maxPriority alpha].
  destruct HI as (Hml & Hlen & Hls & Hlm & Hnext & Hlt & _).
  pose proof (treeCapacity_ge B).
  split_and!; try done.
  - apply list_lookup_insert_eq. lia.
  - fold (ReplayBuffer.addExp (base s) e).
    unfold ReplayBuffer.addExp. rewrite len_addMem, Hml.
    destruct (Nat.ltb_spec (ReplayBuffer.len (base s)) B); lia.
Qed.

Lemma X2_witness :
  exists s', run_call 3 (init 3 2 0.6) (AddMem (transition 0)) = Some s'
             /\ nextIdx s' = 1%nat.
Proof.
  destruct (X2_addMem_in_a_reachable_state 3 2 0.6 [] (init 3 2 0.6) (transition 0))
    as (s' & Hrun & _ & _ & _ & Hn & _).
  - lia.
  - reflexivity.
  - exists s'. split; [exact Hrun|]. rewrite Hn. reflexivity.
Defined.



(** *** Sampling from an empty buffer, indexes beyond the buffer *)

Lemma min_all_inf (tree : list xreal) :
  (forall i m, tree !! i = Some m -> m = PosInf) -> min tree = PosInf.
Proof.
  intros H. pose proof (WeightFacts.min_spec tree) as Hs.
  destruct (min tree) as [m|] eqn:E; [|done].
  destruct Hs as [[i Hi] _]. specialize (H i _ Hi). discriminate.
Qed.

(** X4.  On a buffer that holds no transition (in particular a fresh
    one) [memSample] raises, whatever [beta] and the sampled indexes. *)
Theorem X4_memSample_on_an_empty_buffer (s : t) (beta : R) (indexes : list nat) :
  leaves_ok s -> ReplayBuffer.len (base s) = 0%nat ->
  memSample s beta indexes = None.
Proof.
  intros [_ Hfree] Hlen. unfold memSample.
  rewrite min_all_inf; [done|].
  intros i m Hm. apply (Hfree i); [lia|exact Hm].
Qed.

Lemma X4_witness : memSample (init 3 2 0.6) 0.5 [0%nat] = None.
Proof.
  apply (X4_memSample_on_an_empty_buffer (init 3 2 0.6) 0.5 [0%nat]).
  - apply (Inv_init 3 2 0.6). lia.
  - reflexivity.
Defined.

Lemma mapM_lookup_None {A} (l : list A) (idxes : list nat) :
  mapM (fun idx => l !! idx) idxes = None
  <-> Exists (fun idx => (length l <= idx)%nat) idxes.
Proof.
  induction idxes as [|idx idxes IH]; cbn.
  - split; [discriminate|]. intros H. inversion H.
  - destruct (l !! idx) as [x|] eqn:E; cbn.
    + apply lookup_lt_Some in E as Hlt.
      destruct (mapM (fun idx => l !! idx) idxes) as [k|] eqn:Ek; cbn.
      * split; [discriminate|]. intros H. apply Exists_cons in H as [H|H]; [lia|].
        apply IH in H. discriminate.
      * split; [|done]. intros _. apply Exists_cons_tl. apply IH. reflexivity.
    + apply lookup_ge_None in E. split; [|done]. intros _.
      apply Exists_cons_hd. exact E.
Qed.

(** X5.  On a buffer of well-shaped transitions [encodedSample] raises
    exactly when some index lies beyond the stored transitions; otherwise
    row [r] of each of its five arrays is the field of [memBuff[idxes[r]]]
    (an index may occur several times), rewards and done flags as rows of
    width one. *)
Theorem X5_encodedSample (stateSize actionSize : nat) (s : t) (idxes : list nat) :
  ReplayBuffer.well_shaped stateSize actionSize (base s) ->
  (encodedSample s idxes = None
   <-> Exists (fun idx => (ReplayBuffer.len (base s) <= idx)%nat) idxes)
  /\ forall batch, encodedSample s idxes = Some batch ->
       length (ReplayBuffer.states batch) = length idxes
       /\ forall r idx, idxes !! r = Some idx ->
            exists e,
              ReplayBuffer.memBuff (base s) !! idx = Some e
              /\ ReplayBuffer.states batch !! r = Some (state e)
              /\ ReplayBuffer.actions batch !! r = Some (action e)
              /\ ReplayBuffer.rewards batch !! r = Some [reward e]
              /\ ReplayBuffer.nextStates batch !! r = Some (nextState e)
              /\ ReplayBuffer.dones batch !! r = Some [bool_to_float (done e)].
Proof.
  intros Hshape. unfold encodedSample.
  pose proof (mapM_lookup_None (ReplayBuffer.memBuff (base s)) idxes) as Hnone.
  destruct (mapM (fun idx => ReplayBuffer.memBuff (base s) !! idx) idxes)
    as [chosen|] eqn:Ech; cbn.
  2:{ split; [|discriminate]. split; [intros _; apply Hnone; done|done]. }
  assert (Hrows : Forall2 (fun idx e => ReplayBuffer.memBuff (base s) !! idx = Some e)
                    idxes chosen) by (apply mapM_Some; exact Ech).
  assert (Hcs : Forall (fun e => length (state e) = stateSize
                     /\ length (action e) = actionSize
                     /\ length (nextState e) = stateSize) chosen).
  { apply Forall_lookup_2. intros r e Hr.
    destruct (Forall2_lookup_r _ _ _ _ _ Hrows Hr) as (idx & _ & He).
    unfold ReplayBuffer.well_shaped in Hshape. rewrite Forall_forall in Hshape.
    apply Hshape. eapply list_elem_of_lookup_2; eauto. }
  unfold np_array.
  rewrite (ReplayBufferFacts.same_width_const (map state chosen) stateSize).
  2:{ apply Forall_map. eapply Forall_impl; [exact Hcs|]. cbn. tauto. }
  cbn.
  rewrite (ReplayBufferFacts.same_width_const (map action chosen) actionSize).
  2:{ apply Forall_map. eapply Forall_impl; [exact Hcs|]. cbn. tauto. }
  cbn.
  rewrite (ReplayBufferFacts.same_width_const (map nextState chosen) stateSize).
  2:{ apply Forall_map. eapply Forall_impl; [exact Hcs|]. cbn. tauto. }
  cbn. split.
  - split; [discriminate|]. intros H. apply Hnone in H. discriminate.
  - intros batch [= <-]. cbn. rewrite length_map.
    split; [symmetry; eapply Forall2_length; eauto|].
    intros r idx Hr.
    destruct (Forall2_lookup_l _ _ _ _ _ Hrows Hr) as (e & Hre & He).
    exists e. rewrite !list_lookup_fmap, Hre. done.
Qed.

Lemma X5_witness :
  encodedSample Samples.prioritized [5%nat] = None
  <-> Exists (fun idx => (2 <= idx)%nat) [5%nat].
Proof.
  apply (X5_encodedSample 1 1 Samples.prioritized [5%nat]).
  unfold ReplayBuffer.well_shaped. simpl. repeat constructor.
Defined.

(** *** New transitions carry the largest leaf *)









End PrioritizedMore.

(** ** PrioritizedReplayBuffer: the stratified draw *)

Module SamplingFacts.
Import SegmentTree PrioritizedReplayBuffer PrioritizedSampling.

Section WithTree.
Variable BATCH_SIZE : nat.
Variable rangeSum : list R -> Z -> Z -> R.
Variable find_prefixsum_idx : list R -> R -> option nat.

Local Abbreviation sampleProportional :=
  (PrioritizedSampling.sampleProportional BATCH_SIZE rangeSum find_prefixsum_idx).



End WithTree.


End SamplingFacts.

(** ** TD3Agent.learn: the priorities it reports *)

Module ReportFacts.
Import TD3Prioritized PrioritySpec.

Lemma PER_EPS_pos : 0 < PER_EPS.
Proof. unfold PER_EPS. lra. Qed.

Lemma mapM_row_mul_columns (magnitude : Tensor) (weights : list R) :
  Forall (fun row => length row = 1%nat) magnitude ->
  mapM (fun row => row_mul row weights) magnitude
  = Some (map (fun row => map (fun y => hd 0 row * y) weights) magnitude).
Proof.
  induction 1 as [|row magnitude Hrow _ IH]; [done|].
  cbn. destruct row as [|x [|? ?]]; try discriminate. cbn.
  rewrite IH. reflexivity.
Qed.

Lemma tdErrorRow0_spec (Q_Targets Q_Expected_A : Tensor)
  (weights : list R) :
  Forall2 (fun tr er => length tr = 1%nat /\ length er = 1%nat)
    Q_Targets Q_Expected_A ->
  match Q_Targets, Q_Expected_A with
  | [t0] :: _, [e0] :: _ =>
      tdErrorRow0 Q_Targets Q_Expected_A weights
      = Some (map (fun w => (Rabs (t0 - e0) + PER_EPS) * w) weights)
      /\ (Forall (fun w => 0 < w) weights ->
          Forall (fun p => 0 < p)
            (map (fun w => (Rabs (t0 - e0) + PER_EPS) * w) weights))
  | _, _ => tdErrorRow0 Q_Targets Q_Expected_A weights = None
  end.
Proof.
  intros Hshape. unfold tdErrorRow0.
  assert (Hmag : Forall (fun row => length row = 1%nat)
                   (t_map (fun d => Rabs d + PER_EPS)
                      (t_zip Rminus Q_Targets Q_Expected_A))).
  { unfold t_map, t_zip. apply Forall_map.
    induction Hshape as [|tr er ? ? [Ht He] _ IH]; simpl; constructor; [|exact IH].
    cbn. rewrite length_map, length_zip_with. lia. }
  rewrite (mapM_row_mul_columns _ weights Hmag). cbn.
  destruct Hshape as [|tr er trs ers [Ht He] _]; [reflexivity|].
  destruct tr as [|t0 [|? ?]]; try discriminate.
  destruct er as [|e0 [|? ?]]; try discriminate.
  cbn. split; [reflexivity|].
  intros Hw. apply Forall_map. eapply Forall_impl; [exact Hw|].
  intros w Hpos. cbn. pose proof PER_EPS_pos. pose proof (Rabs_pos (t0 - e0)). nra.
Qed.

(** X8.  With [Q_Targets] and [Q_Expected_A] of shape [(B, 1)] and [B]
    weights, the product broadcasts to [(B, B)] and [tdError[0]] is its
    first row: the priority reported for the [j]-th sampled index is
    [(|Q_Targets[0] - Q_Expected_A[0]| + PER_EPS) * weights[j]], the
    temporal-difference error of the first transition of the batch for
    every index.  It is positive whenever the weight is, and an empty
    batch raises. *)
Theorem X8_reported_priorities (Q_Targets Q_Expected_A : Tensor)
  (weights : list R) :
  Forall2 (fun tr er => length tr = 1%nat /\ length er = 1%nat)
    Q_Targets Q_Expected_A ->
  match Q_Targets, Q_Expected_A with
  | [t0] :: _, [e0] :: _ =>
      tdErrorRow0 Q_Targets Q_Expected_A weights
      = Some (map (fun w => (Rabs (t0 - e0) + PER_EPS) * w) weights)
      /\ (Forall (fun w => 0 < w) weights ->
          Forall (fun p => 0 < p)
            (map (fun w => (Rabs (t0 - e0) + PER_EPS) * w) weights))
  | _, _ => tdErrorRow0 Q_Targets Q_Expected_A weights = None
  end.
Proof. apply tdErrorRow0_spec. Qed.

Lemma X8_witness :
  tdErrorRow0 [[3]; [1]] [[1]; [1]] [1; 2]
  = Some (map (fun w => (Rabs (3 - 1) + PER_EPS) * w) [1; 2]).
Proof.
  apply (X8_reported_priorities [[3]; [1]] [[1]; [1]] [1; 2]).
  repeat constructor.
Defined.

(** X9.  In a state whose trees cover the buffer, with positive weights
    and one sampled index within the buffer per weight, the call that
    reports the priorities returns: none of the assertions of
    [updatePriorities] can fail, because [PER_EPS] keeps every reported
    priority positive. *)
Theorem X9_reporting_priorities_never_fails (s : PrioritizedReplayBuffer.t)
  (Q_Targets Q_Expected_A : Tensor) (weights : list R) (batchIdx : list nat) :
  tree_covers s ->
  Forall2 (fun tr er => length tr = 1%nat /\ length er = 1%nat)
    Q_Targets Q_Expected_A ->
  Q_Targets <> [] ->
  Forall (fun w => 0 < w) weights ->
  length batchIdx = length weights ->
  Forall (fun idx => (idx < ReplayBuffer.len (PrioritizedReplayBuffer.base s))%nat)
    batchIdx ->
  exists s',
    reportPriorities s Q_Targets Q_Expected_A weights batchIdx = Some s'
    /\ PrioritizedReplayBuffer.maxPriority s
       <= PrioritizedReplayBuffer.maxPriority s'
    /\ PrioritizedReplayBuffer.base s' = PrioritizedReplayBuffer.base s.
Proof.
  intros Hc Hshape Hne Hw Hlen Hidx.
  pose proof (tdErrorRow0_spec Q_Targets Q_Expected_A weights Hshape) as Hrow.
  destruct Q_Targets as [|tr trs]; [done|].
  destruct Q_Expected_A as [|er ers]; [inversion Hshape|].
  assert (Hhd : length tr = 1%nat /\ length er = 1%nat) by (inversion Hshape; done).
  destruct tr as [|t0 [|? ?]]; try (simpl in Hhd; lia).
  destruct er as [|e0 [|? ?]]; try (simpl in Hhd; lia).
  destruct Hrow as [Hrow Hpos]. specialize (Hpos Hw).
  unfold reportPriorities. rewrite Hrow. cbn.
  set (priorities := map (fun w => (Rabs (t0 - e0) + PER_EPS) * w) weights) in *.
  unfold PrioritizedReplayBuffer.updatePriorities.
  assert (Hl : length (map Z.of_nat batchIdx) = length priorities).
  { unfold priorities. rewrite !length_map. exact Hlen. }
  rewrite Hl, Nat.eqb_refl.
  destruct (PrioritizedReplayBuffer.updateLoop s (zip (map Z.of_nat batchIdx) priorities))
    as [s'|] eqn:E.
  - exists s'. split; [reflexivity|].
    destruct (PriorityFacts.updateLoop_frame s _ s' Hc E) as (Hb & _ & _ & Hmx & _).
    split; [|exact Hb]. rewrite Hmx. apply PriorityFacts.foldl_Rmax_ge.
  - exfalso. apply (PriorityFacts.updateLoop_None s _ Hc) in E.
    apply Exists_exists in E as ([idx p] & Hin & Hbad).
    apply list_elem_of_lookup in Hin as [k Hk].
    apply lookup_zip_with_Some in Hk as (i & q & [= -> ->] & Hi & Hq).
    rewrite list_lookup_fmap in Hi.
    destruct (batchIdx !! k) as [n|] eqn:En; [|discriminate]. injection Hi as <-.
    pose proof (Forall_lookup_1 _ _ _ _ Hidx En) as Hn. cbn in Hn.
    pose proof (Forall_lookup_1 _ _ _ _ Hpos Hq) as Hp. cbn in Hp.
    unfold bad_pair in Hbad. simpl in Hbad. destruct Hbad as [?|[?|?]]; [lra|lia|lia].
Qed.

Lemma X9_witness :
  exists s',
    reportPriorities Samples.prioritized [[3]; [1]] [[1]; [1]] [1; 2] [0; 1]%nat
    = Some s'
    /\ PrioritizedReplayBuffer.maxPriority Samples.prioritized
       <= PrioritizedReplayBuffer.maxPriority s'.
Proof.
  destruct (X9_reporting_priorities_never_fails Samples.prioritized
              [[3]; [1]] [[1]; [1]] [1; 2] [0; 1]%nat)
    as (s' & Hrun & Hmax & _).
  - unfold tree_covers, ReplayBuffer.len. simpl. lia.
  - repeat constructor.
  - discriminate.
  - repeat constructor; lra.
  - reflexivity.
  - unfold ReplayBuffer.len. simpl. repeat constructor.
  - exists s'. split; assumption.
Defined.

End ReportFacts.

(** ** OUNoise: where the state can go *)

Module OUNoiseMore.
Import OUNoise NoiseRuns.

Lemma confined_reset n : 0 < theta n -> 0 <= sigma n -> confined (reset n).
Proof.
  intros Ht Hs. unfold confined. simpl.
  assert (Hc : 0 <= sigma n / theta n).
  { unfold Rdiv. apply Rmult_le_pos; [exact Hs|]. left. apply Rinv_0_lt_compat, Ht. }
  induction (mu n) as [|m ms IH]; constructor; [lra|exact IH].
Qed.

Lemma confined_sample n draw :
  0 < theta n <= 1 -> 0 <= sigma n -> random_random_ok draw ->
  confined n -> confined (snd (sample n draw)).
Proof.
  intros Ht Hs Hdraw Hc. unfold confined in *. simpl.
  set (c := sigma n / theta n) in *.
  assert (Hcs : c * theta n = sigma n) by (unfold c; field; lra).
  assert (Hc0 : 0 <= c).
  { unfold c, Rdiv. apply Rmult_le_pos; [exact Hs|]. left. apply Rinv_0_lt_compat. lra. }
  apply Forall2_same_length_lookup. split.
  - apply Forall2_length in Hc.
    rewrite !length_zip_with, !length_map, !length_zip_with, length_seq. lia.
  - intros i y m Hy Hm.
    destruct (lookup_lt_is_Some_2 (state n) i) as [x Hx].
    { apply Forall2_length in Hc. rewrite Hc. eapply lookup_lt_Some; eauto. }
    pose proof (OUNoiseFacts.sample_entry n draw i x m Hx Hm) as He.
    unfold sample in He. simpl in He. rewrite Hy in He. injection He as ->.
    pose proof (Forall2_lookup_lr _ _ _ _ _ _ Hc Hx Hm) as [Hlo Hhi].
    destruct (Hdraw i) as [Hu0 Hu1]. split; nra.
Qed.

Lemma sample_keeps_parameters n draw :
  mu (snd (sample n draw)) = mu n
  /\ theta (snd (sample n draw)) = theta n
  /\ sigma (snd (sample n draw)) = sigma n.
Proof. done. Qed.

Lemma sampleMany_confined n draws :
  0 < theta n <= 1 -> 0 <= sigma n -> Forall random_random_ok draws ->
  confined n ->
  confined (sampleMany n draws)
  /\ mu (sampleMany n draws) = mu n
  /\ theta (sampleMany n draws) = theta n
  /\ sigma (sampleMany n draws) = sigma n.
Proof.
  intros Ht Hs Hdraws. revert n Ht Hs.
  induction Hdraws as [|draw draws Hd _ IH]; intros n Ht Hs Hc; [done|].
  simpl. destruct (IH (snd (sample n draw))) as (H1 & H2 & H3 & H4); try done.
  apply confined_sample; assumption.
Qed.

(** X10.  For [0 < theta <= 1] and [sigma >= 0], after [reset()] and any
    number of [sample()] calls the state has the length of [mu] and every
    entry lies in [[mu, mu + sigma / theta]]: the process never produces
    a value below its mean, and [mu], [theta], [sigma] are never
    changed. *)
Theorem X10_samples_stay_above_the_mean (n : t) (draws : list (nat -> R)) :
  0 < theta n <= 1 -> 0 <= sigma n -> Forall random_random_ok draws ->
  let n' := sampleMany (reset n) draws in
  mu n' = mu n /\ theta n' = theta n /\ sigma n' = sigma n
  /\ length (state n') = length (mu n)
  /\ forall i x m, state n' !! i = Some x -> mu n !! i = Some m ->
       m <= x <= m + sigma n / theta n.
Proof.
  intros Ht Hs Hdraws n'.
  destruct (sampleMany_confined (reset n) draws Ht Hs Hdraws
              (confined_reset n (proj1 Ht) Hs)) as (Hc & Hmu & Hth & Hsg).
  fold n' in Hc, Hmu, Hth, Hsg. simpl in Hmu, Hth, Hsg.
  unfold confined in Hc. rewrite Hmu, Hth, Hsg in Hc.
  split_and!; try done.
  - eapply Forall2_length; eauto.
  - intros i x m Hx Hm. apply (Forall2_lookup_lr _ _ _ _ _ _ Hc Hx Hm).
Qed.

Lemma X10_witness :
  mu (sampleMany (reset Samples.noise) [fun _ => 0.5; fun _ => 0.25])
  = mu Samples.noise.
Proof.
  apply (X10_samples_stay_above_the_mean Samples.noise [fun _ => 0.5; fun _ => 0.25]).
  - simpl. lra.
  - simpl. lra.
  - repeat constructor; lra.
Defined.

End OUNoiseMore.

(** ** NormalNoiseDecayStrategy: the decay and the bounds *)

Module StrategyMore.
Import NormalNoiseDecayStrategy NoiseRuns.

Lemma np_clip_range x lo hi : lo <= hi -> lo <= np_clip x lo hi <= hi.
Proof.
  intros H. unfold np_clip. split; [|apply Rmin_l].
  apply Rmin_glb; [exact H|apply Rmax_r].
Qed.

Lemma np_clip_inside x lo hi : lo <= x <= hi -> np_clip x lo hi = x.
Proof.
  intros [H1 H2]. unfold np_clip. rewrite Rmax_left by lra. apply Rmin_right. lra.
Qed.

Lemma noiseRatioUpdate_spec s :
  decaySteps s <> 0%nat ->
  noiseRatioUpdate s
  = Some (decayed s (step s),
          {| step := step s + 1; low := low s; high := high s;
             initNoiseRatio := initNoiseRatio s; minNoiseRatio := minNoiseRatio s;
             decaySteps := decaySteps s;
             ratioNoiseInjected := ratioNoiseInjected s;
             noiseRatio := noiseRatio s |}).
Proof.
  intros H. unfold noiseRatioUpdate. destruct (Nat.eqb_spec (decaySteps s) 0); done.
Qed.

Lemma decayed_spec s k :
  decaySteps s <> 0%nat -> minNoiseRatio s <= initNoiseRatio s ->
  minNoiseRatio s <= decayed s k <= initNoiseRatio s
  /\ ((k <= decaySteps s)%nat ->
      decayed s k = initNoiseRatio s
                    - (initNoiseRatio s - minNoiseRatio s) * INR k / INR (decaySteps s))
  /\ ((decaySteps s <= k)%nat -> decayed s k = minNoiseRatio s)
  /\ forall k', (k <= k')%nat -> decayed s k' <= decayed s k.
Proof.
  intros HD Hmi.
  assert (HDpos : 0 < INR (decaySteps s)) by (apply lt_0_INR; lia).
  assert (Hlin : forall j,
            (initNoiseRatio s - minNoiseRatio s) * (1 - INR j / INR (decaySteps s))
            + minNoiseRatio s
            = initNoiseRatio s
              - (initNoiseRatio s - minNoiseRatio s) * (INR j / INR (decaySteps s)))
    by (intros j; ring).
  assert (Hfrac : forall j, 0 <= INR j / INR (decaySteps s)).
  { intros j. unfold Rdiv. apply Rmult_le_pos; [apply pos_INR|].
    left. apply Rinv_0_lt_compat, HDpos. }
  assert (Hfrac_le : forall j j', (j <= j')%nat ->
            INR j / INR (decaySteps s) <= INR j' / INR (decaySteps s)).
  { intros j j' Hjj. unfold Rdiv. apply Rmult_le_compat_r.
    - left. apply Rinv_0_lt_compat, HDpos.
    - apply le_INR, Hjj. }
  assert (Hone : INR (decaySteps s) / INR (decaySteps s) = 1) by (field; lra).
  split; [apply np_clip_range, Hmi|]. split_and!.
  - intros Hk. unfold decayed. rewrite np_clip_inside.
    + rewrite Hlin. unfold Rdiv. ring.
    + rewrite Hlin. pose proof (Hfrac k). pose proof (Hfrac_le k _ Hk). nra.
  - intros Hk. unfold decayed, np_clip. rewrite Hlin.
    pose proof (Hfrac_le _ k Hk). rewrite Rmax_right by nra.
    apply Rmin_right. lra.
  - intros k' Hkk. unfold decayed, np_clip. rewrite !Hlin.
    pose proof (Hfrac_le k k' Hkk).
    apply Rle_min_compat_l. apply Rle_max_compat_r. nra.
Qed.

(** X11.  [noiseRatioUpdate] raises exactly when [decaySteps] is zero.
    Otherwise it advances [step] by one, leaves everything else, and
    returns a ratio that lies in [[minNoiseRatio, initNoiseRatio]], is the
    line [init - (init - min) * step / decaySteps] up to [decaySteps], is
    [minNoiseRatio] from then on, and never increases with [step]. *)
Theorem X11_noiseRatioUpdate_decays_linearly (s : t) :
  minNoiseRatio s <= initNoiseRatio s ->
  (noiseRatioUpdate s = None <-> decaySteps s = 0%nat)
  /\ forall r s', noiseRatioUpdate s = Some (r, s') ->
       step s' = (step s + 1)%nat /\ decaySteps s' = decaySteps s
       /\ initNoiseRatio s' = initNoiseRatio s /\ minNoiseRatio s' = minNoiseRatio s
       /\ noiseRatio s' = noiseRatio s
       /\ minNoiseRatio s <= r <= initNoiseRatio s
       /\ ((step s <= decaySteps s)%nat ->
           r = initNoiseRatio s
               - (initNoiseRatio s - minNoiseRatio s) * INR (step s) / INR (decaySteps s))
       /\ ((decaySteps s <= step s)%nat -> r = minNoiseRatio s)
       /\ forall r' s'', noiseRatioUpdate s' = Some (r', s'') -> r' <= r.
Proof.
  intros Hmi. split.
  - unfold noiseRatioUpdate. destruct (Nat.eqb_spec (decaySteps s) 0); split; done.
  - intros r s' Hrun.
    assert (HD : decaySteps s <> 0%nat).
    { intros H0. unfold noiseRatioUpdate in Hrun. rewrite H0 in Hrun. discriminate. }
    rewrite (noiseRatioUpdate_spec s HD) in Hrun. injection Hrun as <- <-. simpl.
    destruct (decayed_spec s (step s) HD Hmi) as (Hr & Hline & Hflat & Hmono).
    split_and!; try done; try apply Hr.
    intros r' s'' Hrun'. rewrite noiseRatioUpdate_spec in Hrun' by done.
    injection Hrun' as <- _. unfold decayed at 1. simpl.
    apply (Hmono (step s + 1)%nat). lia.
Qed.

Lemma X11_witness :
  noiseRatioUpdate (init_default (-1, 1)) = None
  <-> decaySteps (init_default (-1, 1)) = 0%nat.
Proof.
  apply (X11_noiseRatioUpdate_decays_linearly (init_default (-1, 1))).
  simpl. lra.
Defined.

(** *** What a call of [selectAction] returns and leaves behind *)

Lemma selectAction_greedy s output mx nrm act s' :
  selectAction s output mx true nrm = Some (act, s') ->
  act = nd_map (fun x => np_clip x (low s) (high s)) (squeeze output)
  /\ s' = {| step := step s; low := low s; high := high s;
             initNoiseRatio := initNoiseRatio s; minNoiseRatio := minNoiseRatio s;
             decaySteps := decaySteps s; ratioNoiseInjected := 0;
             noiseRatio := noiseRatio s |}.
Proof.
  unfold selectAction.
  destruct (if mx then _ else _) as [noiseScale|]; [|discriminate]. cbn.
  intros [= <- <-]. done.
Qed.

Lemma selectAction_noisy s output mx nrm act s' :
  selectAction s output mx false nrm = Some (act, s') ->
  exists noiseScale,
    (if mx then Some (high s) else nr ← noiseRatio s; Some (nr * high s))
    = Some noiseScale
    /\ 0 <= noiseScale /\ length output <> 1%nat /\ decaySteps s <> 0%nat
    /\ act = Array1 (map (fun x => np_clip x (low s) (high s))
                       (zip_with Rplus output
                          (map (fun i => noiseScale * nrm i) (seq 0 (length output)))))
    /\ step s' = (step s + 1)%nat /\ low s' = low s /\ high s' = high s
    /\ initNoiseRatio s' = initNoiseRatio s /\ minNoiseRatio s' = minNoiseRatio s
    /\ decaySteps s' = decaySteps s
    /\ noiseRatio s' = Some (decayed s (step s)).
Proof.
  unfold selectAction.
  destruct (if mx then _ else _) as [noiseScale|]; [|discriminate]. cbn.
  destruct (squeeze output) as [x|xs] eqn:Esq; [discriminate|]. cbn.
  assert (Hout : xs = output /\ length output <> 1%nat).
  { destruct output as [|x [|y rest]]; simpl in Esq; inversion Esq; done. }
  destruct Hout as [-> Hlen].
  destruct (Rlt_dec noiseScale 0) as [|Hnn]; [discriminate|].
  destruct (Nat.eq_dec (decaySteps s) 0%nat) as [H0|H0].
  { unfold noiseRatioUpdate. rewrite H0. discriminate. }
  rewrite (noiseRatioUpdate_spec s H0). cbn.
  intros [= <- <-]. exists noiseScale. simpl. split_and!; try done. lra.
Qed.

Lemma clipped_entries (f : R -> R) lo hi (xs : list R) :
  (forall x, lo <= f x <= hi) -> Forall (fun y => lo <= y <= hi) (map f xs).
Proof. intros H. apply Forall_map, Forall_true. intros x. apply H. Qed.

(** X12.  When [selectAction] returns and [low <= high], every entry of
    the action lies in [[low, high]] and there is one entry per entry of
    the network output.  A greedy call leaves [step] and [noiseRatio] as
    they were and sets [ratioNoiseInjected] to zero; a call that adds
    noise advances [step] by one and sets [noiseRatio] to the decayed
    value of the old [step].  The bounds and the decay parameters are
    never changed. *)
Theorem X12_selectAction_stays_within_bounds (s : t) (output : list R)
  (mx greedy : bool) (nrm : nat -> R) (act : ndarray) (s' : t) :
  low s <= high s ->
  selectAction s output mx greedy nrm = Some (act, s') ->
  Forall (fun x => low s <= x <= high s) (entries act)
  /\ length (entries act) = length output
  /\ low s' = low s /\ high s' = high s
  /\ initNoiseRatio s' = initNoiseRatio s /\ minNoiseRatio s' = minNoiseRatio s
  /\ decaySteps s' = decaySteps s
  /\ (if greedy
      then step s' = step s /\ noiseRatio s' = noiseRatio s
           /\ ratioNoiseInjected s' = 0
      else step s' = (step s + 1)%nat
           /\ noiseRatio s' = Some (decayed s (step s))).
Proof.
  intros Hb Hrun. destruct greedy.
  - apply selectAction_greedy in Hrun as [-> ->]. simpl.
    split_and!; try done.
    + destruct (squeeze output) as [x|xs]; simpl.
      * constructor; [apply np_clip_range, Hb|constructor].
      * apply clipped_entries. intros x. apply np_clip_range, Hb.
    + destruct output as [|x [|y rest]]; simpl; rewrite ?length_map; done.
  - apply selectAction_noisy in Hrun
      as (noiseScale & _ & _ & _ & _ & -> & Hst & Hlo & Hhi & Hi & Hm & Hd & Hnr).
    simpl. split_and!; try done.
    + apply clipped_entries. intros x. apply np_clip_range, Hb.
    + rewrite length_map, length_zip_with, length_map, length_seq. lia.
Qed.

Lemma X12_witness :
  length (entries (Array1 [np_clip 0.5 (-1) 1; np_clip (-3) (-1) 1])) = 2%nat.
Proof.
  apply (X12_selectAction_stays_within_bounds (init_default (-1, 1)) [0.5; -3]
           true true (fun _ => 0)
           (Array1 [np_clip 0.5 (-1) 1; np_clip (-3) (-1) 1])
           {| step := 0; low := -1; high := 1; initNoiseRatio := 0.5;
              minNoiseRatio := 0.1; decaySteps := Z.to_nat 10000;
              ratioNoiseInjected := 0; noiseRatio := None |}).
  - simpl. lra.
  - reflexivity.
Defined.

(** *** The decay over a sequence of calls *)






End StrategyMore.

(** ** TD3Agent: what a run of [step] stores, and when it learns or raises *)

Module TD3More.
Import TD3Agent.





Section WithCollaborators.
Variables BATCH_SIZE LEARN_EVERY : nat.
Variables UPDATE_CRITIC_TARGET_STEPS UPDATE_ACTOR_TARGET_STEPS TRAIN_ACTOR_STEPS : nat.
Variables GAMMA TAU : R.
Variable Optimizer : Type.
Variable actorForward : Params -> Tensor -> Tensor.
Variable criticForward : Params -> Tensor -> Tensor -> Tensor * Tensor.
Variable criticOptimStep :
  Optimizer -> Params -> ReplayBuffer.Batch -> Tensor -> Optimizer * Params.
Variable actorOptimStep :
  Optimizer -> Params -> Params -> Tensor -> Optimizer * Params.

Local Abbreviation agent := (TD3Agent.t Optimizer).
Local Abbreviation learn :=
  (TD3Agent.learn UPDATE_CRITIC_TARGET_STEPS UPDATE_ACTOR_TARGET_STEPS TRAIN_ACTOR_STEPS
     GAMMA TAU actorForward criticForward criticOptimStep actorOptimStep).
Local Abbreviation stepWith :=
  (TD3Agent.stepWith BATCH_SIZE LEARN_EVERY
     UPDATE_CRITIC_TARGET_STEPS UPDATE_ACTOR_TARGET_STEPS TRAIN_ACTOR_STEPS
     GAMMA TAU actorForward criticForward criticOptimStep actorOptimStep).
Local Abbreviation steps :=
  (TD3Agent.steps BATCH_SIZE LEARN_EVERY
     UPDATE_CRITIC_TARGET_STEPS UPDATE_ACTOR_TARGET_STEPS TRAIN_ACTOR_STEPS
     GAMMA TAU actorForward criticForward criticOptimStep actorOptimStep).

Lemma steps_store (a a' : agent) inputs :
  steps a inputs = Some a' ->
  replayMem a' = ReplayBuffer.addAll (replayMem a) (map in_exp inputs).
Proof.
  revert a. induction inputs as [|i inputs IH]; intros a H; simpl in H.
  - injection H as <-. reflexivity.
  - destruct (stepWith a i) as [a1|] eqn:E; [|discriminate]. cbn in H.
    rewrite (IH a1 H). simpl.
    pose proof (TD3Facts.step_spec _ _ _ _ _ _ _ _ _ _ _ _ a a1 i E) as (_ & -> & _).
    reflexivity.
Qed.

(** X14.  Every call of [step] that returns has stored its transition:
    after a run of calls the buffer is the one obtained by adding the
    transitions in order, whether or not the calls went on to learn.
    Starting from an empty buffer it therefore holds the last [maxlen]
    transitions of the run, oldest first, and never more than [maxlen]. *)
Theorem X14_steps_store_every_transition (a a' : agent) (inputs : list StepInput) :
  steps a inputs = Some a' ->
  replayMem a' = ReplayBuffer.addAll (replayMem a) (map in_exp inputs)
  /\ ReplayBuffer.maxlen (replayMem a') = ReplayBuffer.maxlen (replayMem a)
  /\ ReplayBuffer.batchSize (replayMem a') = ReplayBuffer.batchSize (replayMem a)
  /\ (ReplayBuffer.memBuff (replayMem a) = [] ->
      ReplayBuffer.memBuff (replayMem a')
      = drop (length inputs - ReplayBuffer.maxlen (replayMem a)) (map in_exp inputs)
      /\ (ReplayBuffer.len (replayMem a')
          <= ReplayBuffer.maxlen (replayMem a))%nat).
Proof.
  intros Hrun. rewrite (steps_store a a' inputs Hrun).
  destruct (ReplayBufferFacts.addAll_fields (replayMem a) (map in_exp inputs))
    as (Hm & Hl & Hb).
  split_and!; try done.
  intros Hempty. unfold ReplayBuffer.len.
  rewrite Hm, Hempty, DequeFacts.extend_empty, length_map.
  split; [reflexivity|]. rewrite length_drop, length_map. lia.
Qed.

Lemma warm_up (a : agent) inputs :
  LEARN_EVERY <> 0%nat ->
  (ReplayBuffer.len (replayMem a) + length inputs <= BATCH_SIZE)%nat ->
  exists a',
    steps a inputs = Some a'
    /\ stepNum a' = (stepNum a + length inputs)%nat
    /\ QNet_Actor_Local a' = QNet_Actor_Local a
    /\ QNet_Actor_Target a' = QNet_Actor_Target a
    /\ QNet_Critic_Local a' = QNet_Critic_Local a
    /\ QNet_Critic_Target a' = QNet_Critic_Target a
    /\ Optim_Actor a' = Optim_Actor a
    /\ Optim_Critic a' = Optim_Critic a.
Proof.
  intros HLE. revert a. induction inputs as [|i inputs IH]; intros a Hlen.
  - exists a. simpl. split_and!; try done; lia.
  - simpl in Hlen.
    pose proof (TD3Facts.len_addExp_le (replayMem a) (in_exp i)) as Hle.
    assert (Hstep : stepWith a i = Some (stored a (in_exp i))).
    { apply TD3Facts.step_without_learn; [exact HLE|]. right. lia. }
    destruct (IH (stored a (in_exp i))) as (a' & Hrun & Hn & H1 & H2 & H3 & H4 & H5 & H6).
    { cbn [replayMem stored]. lia. }
    exists a'. simpl. rewrite Hstep. cbn [mbind option_bind].
    split_and!; try done. rewrite Hn. cbn [stepNum stored]. lia.
Qed.

(** X15.  While the buffer holds at most [BATCH_SIZE] transitions nothing
    is learned: a run of [step] calls that leaves the buffer with no more
    than [BATCH_SIZE] transitions always returns (for a non-zero
    [LEARN_EVERY]), and the four networks and both optimisers are exactly
    as before.  With [LEARN_EVERY = 0] every call of [step] raises. *)
Theorem X15_nothing_is_learned_from_a_small_buffer (a : agent)
  (inputs : list StepInput) :
  (ReplayBuffer.len (replayMem a) + length inputs <= BATCH_SIZE)%nat ->
  (LEARN_EVERY <> 0%nat ->
   exists a',
     steps a inputs = Some a'
     /\ stepNum a' = (stepNum a + length inputs)%nat
     /\ QNet_Actor_Local a' = QNet_Actor_Local a
     /\ QNet_Actor_Target a' = QNet_Actor_Target a
     /\ QNet_Critic_Local a' = QNet_Critic_Local a
     /\ QNet_Critic_Target a' = QNet_Critic_Target a
     /\ Optim_Actor a' = Optim_Actor a
     /\ Optim_Critic a' = Optim_Critic a)
  /\ (LEARN_EVERY = 0%nat -> forall i, stepWith a i = None).
Proof.
  intros Hlen. split.
  - intros HLE. apply warm_up; assumption.
  - intros -> i. reflexivity.
Qed.




End WithCollaborators.

Local Abbreviation toySteps :=
  (TD3Agent.steps Defaults.BATCH_SIZE Defaults.LEARN_EVERY
     Defaults.UPDATE_CRITIC_TARGET_STEPS Defaults.UPDATE_ACTOR_TARGET_STEPS
     Defaults.TRAIN_ACTOR_STEPS Defaults.GAMMA Defaults.TAU
     Toy.actorForward Toy.criticForward Toy.criticOptimStep Toy.actorOptimStep).

Local Abbreviation toyStepWith :=
  (TD3Agent.stepWith Defaults.BATCH_SIZE Defaults.LEARN_EVERY
     Defaults.UPDATE_CRITIC_TARGET_STEPS Defaults.UPDATE_ACTOR_TARGET_STEPS
     Defaults.TRAIN_ACTOR_STEPS Defaults.GAMMA Defaults.TAU
     Toy.actorForward Toy.criticForward Toy.criticOptimStep Toy.actorOptimStep).

Lemma X14_witness :
  replayMem (stored toyAgent (transition 0))
  = ReplayBuffer.addAll (replayMem toyAgent) (map in_exp (Toy.inputs 1)).
Proof.
  apply (X14_steps_store_every_transition Defaults.BATCH_SIZE Defaults.LEARN_EVERY
           Defaults.UPDATE_CRITIC_TARGET_STEPS Defaults.UPDATE_ACTOR_TARGET_STEPS
           Defaults.TRAIN_ACTOR_STEPS Defaults.GAMMA Defaults.TAU unit
           Toy.actorForward Toy.criticForward Toy.criticOptimStep Toy.actorOptimStep
           toyAgent (stored toyAgent (transition 0)) (Toy.inputs 1)).
  reflexivity.
Defined.

Lemma X15_witness : is_Some (toySteps toyAgent (Toy.inputs 4)).
Proof.
  destruct (X15_nothing_is_learned_from_a_small_buffer Defaults.BATCH_SIZE
              Defaults.LEARN_EVERY
              Defaults.UPDATE_CRITIC_TARGET_STEPS Defaults.UPDATE_ACTOR_TARGET_STEPS
              Defaults.TRAIN_ACTOR_STEPS Defaults.GAMMA Defaults.TAU unit
              Toy.actorForward Toy.criticForward Toy.criticOptimStep
              Toy.actorOptimStep toyAgent (Toy.inputs 4)) as [H _].
  - vm_compute. lia.
  - destruct H as (a' & Hrun & _).
    + unfold Defaults.LEARN_EVERY. lia.
    + rewrite Hrun. eauto.
Defined.


End TD3More.

(** ** TD3Agent.act *)

Module TD3ActFacts.
Import NormalNoiseDecayStrategy NoiseRuns.

Lemma len_addAll_le BUFFER_SIZE BATCH_SIZE es :
  (ReplayBuffer.len
     (ReplayBuffer.addAll (ReplayBuffer.init BUFFER_SIZE BATCH_SIZE) es)
   <= BUFFER_SIZE)%nat.
Proof.
  destruct (ReplayBufferFacts.addAll_fields
              (ReplayBuffer.init BUFFER_SIZE BATCH_SIZE) es) as (Hm & _).
  unfold ReplayBuffer.len. rewrite Hm. simpl.
  rewrite DequeFacts.extend_empty, length_drop. lia.
Qed.

Lemma act_spec BUFFER_SIZE BATCH_SIZE es (s : t) output addNoise nrm :
  (0 < BUFFER_SIZE)%nat ->
  let mem := ReplayBuffer.addAll (ReplayBuffer.init BUFFER_SIZE BATCH_SIZE) es in
  (is_Some (TD3Act.act BUFFER_SIZE mem s output addNoise nrm)
   <-> (length output <> 1%nat /\ 0 <= high s /\ decaySteps s <> 0%nat))
  /\ forall actionVals s',
       TD3Act.act BUFFER_SIZE mem s output addNoise nrm = Some (actionVals, s') ->
       length (entries actionVals) = length output
       /\ (forall k x, output !! k = Some x ->
             entries actionVals !! k
             = Some (np_clip (np_clip (x + high s * nrm k) (low s) (high s)) (-1) 1))
       /\ Forall (fun y => -1 <= y <= 1) (entries actionVals)
       /\ step s' = (step s + 1)%nat
       /\ noiseRatio s' = Some (decayed s (step s)).
Proof.
  intros HB mem.
  assert (Hmax : (ReplayBuffer.len mem <? BUFFER_SIZE * 5)%nat = true).
  { apply Nat.ltb_lt. pose proof (len_addAll_le BUFFER_SIZE BATCH_SIZE es) as H.
    fold mem in H. lia. }
  unfold TD3Act.act. rewrite Hmax.
  pose proof (StrategyFacts.noisy_max_succeeds_iff s output nrm) as Hiff.
  destruct (selectAction s output true false nrm) as [[actionVals s1]|] eqn:E; cbn.
  - split.
    + split; [intros _; apply Hiff; eauto|eauto].
    + intros av s' [= <- <-].
      apply StrategyMore.selectAction_noisy in E
        as (noiseScale & Hsc & _ & _ & _ & -> & Hst & _ & _ & _ & _ & _ & Hnr).
      injection Hsc as <-. simpl. split_and!; try done.
      * rewrite !length_map, length_zip_with, length_map, length_seq. lia.
      * intros k x Hk.
        assert (Hlt : (k < length output)%nat) by (eapply lookup_lt_Some; eauto).
        rewrite !list_lookup_fmap, lookup_zip_with, Hk. cbn.
        rewrite list_lookup_fmap, lookup_seq_lt by done. reflexivity.
      * apply StrategyMore.clipped_entries. intros x.
        apply StrategyMore.np_clip_range. lra.
  - split.
    + split; [intros [? ?]; discriminate|].
      intros H. apply Hiff in H as [? ?]. discriminate.
    + intros av s' ?. discriminate.
Qed.

(** X17.  [TD3Agent.act] on a buffer filled by [addMem] from empty, for a
    positive [BUFFER_SIZE]: the buffer never holds [5 * BUFFER_SIZE]
    transitions, so [selectAction] is always called with
    [maxExploration = True] and the noise has scale [high], never the
    decayed ratio (which is still advanced by every call).  The call
    returns exactly when the actor has other than one output, [high] is
    not negative and [decaySteps] is not zero; entry [k] of the action is
    [output[k] + high * normal_k] clipped to [[low, high]] and then to
    [[-1, 1]].  [addNoise] makes no difference. *)
Theorem X17_act_explores_at_full_scale (BUFFER_SIZE BATCH_SIZE : nat)
  (es : list Experience) (s : t) (output : list R) (addNoise : bool)
  (nrm : nat -> R) :
  (0 < BUFFER_SIZE)%nat ->
  let mem := ReplayBuffer.addAll (ReplayBuffer.init BUFFER_SIZE BATCH_SIZE) es in
  (is_Some (TD3Act.act BUFFER_SIZE mem s output addNoise nrm)
   <-> (length output <> 1%nat /\ 0 <= high s /\ decaySteps s <> 0%nat))
  /\ TD3Act.act BUFFER_SIZE mem s output addNoise nrm
     = TD3Act.act BUFFER_SIZE mem s output (negb addNoise) nrm
  /\ forall actionVals s',
       TD3Act.act BUFFER_SIZE mem s output addNoise nrm = Some (actionVals, s') ->
       length (entries actionVals) = length output
       /\ (forall k x, output !! k = Some x ->
             entries actionVals !! k
             = Some (np_clip (np_clip (x + high s * nrm k) (low s) (high s)) (-1) 1))
       /\ Forall (fun y => -1 <= y <= 1) (entries actionVals)
       /\ step s' = (step s + 1)%nat
       /\ noiseRatio s' = Some (decayed s (step s)).
Proof.
  intros HB mem.
  destruct (act_spec BUFFER_SIZE BATCH_SIZE es s output addNoise nrm HB) as [H1 H2].
  split_and!; [exact H1|reflexivity|exact H2].
Qed.

Lemma X17_witness :
  TD3Act.act Defaults.BUFFER_SIZE
    (ReplayBuffer.addAll
       (ReplayBuffer.init Defaults.BUFFER_SIZE Defaults.BATCH_SIZE) [transition 0])
    (init_default (-1, 1)) [0.5; -3] true (fun _ => 0)
  = TD3Act.act Defaults.BUFFER_SIZE
    (ReplayBuffer.addAll
       (ReplayBuffer.init Defaults.BUFFER_SIZE Defaults.BATCH_SIZE) [transition 0])
    (init_default (-1, 1)) [0.5; -3] (negb true) (fun _ => 0).
Proof.
  apply (X17_act_explores_at_full_scale Defaults.BUFFER_SIZE Defaults.BATCH_SIZE
           [transition 0] (init_default (-1, 1)) [0.5; -3] true (fun _ => 0)).
  unfold Defaults.BUFFER_SIZE. lia.
Defined.

End TD3ActFacts.

(** ** Agent (DDPG) *)

Module AgentFacts.
Import Agent.

Lemma np_clip_mono x y lo hi : x <= y -> np_clip x lo hi <= np_clip y lo hi.
Proof.
  intros H. unfold np_clip. apply Rle_min_compat_l. apply Rle_max_compat_r. exact H.
Qed.

Section WithCollaborators.
Variables BATCH_SIZE LEARN_EVERY : nat.
Variables GAMMA TAU : R.
Variable Optimizer : Type.
Variable actorForward : Params -> Tensor -> Tensor.
Variable criticForward : Params -> Tensor -> Tensor -> Tensor.
Variable criticOptimStep :
  Optimizer -> Params -> ReplayBuffer.Batch -> Tensor -> Optimizer * Params.
Variable actorOptimStep :
  Optimizer -> Params -> Params -> Tensor -> Optimizer * Params.

Local Abbreviation agent := (Agent.t Optimizer).
Local Abbreviation bellmanTargets :=
  (Agent.bellmanTargets GAMMA Optimizer actorForward criticForward).
Local Abbreviation learn :=
  (Agent.learn GAMMA TAU Optimizer actorForward criticForward criticOptimStep
     actorOptimStep).
Local Abbreviation stepWith :=
  (Agent.stepWith BATCH_SIZE LEARN_EVERY GAMMA TAU Optimizer actorForward criticForward
     criticOptimStep actorOptimStep).
Local Abbreviation steps :=
  (Agent.steps BATCH_SIZE LEARN_EVERY GAMMA TAU Optimizer actorForward criticForward
     criticOptimStep actorOptimStep).

Lemma ddpg_learn_spec (a : agent) experiences :
  let a' := learn a experiences in
  stepNum a' = stepNum a /\ replayMem a' = replayMem a /\ noise a' = noise a
  /\ actionSize a' = actionSize a
  /\ QNet_Critic_Local a'
     = snd (criticOptimStep (Optim_Critic a) (QNet_Critic_Local a) experiences
              (bellmanTargets a experiences))
  /\ QNet_Actor_Local a'
     = snd (actorOptimStep (Optim_Actor a) (QNet_Actor_Local a)
              (QNet_Critic_Local a') (ReplayBuffer.states experiences))
  /\ QNet_Critic_Target a'
     = fst (softUpdate TAU (QNet_Critic_Target a) (QNet_Critic_Local a'))
  /\ QNet_Actor_Target a'
     = fst (softUpdate TAU (QNet_Actor_Target a) (QNet_Actor_Local a')).
Proof.
  unfold Agent.learn.
  destruct (criticOptimStep _ _ _ _) as [optC criticLocal].
  destruct (actorOptimStep _ _ _ _) as [optA actorLocal] eqn:EA.
  simpl. rewrite EA. split_and!; reflexivity.
Qed.

Lemma softUpdate_entry (targetModel localModel : Params) i j targetParams localParams t l :
  targetModel !! i = Some targetParams -> localModel !! i = Some localParams ->
  targetParams !! j = Some t -> localParams !! j = Some l ->
  exists newParams,
    fst (softUpdate TAU targetModel localModel) !! i = Some newParams
    /\ newParams !! j = Some (TAU * l + (1 - TAU) * t).
Proof.
  intros Hi Hli Hj Hlj. unfold softUpdate. simpl.
  eexists. split.
  - rewrite lookup_app_l.
    + rewrite lookup_zip_with, Hi, Hli. reflexivity.
    + rewrite length_zip_with.
      apply lookup_lt_Some in Hi. apply lookup_lt_Some in Hli. lia.
  - apply SoftUpdateFacts.blend_lookup; assumption.
Qed.

Lemma ddpg_bellman_entry (a : agent) experiences r rw q d :
  ReplayBuffer.rewards experiences !! r = Some [rw] ->
  criticForward (QNet_Critic_Target a) (ReplayBuffer.nextStates experiences)
    (actorForward (QNet_Actor_Target a) (ReplayBuffer.nextStates experiences)) !! r
  = Some [q] ->
  ReplayBuffer.dones experiences !! r = Some [d] ->
  bellmanTargets a experiences !! r = Some [rw + GAMMA * q * (1 - d)].
Proof.
  intros Hrw Hq Hd. unfold Agent.bellmanTargets, t_zip, t_map.
  rewrite lookup_zip_with, Hrw. cbn.
  rewrite lookup_zip_with, !list_lookup_fmap, Hq, Hd. cbn. reflexivity.
Qed.

(** X18.  [Agent.learn] (DDPG).  Row [r] of the targets is
    [reward + GAMMA * Q * (1 - done)], [Q] being the target critic's value
    of the next state and the target actor's action there, so a terminal
    transition ([done = 1]) has its reward as target.  Every call moves
    both target networks: each entry becomes
    [TAU * local + (1 - TAU) * target] with the entry of the local network
    as it is after the optimiser step of the same call.  The step counter,
    the buffer and the noise process are not touched. *)
Theorem X18_learn_moves_both_targets (a : agent) (experiences : ReplayBuffer.Batch) :
  let a' := learn a experiences in
  let Q := criticForward (QNet_Critic_Target a) (ReplayBuffer.nextStates experiences)
             (actorForward (QNet_Actor_Target a)
                (ReplayBuffer.nextStates experiences)) in
  (forall r rw q d,
     ReplayBuffer.rewards experiences !! r = Some [rw] ->
     Q !! r = Some [q] ->
     ReplayBuffer.dones experiences !! r = Some [d] ->
     bellmanTargets a experiences !! r = Some [rw + GAMMA * q * (1 - d)]
     /\ (d = 1 -> bellmanTargets a experiences !! r = Some [rw]))
  /\ (forall i j targetParams localParams t l,
        QNet_Critic_Target a !! i = Some targetParams ->
        QNet_Critic_Local a' !! i = Some localParams ->
        targetParams !! j = Some t -> localParams !! j = Some l ->
        exists newParams,
          QNet_Critic_Target a' !! i = Some newParams
          /\ newParams !! j = Some (TAU * l + (1 - TAU) * t))
  /\ (forall i j targetParams localParams t l,
        QNet_Actor_Target a !! i = Some targetParams ->
        QNet_Actor_Local a' !! i = Some localParams ->
        targetParams !! j = Some t -> localParams !! j = Some l ->
        exists newParams,
          QNet_Actor_Target a' !! i = Some newParams
          /\ newParams !! j = Some (TAU * l + (1 - TAU) * t))
  /\ stepNum a' = stepNum a /\ replayMem a' = replayMem a /\ noise a' = noise a.
Proof.
  intros a' Q.
  destruct (ddpg_learn_spec a experiences) as (Hn & Hm & Hno & _ & _ & _ & Hct & Hat).
  fold a' in Hn, Hm, Hno, Hct, Hat.
  split_and!; try done.
  - intros r rw q d Hrw Hq Hd.
    pose proof (ddpg_bellman_entry a experiences r rw q d Hrw Hq Hd) as Ht.
    split; [exact Ht|]. intros ->. rewrite Ht. do 2 f_equal. lra.
  - intros i j tp lp t l Hi Hli Hj Hlj. rewrite Hct.
    apply (softUpdate_entry _ _ i j tp lp t l); assumption.
  - intros i j tp lp t l Hi Hli Hj Hlj. rewrite Hat.
    apply (softUpdate_entry _ _ i j tp lp t l); assumption.
Qed.

(** One call of [step]. *)
Lemma ddpg_step_spec (a a' : agent) (i : StepInput) :
  stepWith a i = Some a' ->
  LEARN_EVERY <> 0%nat
  /\ stepNum a' = ((stepNum a + 1) mod LEARN_EVERY)%nat
  /\ replayMem a' = ReplayBuffer.addExp (replayMem a) (in_exp i)
  /\ noise a' = noise a
  /\ (((stepNum a + 1) mod LEARN_EVERY <> 0
       \/ ReplayBuffer.len (ReplayBuffer.addExp (replayMem a) (in_exp i))
          <= BATCH_SIZE)%nat ->
      QNet_Actor_Local a' = QNet_Actor_Local a
      /\ QNet_Actor_Target a' = QNet_Actor_Target a
      /\ QNet_Critic_Local a' = QNet_Critic_Local a
      /\ QNet_Critic_Target a' = QNet_Critic_Target a).
Proof.
  unfold Agent.stepWith, Agent.step.
  fold (ReplayBuffer.addExp (replayMem a) (in_exp i)).
  set (mem := ReplayBuffer.addExp (replayMem a) (in_exp i)).
  destruct (pymod (stepNum a + 1) LEARN_EVERY) as [r|] eqn:ER; [|discriminate].
  cbn [mbind option_bind]. apply TD3Facts.pymod_Some in ER as [HLE ->].
  destruct (Nat.eqb_spec ((stepNum a + 1) mod LEARN_EVERY) 0) as [H0|H0].
  2:{ intros [= <-]. simpl. split_and!; done. }
  destruct (Nat.ltb_spec BATCH_SIZE (ReplayBuffer.len mem)) as [Hlt|Hge].
  2:{ intros [= <-]. simpl. split_and!; done. }
  destruct (ReplayBuffer.memSample mem (in_picks i)) as [[experienceSample mem']|];
    [|discriminate].
  cbn [mbind option_bind]. intros [= <-].
  match goal with |- context [Agent.learn _ _ _ _ _ _ _ ?b ?e] =>
    destruct (ddpg_learn_spec b e) as (Hn & Hm & Hno & _) end.
  rewrite Hn, Hm, Hno. simpl. split_and!; try done.
  intros [?|?]; [done|lia].
Qed.

Lemma ddpg_steps_spec (a a' : agent) (inputs : list StepInput) :
  steps a inputs = Some a' ->
  (inputs <> [] -> LEARN_EVERY <> 0%nat)
  /\ (inputs <> [] ->
      stepNum a' = ((stepNum a + length inputs) mod LEARN_EVERY)%nat)
  /\ replayMem a' = ReplayBuffer.addAll (replayMem a) (map in_exp inputs)
  /\ noise a' = noise a
  /\ ((forall k, (1 <= k <= length inputs)%nat ->
         ((stepNum a + k) mod LEARN_EVERY <> 0)%nat) ->
      QNet_Actor_Local a' = QNet_Actor_Local a
      /\ QNet_Actor_Target a' = QNet_Actor_Target a
      /\ QNet_Critic_Local a' = QNet_Critic_Local a
      /\ QNet_Critic_Target a' = QNet_Critic_Target a).
Proof.
  revert a. induction inputs as [|i inputs IH]; intros a H; simpl in H.
  - injection H as <-. split_and!; done.
  - destruct (stepWith a i) as [a1|] eqn:E; [|discriminate]. cbn in H.
    destruct (ddpg_step_spec a a1 i E) as (HLE & Hn1 & Hm1 & Hno1 & Hk1).
    destruct (IH a1 H) as (_ & Hn & Hm & Hno & Hk).
    split_and!.
    + intros _. exact HLE.
    + intros _. destruct inputs as [|i2 inputs].
      * simpl in H. injection H as <-. rewrite Hn1. simpl. reflexivity.
      * rewrite Hn by done. rewrite Hn1.
        rewrite Nat.Div0.add_mod_idemp_l. f_equal. simpl. lia.
    + rewrite Hm, Hm1. reflexivity.
    + congruence.
    + intros Hoff.
      destruct Hk1 as (H1 & H2 & H3 & H4).
      { left. apply (Hoff 1%nat). simpl. lia. }
      destruct Hk as (H5 & H6 & H7 & H8).
      { intros k Hk'. rewrite Hn1.
        rewrite Nat.Div0.add_mod_idemp_l.
        replace (stepNum a + 1 + k)%nat with (stepNum a + S k)%nat by lia.
        apply Hoff. simpl. lia. }
      split_and!; congruence.
Qed.

(** X19.  [Agent.step] (DDPG) keeps its counter modulo [LEARN_EVERY]:
    after a non-empty run of calls that return, [LEARN_EVERY] is not zero,
    the counter is [(stepNum + calls) mod LEARN_EVERY] and so below
    [LEARN_EVERY], every transition has been stored in order, the noise
    process is untouched, and the four networks are as before unless some
    call brought the count to a multiple of [LEARN_EVERY]. *)
Theorem X19_step_counts_modulo_LEARN_EVERY (a a' : agent)
  (inputs : list StepInput) :
  steps a inputs = Some a' -> inputs <> [] ->
  LEARN_EVERY <> 0%nat
  /\ stepNum a' = ((stepNum a + length inputs) mod LEARN_EVERY)%nat
  /\ (stepNum a' < LEARN_EVERY)%nat
  /\ replayMem a' = ReplayBuffer.addAll (replayMem a) (map in_exp inputs)
  /\ noise a' = noise a
  /\ ((forall k, (1 <= k <= length inputs)%nat ->
         ((stepNum a + k) mod LEARN_EVERY <> 0)%nat) ->
      QNet_Actor_Local a' = QNet_Actor_Local a
      /\ QNet_Actor_Target a' = QNet_Actor_Target a
      /\ QNet_Critic_Local a' = QNet_Critic_Local a
      /\ QNet_Critic_Target a' = QNet_Critic_Target a).
Proof.
  intros Hrun Hne.
  destruct (ddpg_steps_spec a a' inputs Hrun) as (HLE & Hn & Hm & Hno & Hk).
  split_and!; try done.
  - apply HLE, Hne.
  - apply Hn, Hne.
  - rewrite (Hn Hne). apply Nat.mod_upper_bound. apply HLE, Hne.
Qed.

(** *** [act] and the one-sided noise *)

Lemma act_greedy (a : agent) actionVals draw :
  act a actionVals false draw
  = Some (map (fun x => np_clip x (-1) 1) actionVals, a).
Proof. reflexivity. Qed.

Lemma act_noisy (a : agent) actionVals draw :
  0 < OUNoise.theta (noise a) <= 1 -> 0 <= OUNoise.sigma (noise a) ->
  NoiseRuns.confined (noise a) ->
  Forall (fun m => 0 <= m) (OUNoise.mu (noise a)) ->
  length (OUNoise.mu (noise a)) = length actionVals ->
  OUNoise.random_random_ok draw ->
  exists row a',
    act a actionVals true draw = Some (row, a')
    /\ length row = length actionVals
    /\ (forall k x, actionVals !! k = Some x ->
          exists y, row !! k = Some y /\ np_clip x (-1) 1 <= y <= 1)
    /\ noise a' = snd (OUNoise.sample (noise a) draw)
    /\ NoiseRuns.confined (noise a')
    /\ replayMem a' = replayMem a /\ stepNum a' = stepNum a
    /\ QNet_Actor_Local a' = QNet_Actor_Local a.
Proof.
  intros Ht Hs Hc Hmu Hlen Hdraw.
  pose proof (OUNoiseMore.confined_sample (noise a) draw Ht Hs Hdraw Hc) as Hc'.
  unfold act. destruct (OUNoise.sample (noise a) draw) as [sample noise'] eqn:Es.
  assert (Hsn : sample = OUNoise.state noise').
  { unfold OUNoise.sample in Es. injection Es as <- <-. reflexivity. }
  assert (Hmu' : OUNoise.mu noise' = OUNoise.mu (noise a)).
  { unfold OUNoise.sample in Es. injection Es as _ <-. reflexivity. }
  simpl in Hc'. unfold NoiseRuns.confined in Hc'.
  assert (Hsl : length sample = length actionVals).
  { rewrite Hsn, (Forall2_length _ _ _ Hc'), Hmu'. exact Hlen. }
  unfold iadd. rewrite Hsl, Nat.eqb_refl. cbn.
  eexists _, _. split; [reflexivity|]. simpl. split_and!; try done.
  - rewrite length_map, length_zip_with. lia.
  - intros k x Hk.
    destruct (lookup_lt_is_Some_2 sample k) as [n Hn].
    { rewrite Hsl. eapply lookup_lt_Some; eauto. }
    destruct (lookup_lt_is_Some_2 (OUNoise.mu noise') k) as [m Hm].
    { rewrite Hmu', Hlen. eapply lookup_lt_Some; eauto. }
    rewrite Hsn in Hn.
    pose proof (Forall2_lookup_lr _ _ _ _ _ _ Hc' Hn Hm) as [Hlo _].
    assert (Hm0 : 0 <= m).
    { rewrite Hmu' in Hm. exact (Forall_lookup_1 _ _ _ _ Hmu Hm). }
    exists (np_clip (x + n) (-1) 1).
    rewrite list_lookup_fmap, lookup_zip_with, Hk. cbn.
    rewrite Hsn, Hn. cbn. split; [reflexivity|]. split.
    + apply np_clip_mono. lra.
    + apply StrategyMore.np_clip_range. lra.
Qed.

(** X20.  [Agent.act] (DDPG).  Without noise the result is the actor's
    output clipped to [[-1, 1]] and the agent is unchanged.  With noise,
    for a noise process with [0 < theta <= 1], [sigma >= 0], a mean that
    is nowhere negative and a state within [[mu, mu + sigma / theta]] (as
    after [reset()], and the call keeps it so), the call returns an action
    of the same length whose every entry is at least the entry of the
    noise-free action and at most [1]: the noise never lowers an action.
    Only the noise process is advanced. *)
Theorem X20_noise_never_lowers_an_action (a : agent) (actionVals : list R)
  (draw : nat -> R) :
  0 < OUNoise.theta (noise a) <= 1 -> 0 <= OUNoise.sigma (noise a) ->
  NoiseRuns.confined (noise a) ->
  Forall (fun m => 0 <= m) (OUNoise.mu (noise a)) ->
  length (OUNoise.mu (noise a)) = length actionVals ->
  OUNoise.random_random_ok draw ->
  act a actionVals false draw
  = Some (map (fun x => np_clip x (-1) 1) actionVals, a)
  /\ exists row a',
       act a actionVals true draw = Some (row, a')
       /\ length row = length actionVals
       /\ (forall k x, actionVals !! k = Some x ->
             exists y, row !! k = Some y /\ np_clip x (-1) 1 <= y <= 1)
       /\ noise a' = snd (OUNoise.sample (noise a) draw)
       /\ NoiseRuns.confined (noise a')
       /\ replayMem a' = replayMem a /\ stepNum a' = stepNum a
       /\ QNet_Actor_Local a' = QNet_Actor_Local a.
Proof.
  intros Ht Hs Hc Hmu Hlen Hdraw. split; [apply act_greedy|].
  apply act_noisy; assumption.
Qed.

End WithCollaborators.

(** A freshly constructed agent meets the conditions of [act_noisy]. *)
Lemma init_noise BUFFER_SIZE BATCH_SIZE Optimizer size al at_ cl ct (oa oc : Optimizer) :
  let a := Agent.init BUFFER_SIZE BATCH_SIZE Optimizer size al at_ cl ct oa oc in
  0 < OUNoise.theta (noise a) <= 1 /\ 0 <= OUNoise.sigma (noise a)
  /\ NoiseRuns.confined (noise a)
  /\ Forall (fun m => 0 <= m) (OUNoise.mu (noise a))
  /\ length (OUNoise.mu (noise a)) = size.
Proof.
  simpl. split_and!; try lra.
  - apply OUNoiseMore.confined_reset; simpl; lra.
  - apply Forall_map, Forall_replicate. simpl. lra.
  - rewrite length_map, length_replicate. reflexivity.
Qed.

Lemma X18_witness :
  Agent.stepNum
    (Agent.learn 0.99 0.001 unit (fun _ s => s) (fun _ s _ => s)
       (fun o p _ _ => (o, p)) (fun o p _ _ => (o, p))
       (Agent.init 5 2 unit 1 [[0]] [[0]] [[0]] [[0]] tt tt) Samples.batch)
  = 0%nat.
Proof.
  apply (X18_learn_moves_both_targets 0.99 0.001 unit (fun _ s => s) (fun _ s _ => s)
           (fun o p _ _ => (o, p)) (fun o p _ _ => (o, p))
           (Agent.init 5 2 unit 1 [[0]] [[0]] [[0]] [[0]] tt tt) Samples.batch).
Defined.

Lemma X19_witness :
  Agent.stepNum
    {| Agent.actionSize := 1; Agent.stepNum := 1;
       Agent.QNet_Actor_Local := [[0]]; Agent.QNet_Actor_Target := [[0]];
       Agent.QNet_Critic_Local := [[0]]; Agent.QNet_Critic_Target := [[0]];
       Agent.Optim_Actor := tt; Agent.Optim_Critic := tt;
       Agent.noise := OUNoise.init 1 0 0.15 0.2;
       Agent.replayMem := ReplayBuffer.addExp (ReplayBuffer.init 5 2) (transition 0) |}
  = ((0 + length [Agent.mkStepInput (transition 0) [0; 1]%nat]) mod 4)%nat.
Proof.
  apply (X19_step_counts_modulo_LEARN_EVERY 2 4 0.99 0.001 unit
           (fun _ s => s) (fun _ s _ => s)
           (fun o p _ _ => (o, p)) (fun o p _ _ => (o, p))
           (Agent.init 5 2 unit 1 [[0]] [[0]] [[0]] [[0]] tt tt)
           _ [Agent.mkStepInput (transition 0) [0; 1]%nat]).
  - reflexivity.
  - discriminate.
Defined.

Lemma X20_witness :
  Agent.act (Agent.init 5 2 unit 1 [[0]] [[0]] [[0]] [[0]] tt tt) [0.5] false
    (fun _ => 0.5)
  = Some (map (fun x => np_clip x (-1) 1) [0.5],
          Agent.init 5 2 unit 1 [[0]] [[0]] [[0]] [[0]] tt tt).
Proof.
  apply (X20_noise_never_lowers_an_action unit
           (Agent.init 5 2 unit 1 [[0]] [[0]] [[0]] [[0]] tt tt) [0.5]
           (fun _ => 0.5)).
  - simpl. lra.
  - simpl. lra.
  - constructor; [simpl; lra|constructor].
  - constructor; [lra|constructor].
  - reflexivity.
  - intros i. lra.
Defined.

End AgentFacts.

(** ** Repeated Polyak averaging *)

Module SoftUpdatesFacts.

Lemma same_shape_softUpdate TAU (targetModel localModel : Params) :
  same_shape targetModel localModel ->
  same_shape (fst (softUpdate TAU targetModel localModel)) localModel.
Proof.
  intros Hs. rewrite (SoftUpdateFacts.softUpdate_same_shape _ _ _ Hs).
  unfold same_shape in *. induction Hs as [|t l ts ls Htl Hs IH]; simpl.
  - constructor.
  - constructor; [|exact IH]. rewrite length_zip_with. lia.
Qed.

Lemma softUpdates_entry TAU n (targetModel localModel : Params) :
  same_shape targetModel localModel ->
  same_shape (softUpdates TAU n targetModel localModel) localModel
  /\ forall i j targetParams localParams t l,
       targetModel !! i = Some targetParams -> localModel !! i = Some localParams ->
       targetParams !! j = Some t -> localParams !! j = Some l ->
       exists newParams,
         softUpdates TAU n targetModel localModel !! i = Some newParams
         /\ newParams !! j = Some (l + (1 - TAU) ^ n * (t - l)).
Proof.
  revert targetModel. induction n as [|n IH]; intros targetModel Hs.
  - split; [exact Hs|]. intros i j tp lp t l Hi Hli Hj Hlj.
    exists tp. split; [exact Hi|]. rewrite Hj. f_equal. simpl. ring.
  - cbn [softUpdates]. pose proof (same_shape_softUpdate TAU _ _ Hs) as Hs1.
    destruct (IH _ Hs1) as [Hs2 Hent]. split; [exact Hs2|].
    intros i j tp lp t l Hi Hli Hj Hlj.
    rewrite (SoftUpdateFacts.softUpdate_same_shape _ _ _ Hs) in Hent.
    destruct (Hent i j
                (zip_with (fun t l => TAU * l + (1 - TAU) * t) tp lp) lp
                (TAU * l + (1 - TAU) * t) l) as (np & Hnp & Hnj); try done.
    + rewrite lookup_zip_with, Hi, Hli. reflexivity.
    + apply SoftUpdateFacts.blend_lookup; assumption.
    + exists np.
      rewrite (SoftUpdateFacts.softUpdate_same_shape _ _ _ Hs).
      split; [exact Hnp|]. rewrite Hnj. apply f_equal. simpl. ring.
Qed.

Lemma pow_le_one x n : 0 <= x <= 1 -> 0 <= x ^ n <= 1.
Proof.
  intros [H0 H1]. induction n as [|n [IH0 IH1]]; simpl; [lra|]. split.
  - apply Rmult_le_pos; assumption.
  - replace 1 with (1 * 1) by ring. apply Rmult_le_compat; assumption.
Qed.

(** X21.  [softUpdate] called [n] times on two networks of one
    architecture, the local one staying as it is: the target keeps its
    shape and every entry is [local + (1 - TAU)^n * (target - local)], the
    gap to the local network shrinking by the factor [1 - TAU] per call.
    For [0 <= TAU <= 1] the entry is never further from the local entry
    than it was at the start. *)
Theorem X21_repeated_softUpdate_closes_the_gap (TAU : R) (n : nat)
  (targetModel localModel : Params) :
  same_shape targetModel localModel ->
  same_shape (softUpdates TAU n targetModel localModel) localModel
  /\ forall i j targetParams localParams t l,
       targetModel !! i = Some targetParams -> localModel !! i = Some localParams ->
       targetParams !! j = Some t -> localParams !! j = Some l ->
       exists newParams x,
         softUpdates TAU n targetModel localModel !! i = Some newParams
         /\ newParams !! j = Some x
         /\ x - l = (1 - TAU) ^ n * (t - l)
         /\ (0 <= TAU <= 1 -> Rabs (x - l) <= Rabs (t - l)).
Proof.
  intros Hs. destruct (softUpdates_entry TAU n _ _ Hs) as [Hs' Hent].
  split; [exact Hs'|].
  intros i j tp lp t l Hi Hli Hj Hlj.
  destruct (Hent i j tp lp t l Hi Hli Hj Hlj) as (np & Hnp & Hnj).
  exists np, (l + (1 - TAU) ^ n * (t - l)). split_and!; try done.
  - ring.
  - intros HT.
    replace (l + (1 - TAU) ^ n * (t - l) - l) with ((1 - TAU) ^ n * (t - l)) by ring.
    rewrite Rabs_mult.
    destruct (pow_le_one (1 - TAU) n) as [Hp0 Hp1]; [lra|].
    rewrite (Rabs_pos_eq _ Hp0).
    pose proof (Rabs_pos (t - l)). nra.
Qed.

Lemma X21_witness :
  same_shape (softUpdates 0.001 3 Samples.targetNet Samples.localNet) Samples.localNet.
Proof.
  apply (X21_repeated_softUpdate_closes_the_gap 0.001 3 Samples.targetNet
           Samples.localNet).
  unfold same_shape, Samples.targetNet, Samples.localNet. repeat constructor.
Defined.

End SoftUpdatesFacts.

(** ** The beta schedule of prioritized replay *)

Module ScheduleFacts.
Import TD3Schedule.

Lemma betaAt_inside total k :
  (k <= total)%nat ->
  betaAt total k = Some (0.4 + INR k * ((1.0 - 0.4) / INR total)).
Proof.
  intros Hk. unfold betaAt, betaSchedule, np_linspace, BETA_INITIAL, BETA_FINAL.
  rewrite list_lookup_fmap, lookup_seq_lt by lia. cbn.
  replace (total + 1 - 1)%nat with total by lia. reflexivity.
Qed.

Lemma betaAt_outside total k : (total < k)%nat -> betaAt total k = None.
Proof.
  intros Hk. unfold betaAt, betaSchedule, np_linspace.
  apply lookup_ge_None_2. rewrite length_map, length_seq. lia.
Qed.

(** X26.  The schedule [np.linspace(BETA_INITIAL, BETA_FINAL,
    totalTimeSteps + 1)] read at [stepNum]: the lookup raises exactly when
    [stepNum] exceeds [totalTimeSteps]; it starts at [0.4], and for a
    positive [totalTimeSteps] it is
    [0.4 + 0.6 * stepNum / totalTimeSteps], which never decreases, stays
    in [[0.4, 1]] and is [1] at [totalTimeSteps]. *)
Theorem X26_beta_schedule (totalTimeSteps stepNum : nat) :
  (betaAt totalTimeSteps stepNum = None <-> (totalTimeSteps < stepNum)%nat)
  /\ betaAt totalTimeSteps 0 = Some 0.4
  /\ ((0 < totalTimeSteps)%nat -> (stepNum <= totalTimeSteps)%nat ->
      exists beta,
        betaAt totalTimeSteps stepNum = Some beta
        /\ beta = 0.4 + 0.6 * INR stepNum / INR totalTimeSteps
        /\ 0.4 <= beta <= 1
        /\ (stepNum = totalTimeSteps -> beta = 1)
        /\ forall k beta', (k <= stepNum)%nat ->
             betaAt totalTimeSteps k = Some beta' -> beta' <= beta).
Proof.
  split_and!.
  - split.
    + intros Hn. destruct (Nat.lt_ge_cases totalTimeSteps stepNum) as [|Hle]; [done|].
      rewrite betaAt_inside in Hn by done. discriminate.
    + apply betaAt_outside.
  - rewrite betaAt_inside by lia. f_equal. simpl. lra.
  - intros Hpos Hk.
    assert (HT : 0 < INR totalTimeSteps) by (apply lt_0_INR; lia).
    assert (Hfrac : forall j, (j <= totalTimeSteps)%nat ->
              0 <= INR j / INR totalTimeSteps <= 1).
    { intros j Hj. split.
      - apply Rmult_le_pos; [apply pos_INR|]. left. apply Rinv_0_lt_compat, HT.
      - apply Rmult_le_reg_r with (INR totalTimeSteps); [exact HT|].
        unfold Rdiv. rewrite Rmult_assoc, Rinv_l by lra.
        rewrite Rmult_1_r, Rmult_1_l. apply le_INR, Hj. }
    exists (0.4 + 0.6 * INR stepNum / INR totalTimeSteps). split_and!.
    + rewrite betaAt_inside by done. f_equal. unfold Rdiv. lra.
    + reflexivity.
    + destruct (Hfrac stepNum Hk). unfold Rdiv in *. nra.
    + destruct (Hfrac stepNum Hk). unfold Rdiv in *. nra.
    + intros E. rewrite E. unfold Rdiv. rewrite Rmult_assoc, Rinv_r by lra. lra.
    + intros k beta' Hkk Hb. rewrite betaAt_inside in Hb by lia.
      injection Hb as <-.
      assert (Hle : INR k / INR totalTimeSteps <= INR stepNum / INR totalTimeSteps).
      { unfold Rdiv. apply Rmult_le_compat_r.
        - left. apply Rinv_0_lt_compat, HT.
        - apply le_INR, Hkk. }
      unfold Rdiv in *. nra.
Qed.

End ScheduleFacts.

(** * The networks: shapes and ranges *)

Module NetworkFacts.
Import Networks.

(** ** Layers *)

Lemma linear_row_made sizes l x :
  made_by sizes l -> length x = fst sizes ->
  exists y, linear_row l x = Some y /\ length y = snd sizes.
Proof.
  intros (Hi & _ & Hw & _ & Hb) Hx. unfold linear_row.
  rewrite Hx, Hi, Nat.eqb_refl. eexists. split; [reflexivity|].
  rewrite length_zip_with, length_map. lia.
Qed.

Lemma linear_made sizes l (x : Tensor) :
  made_by sizes l -> width (fst sizes) x ->
  exists y, linear l x = Some y /\ length y = length x /\ width (snd sizes) y.
Proof.
  intros Hl Hx. unfold linear, width in *.
  induction Hx as [|row x Hrow Hx IH].
  - exists []. split_and!; [reflexivity|reflexivity|constructor].
  - destruct IH as (y & Hy & Hlen & Hw).
    destruct (linear_row_made sizes l row Hl Hrow) as (r & Hr & Hrl).
    exists (r :: y). cbn. rewrite Hr. cbn.
    change (mapM (linear_row l) x) with (mapM (linear_row l) x). rewrite Hy. cbn.
    split_and!; [reflexivity|simpl; lia|constructor; assumption].
Qed.

Lemma linear_wrong_width l (x : Tensor) :
  Exists (fun row => length row <> in_features l) x -> linear l x = None.
Proof.
  intros Hx. unfold linear. induction Hx as [row x Hrow|row x Hx IH].
  - cbn. unfold linear_row.
    destruct (Nat.eqb_spec (length row) (in_features l)); [done|reflexivity].
  - cbn. destruct (linear_row l row); [|reflexivity]. cbn. rewrite IH. reflexivity.
Qed.

Lemma width_t_map f w (x : Tensor) : width w x -> width w (t_map f x).
Proof.
  unfold width, t_map. intros H. apply Forall_map.
  eapply Forall_impl; [exact H|]. intros row Hrow. cbn. rewrite length_map. exact Hrow.
Qed.

Lemma relu_layers_chain sizes layers w w' (x : Tensor) :
  Forall2 made_by sizes layers -> chained w sizes w' -> width w x ->
  exists y, relu_layers layers x = Some y /\ length y = length x /\ width w' y.
Proof.
  intros Hl. revert w x. induction Hl as [|sz l sizes layers Hm Hl IH]; intros w x Hc Hx.
  - simpl in Hc. subst w'. exists x. done.
  - destruct Hc as [Hin Hc]. rewrite <- Hin in Hx.
    destruct (linear_made sz l x Hm Hx) as (y & Hy & Hlen & Hw).
    destruct (IH (snd sz) (t_map relu y) Hc (width_t_map relu _ _ Hw))
      as (z & Hz & Hzl & Hzw).
    exists z. simpl. rewrite Hy. cbn. rewrite Hz. split_and!; try done.
    rewrite Hzl. unfold t_map. rewrite length_map. exact Hlen.
Qed.

(** ** The sizes [buildNetwork] chooses *)

Lemma layerSizes_cons a b rest :
  layerSizes (a :: b :: rest) = (a, b) :: layerSizes (b :: rest).
Proof.
  unfold layerSizes. simpl. rewrite !Nat.sub_0_r. reflexivity.
Qed.

Lemma layerSizes_chained h h0 hl :
  h !! 0%nat = Some h0 -> last h = Some hl -> chained h0 (layerSizes h) hl.
Proof.
  revert h0. induction h as [|a [|b rest] IH]; intros h0 H0 Hl.
  - discriminate.
  - simpl in *. congruence.
  - rewrite layerSizes_cons. injection H0 as <-. split; [reflexivity|].
    apply IH; [reflexivity|exact Hl].
Qed.

(** ** tanh *)

Lemma tanh_range x : -1 <= tanh x <= 1.
Proof.
  unfold tanh, sinh, cosh.
  pose proof (exp_pos x) as Hp. pose proof (exp_pos (- x)) as Hn.
  assert (Hc : 0 < (exp x + exp (- x)) / 2) by lra.
  split.
  - apply Rmult_le_reg_r with ((exp x + exp (- x)) / 2); [exact Hc|].
    unfold Rdiv at 2. rewrite Rmult_assoc, Rinv_l by lra. lra.
  - apply Rmult_le_reg_r with ((exp x + exp (- x)) / 2); [exact Hc|].
    unfold Rdiv at 1. rewrite Rmult_assoc, Rinv_l by lra. lra.
Qed.

(** ** Actor *)

Lemma actor_buildNetwork stateSize actionSize hiddenLayers :
  (Actor.buildNetwork stateSize actionSize hiddenLayers = None <-> hiddenLayers = [])
  /\ forall sizes outSizes,
       Actor.buildNetwork stateSize actionSize hiddenLayers = Some (sizes, outSizes) ->
       length sizes = length hiddenLayers
       /\ snd outSizes = actionSize
       /\ chained stateSize sizes (fst outSizes).
Proof.
  unfold Actor.buildNetwork. destruct hiddenLayers as [|h0 rest].
  - split; [done|]. intros ? ? ?. discriminate.
  - cbn [lookup list_lookup mbind option_bind].
    destruct (last (h0 :: rest)) as [hl|] eqn:El.
    2:{ apply last_None in El. discriminate. }
    cbn [mbind option_bind]. split; [split; discriminate|].
    intros sizes outSizes [= <- <-]. split_and!.
    + cbn [length]. f_equal. unfold layerSizes.
      rewrite length_zip, length_take, length_drop. cbn [length]. lia.
    + reflexivity.
    + split; [reflexivity|]. cbn [fst snd].
      apply layerSizes_chained; [reflexivity|exact El].
Qed.

Lemma actor_forward (a : Actor.t) (state : Tensor) :
  Actor.built a -> width (Actor.stateSize a) state ->
  exists y,
    Actor.forward a state = Some y
    /\ length y = length state
    /\ width (Actor.actionSize a) y
    /\ Forall (Forall (fun v => -1 <= v <= 1)) y.
Proof.
  intros (sizes & outSizes & Hb & Hl & Ho) Hx.
  destruct (actor_buildNetwork (Actor.stateSize a) (Actor.actionSize a)
              (Actor.hiddenLayers a)) as [_ Hs].
  destruct (Hs sizes outSizes Hb) as (_ & Hout & Hc).
  destruct (relu_layers_chain sizes _ _ _ state Hl Hc Hx) as (x & Hx1 & Hxl & Hxw).
  destruct (linear_made outSizes _ x Ho Hxw) as (y & Hy & Hyl & Hyw).
  exists (t_map tanh y). unfold Actor.forward. rewrite Hx1. cbn. rewrite Hy. cbn.
  split_and!; try done.
  - unfold t_map. rewrite length_map. congruence.
  - rewrite <- Hout. apply width_t_map, Hyw.
  - unfold t_map. apply Forall_map, Forall_true. intros row. cbn.
    apply Forall_map, Forall_true. intros v. cbn. apply tanh_range.
Qed.

Lemma actor_forward_wrong_width (a : Actor.t) (state : Tensor) :
  Actor.built a ->
  Exists (fun row => length row <> Actor.stateSize a) state ->
  Actor.forward a state = None.
Proof.
  intros (sizes & outSizes & Hb & Hl & Ho) Hx.
  unfold Actor.buildNetwork in Hb.
  destruct (Actor.hiddenLayers a !! 0%nat) as [h0|]; [|discriminate]. cbn in Hb.
  destruct (last (Actor.hiddenLayers a)) as [hl|]; [|discriminate]. cbn in Hb.
  injection Hb as <- <-.
  unfold Actor.forward.
  destruct (Actor.NeuralNet a) as [|l0 rest]; [inversion Hl|].
  apply Forall2_cons_1 in Hl as [(Hin & _) _]. simpl.
  rewrite linear_wrong_width; [reflexivity|].
  simpl in Hin. rewrite Hin. exact Hx.
Qed.

(** X22.  [Actor.buildNetwork] raises exactly for an empty [hiddenArray].
    For an actor with the layers it builds, [forward] on a batch whose
    rows have [stateSize] entries returns one row of [actionSize] entries
    per input row, every entry in [[-1, 1]] whatever the action bounds
    are: the output is [tanh] of the last layer and is not rescaled.  A
    batch with a row of another length makes [forward] raise. *)
Theorem X22_actor_forward_is_tanh_bounded (a : Actor.t) (state : Tensor) :
  Actor.built a ->
  Actor.hiddenLayers a <> []
  /\ (width (Actor.stateSize a) state ->
      exists y,
        Actor.forward a state = Some y
        /\ length y = length state
        /\ width (Actor.actionSize a) y
        /\ Forall (Forall (fun v => -1 <= v <= 1)) y)
  /\ (Exists (fun row => length row <> Actor.stateSize a) state ->
      Actor.forward a state = None).
Proof.
  intros Hb. split_and!.
  - destruct Hb as (sizes & outSizes & Hb & _).
    intros Hnil.
    apply (proj1 (actor_buildNetwork (Actor.stateSize a) (Actor.actionSize a)
                    (Actor.hiddenLayers a))) in Hnil.
    congruence.
  - intros Hx. apply actor_forward; assumption.
  - intros Hx. apply actor_forward_wrong_width; assumption.
Qed.

(** X23.  [rescaleAction] of a constructed actor is the line through
    [(-1, env_min)] and [(1, env_max)]: it sends the ends of the [tanh]
    range to the action bounds, and for [env_min <= env_max] it is
    monotone and takes [[-1, 1]] into [[env_min, env_max]]. *)
Theorem X23_rescaleAction_is_affine (actionLims : R * R) (state_size action_size : nat)
  (hiddenArray : list nat) (layers : list Linear) (out : Linear) (x x' : R) :
  let a := Actor.init actionLims state_size action_size hiddenArray layers out in
  Actor.rescaleAction a (-1) = fst actionLims
  /\ Actor.rescaleAction a 1 = snd actionLims
  /\ Actor.rescaleAction a x
     = fst actionLims + (x + 1) / 2 * (snd actionLims - fst actionLims)
  /\ (fst actionLims <= snd actionLims -> x <= x' ->
      Actor.rescaleAction a x <= Actor.rescaleAction a x')
  /\ (fst actionLims <= snd actionLims -> -1 <= x <= 1 ->
      fst actionLims <= Actor.rescaleAction a x <= snd actionLims).
Proof.
  intros a. destruct actionLims as [lo hi].
  assert (Hline : forall v, Actor.rescaleAction a v = lo + (v + 1) / 2 * (hi - lo)).
  { intros v. unfold Actor.rescaleAction, a. simpl. field. }
  rewrite !Hline. simpl. split_and!.
  - lra.
  - lra.
  - reflexivity.
  - intros Hb Hxx. nra.
  - intros Hb [H1 H2]. split; nra.
Qed.

(** ** Critic *)

Lemma forward_from_relu_layers k layers (x action : Tensor) :
  Critic.forward_from (S (S k)) layers x action = relu_layers layers x.
Proof.
  revert k x. induction layers as [|l layers IH]; intros k x; [reflexivity|].
  simpl. destruct (linear l x) as [y|]; [|reflexivity]. cbn. apply IH.
Qed.

Lemma imap_widen actionSize (sizes : list (nat * nat)) a b :
  imap (fun idx sz => if (idx =? 0)%nat then (fst sz + actionSize, snd sz)%nat else sz)
       ((a, b) :: sizes)
  = ((a + actionSize)%nat, b) :: sizes.
Proof.
  simpl. f_equal. unfold compose. simpl.
  induction sizes as [|sz sizes IH]; [reflexivity|].
  simpl. f_equal. clear IH.
  assert (H : forall (k : nat) (l : list (nat * nat)),
            imap (fun n sz => if (S (n + k) =? 0)%nat
                              then (fst sz + actionSize, snd sz)%nat else sz) l = l).
  { intros k l. revert k. induction l as [|y l IHl]; intros k; [reflexivity|].
    simpl. f_equal. unfold compose.
    erewrite imap_ext; [apply (IHl (S k))|].
    intros i z _. simpl. replace (i + S k)%nat with (S (i + k))%nat by lia. reflexivity. }
  unfold compose. erewrite imap_ext; [apply (H 1%nat)|].
  intros i z _. simpl. replace (i + 1)%nat with (S i) by lia. reflexivity.
Qed.

Lemma width_cat1 w1 w2 (x u : Tensor) :
  width w1 x -> width w2 u -> length u = length x ->
  exists y, cat1 x u = Some y /\ length y = length x /\ width (w1 + w2) y.
Proof.
  intros Hx Hu Hlen. unfold cat1. rewrite Hlen, Nat.eqb_refl.
  eexists. split; [reflexivity|]. split.
  - rewrite length_zip_with. lia.
  - unfold width in *. apply Forall_lookup_2. intros i row Hi.
    apply lookup_zip_with_Some in Hi as (r1 & r2 & -> & H1 & H2).
    rewrite length_app.
    rewrite (Forall_lookup_1 _ _ _ _ Hx H1), (Forall_lookup_1 _ _ _ _ Hu H2).
    reflexivity.
Qed.

Lemma critic_forward (c : Critic.t) (state action : Tensor) :
  Critic.built c ->
  width (Critic.stateSize c) state -> width (Critic.actionSize c) action ->
  length action = length state ->
  exists q,
    Critic.forward c state action = Some q
    /\ length q = length state /\ width 1 q.
Proof.
  intros (sizes & outSizes & Hb & Hl & Ho) Hs Ha Hlen.
  unfold Critic.buildNetwork in Hb.
  destruct (Critic.hiddenLayers c) as [|h0 [|h1 rest]] eqn:Eh; [discriminate| |].
  - cbn in Hb. injection Hb as <- <-.
    unfold Critic.forward.
    destruct (Critic.NeuralNet c) as [|l0 ls]; [inversion Hl|].
    apply Forall2_cons_1 in Hl as [Hm0 Hrest].
    apply Forall2_nil_inv_l in Hrest as ->.
    destruct (linear_made _ l0 state Hm0 Hs) as (y & Hy & Hyl & Hyw).
    destruct (linear_made _ _ (t_map relu y) Ho (width_t_map relu _ _ Hyw))
      as (q & Hq & Hql & Hqw).
    exists q. rewrite Hy. cbn.
    split_and!; try done. rewrite Hql. unfold t_map. rewrite length_map. exact Hyl.
  - cbn [lookup list_lookup mbind option_bind] in Hb.
    rewrite layerSizes_cons, imap_widen in Hb.
    destruct (last (h0 :: h1 :: rest)) as [hl|] eqn:El; [|discriminate].
    cbn in Hb. injection Hb as <- <-.
    unfold Critic.forward.
    destruct (Critic.NeuralNet c) as [|l0 [|l1 ls1]]; [inversion Hl| |].
    { apply Forall2_cons_1 in Hl as [_ Hrest]. inversion Hrest. }
    apply Forall2_cons_1 in Hl as [Hm0 Hrest].
    apply Forall2_cons_1 in Hrest as [Hm1 Hrest1].
    destruct (linear_made _ l0 state Hm0 Hs) as (y & Hy & Hyl & Hyw).
    simpl in Hyw.
    destruct (width_cat1 h0 (Critic.actionSize c) (t_map relu y) action)
      as (x1 & Hx1 & Hx1l & Hx1w).
    { apply width_t_map, Hyw. }
    { exact Ha. }
    { unfold t_map. rewrite length_map. congruence. }
    destruct (linear_made _ l1 x1 Hm1 Hx1w) as (y1 & Hy1 & Hy1l & Hy1w).
    assert (Hc : chained h1 (layerSizes (h1 :: rest)) hl).
    { apply layerSizes_chained; [reflexivity|]. exact El. }
    destruct (relu_layers_chain _ _ _ _ (t_map relu y1) Hrest1 Hc
                (width_t_map relu _ _ Hy1w)) as (z & Hz & Hzl & Hzw).
    destruct (linear_made _ _ z Ho Hzw) as (q & Hq & Hql & Hqw).
    exists q. rewrite Hy. cbn.
    rewrite Hx1. cbn. rewrite Hy1. cbn.
    rewrite forward_from_relu_layers, Hz. cbn.
    split_and!; try done.
    rewrite Hql, Hzl. unfold t_map in *. rewrite length_map in *. congruence.
Qed.

Lemma critic_one_hidden_layer (c : Critic.t) (state action action' : Tensor) :
  Critic.built c -> length (Critic.hiddenLayers c) = 1%nat ->
  Critic.forward c state action = Critic.forward c state action'.
Proof.
  intros (sizes & outSizes & Hb & Hl & Ho) Hone.
  unfold Critic.buildNetwork in Hb.
  destruct (Critic.hiddenLayers c) as [|h0 [|h1 rest]]; try discriminate.
  cbn in Hb. injection Hb as <- <-.
  unfold Critic.forward.
  destruct (Critic.NeuralNet c) as [|l0 ls]; [reflexivity|].
  apply Forall2_cons_1 in Hl as [_ Hrest].
  apply Forall2_nil_inv_l in Hrest as ->. reflexivity.
Qed.

(** X24.  [Critic.forward] for a critic with the layers its
    [buildNetwork] makes.  On a batch of states of [stateSize] entries and
    as many actions of [actionSize] entries it returns one value per row.
    The action enters before the second layer; with a single hidden layer
    there is no second layer, and the value does not depend on the action
    at all. *)
Theorem X24_critic_forward (c : Critic.t) (state action : Tensor) :
  Critic.built c ->
  (width (Critic.stateSize c) state -> width (Critic.actionSize c) action ->
   length action = length state ->
   exists q,
     Critic.forward c state action = Some q
     /\ length q = length state /\ width 1 q)
  /\ (length (Critic.hiddenLayers c) = 1%nat ->
      forall action', Critic.forward c state action = Critic.forward c state action').
Proof.
  intros Hb. split.
  - intros Hs Ha Hlen. apply critic_forward; assumption.
  - intros Hone action'. apply critic_one_hidden_layer; assumption.
Qed.

(** ** TD3Critic *)

Lemma omap_seq_S {A} (f : nat -> option A) s n :
  omap f (seq (S s) n) = omap (fun i => f (S i)) (seq s n).
Proof.
  revert s. induction n as [|n IH]; intros s; [reflexivity|].
  simpl. rewrite IH. reflexivity.
Qed.

Lemma twin_sizes (h : list nat) :
  omap (fun i => h1 ← h !! i; h2 ← h !! (i + 1)%nat; Some (h1, h2))
       (seq 0 (length h - 1))
  = layerSizes h.
Proof.
  induction h as [|a [|b rest] IH]; [reflexivity|reflexivity|].
  rewrite layerSizes_cons, <- IH.
  replace (length (a :: b :: rest) - 1)%nat with (S (length (b :: rest) - 1))
    by (simpl; lia).
  rewrite <- cons_seq. cbn -[length Nat.sub seq]. rewrite omap_seq_S. reflexivity.
Qed.

Lemma td3critic_heads (c : TD3Critic.t) (state action : Tensor) qa qb :
  TD3Critic.forward c state action = Some (qa, qb) ->
  TD3Critic.forwardNetA c state action = Some qa.
Proof.
  unfold TD3Critic.forward, TD3Critic.forwardNetA.
  destruct (cat1 state action) as [x|]; [|discriminate]. cbn.
  destruct (relu_layers (TD3Critic.NeuralNetA c) x) as [xa|]; [|discriminate]. cbn.
  destruct (relu_layers (TD3Critic.NeuralNetB c) x) as [xb|]; [|discriminate]. cbn.
  destruct (linear (TD3Critic.outputA c) xa) as [ya|]; [|discriminate]. cbn.
  destruct (linear (TD3Critic.outputB c) xb) as [yb|]; [|discriminate]. cbn.
  congruence.
Qed.

Lemma td3critic_forward (c : TD3Critic.t) (state action : Tensor) :
  TD3Critic.built c ->
  width (TD3Critic.stateSize c) state -> width (TD3Critic.actionSize c) action ->
  length action = length state ->
  exists qa qb,
    TD3Critic.forward c state action = Some (qa, qb)
    /\ length qa = length state /\ width 1 qa
    /\ length qb = length state /\ width 1 qb.
Proof.
  intros (sizes & outSizes & Hb & HA & HB & HoA & HoB) Hs Ha Hlen.
  unfold TD3Critic.buildNetworks in Hb. rewrite twin_sizes in Hb.
  destruct (TD3Critic.hiddenLayers c !! 0%nat) as [h0|] eqn:E0; [|discriminate].
  cbn in Hb.
  destruct (last (TD3Critic.hiddenLayers c)) as [hl|] eqn:El; [|discriminate].
  cbn in Hb. injection Hb as <- <-.
  destruct (width_cat1 _ _ state action Hs Ha Hlen) as (x & Hx & Hxl & Hxw).
  assert (Hc : chained (TD3Critic.stateSize c + TD3Critic.actionSize c)
                 ((TD3Critic.stateSize c + TD3Critic.actionSize c, h0)%nat
                  :: layerSizes (TD3Critic.hiddenLayers c)) hl).
  { split; [reflexivity|]. apply layerSizes_chained; assumption. }
  destruct (relu_layers_chain _ _ _ _ x HA Hc Hxw) as (xa & Hxa & Hxal & Hxaw).
  destruct (relu_layers_chain _ _ _ _ x HB Hc Hxw) as (xb & Hxb & Hxbl & Hxbw).
  destruct (linear_made _ _ xa HoA Hxaw) as (qa & Hqa & Hqal & Hqaw).
  destruct (linear_made _ _ xb HoB Hxbw) as (qb & Hqb & Hqbl & Hqbw).
  exists qa, qb. unfold TD3Critic.forward.
  rewrite Hx. cbn. rewrite Hxa. cbn. rewrite Hxb. cbn. rewrite Hqa. cbn.
  rewrite Hqb. cbn. split_and!; try done; congruence.
Qed.

(** X25.  The twin critic.  Whenever [forward] returns, [forwardNetA] on
    the same input returns its first component.  For a critic with the
    layers [buildNetworks] makes, on a batch of states of [stateSize]
    entries and as many actions of [actionSize] entries, [forward] returns
    and each head gives one value per row. *)
Theorem X25_forwardNetA_is_the_first_head (c : TD3Critic.t) (state action : Tensor) :
  (forall qa qb,
     TD3Critic.forward c state action = Some (qa, qb) ->
     TD3Critic.forwardNetA c state action = Some qa)
  /\ (TD3Critic.built c ->
      width (TD3Critic.stateSize c) state -> width (TD3Critic.actionSize c) action ->
      length action = length state ->
      exists qa qb,
        TD3Critic.forward c state action = Some (qa, qb)
        /\ TD3Critic.forwardNetA c state action = Some qa
        /\ length qa = length state /\ width 1 qa
        /\ length qb = length state /\ width 1 qb).
Proof.
  split.
  - intros qa qb. apply td3critic_heads.
  - intros Hb Hs Ha Hlen.
    destruct (td3critic_forward c state action Hb Hs Ha Hlen)
      as (qa & qb & Hf & H1 & H2 & H3 & H4).
    exists qa, qb. split_and!; try done. eapply td3critic_heads; eauto.
Qed.

(** ** The sample networks are built as their classes build them *)

Lemma X22_witness :
  exists y,
    Actor.forward NetSamples.actor [[0]] = Some y
    /\ length y = length [[0]]
    /\ width (Actor.actionSize NetSamples.actor) y
    /\ Forall (Forall (fun v => -1 <= v <= 1)) y.
Proof.
  apply (X22_actor_forward_is_tanh_bounded NetSamples.actor [[0]]).
  - exists [(1, 2)%nat], (2, 1)%nat. split_and!.
    + reflexivity.
    + repeat constructor.
    + repeat constructor.
  - repeat constructor.
Defined.

Lemma X24_witness :
  exists q,
    Critic.forward NetSamples.critic [[0]] [[0]] = Some q
    /\ length q = length [[0]] /\ width 1 q.
Proof.
  apply (X24_critic_forward NetSamples.critic [[0]] [[0]]).
  - exists [(1, 2)%nat], (2, 1)%nat. split_and!.
    + reflexivity.
    + repeat constructor.
    + repeat constructor.
  - repeat constructor.
  - repeat constructor.
  - reflexivity.
Defined.

Lemma X25_witness :
  exists qa qb,
    TD3Critic.forward NetSamples.twin [[0]] [[0]] = Some (qa, qb)
    /\ TD3Critic.forwardNetA NetSamples.twin [[0]] [[0]] = Some qa
    /\ length qa = length [[0]] /\ width 1 qa
    /\ length qb = length [[0]] /\ width 1 qb.
Proof.
  apply (X25_forwardNetA_is_the_first_head NetSamples.twin [[0]] [[0]]).
  - exists [(2, 2)%nat], (2, 1)%nat. split_and!.
    + reflexivity.
    + repeat constructor.
    + repeat constructor.
    + repeat constructor.
    + repeat constructor.
  - repeat constructor.
  - repeat constructor.
  - reflexivity.
Defined.

End NetworkFacts.
